(** * Heap_Id, Heap and Graph::print_dijkstra: a shallow embedding

    The development follows [src/heap_id.hpp] (the indexed binary heap
    [Heap_Id<Element>]), [src/heap.hpp] (the binary heap [Heap<Element>])
    and [src/graph.cpp] ([Graph::print_dijkstra]).

    - [unsigned int] values are integers in [0, 2^32) whose arithmetic wraps
      ([u32]); [int] values are obtained with [to_int].
    - C arrays are lists read and written by position; an access outside the
      array, the read of an indeterminate value and the dereference of a null
      or dangling pointer are undefined behaviour ([Undef]).
    - A failed [assert] aborts the program ([Abort]).
    - The heap stores pointers to elements it does not own: every operation
      that compares elements takes the memory [m] those pointers refer to. *)

From Stdlib Require Import ZArith Lia.
From Stdlib Require QArith.
From stdpp Require Import base tactics option list numbers sorting.

Open Scope Z_scope.

(** ** Machine integers *)

Definition UINT_MOD : Z := 2 ^ 32.

(** Result of an [unsigned int] operation. *)
Definition u32 (z : Z) : Z := z mod UINT_MOD.

(** Conversion of an [unsigned int] to [int] (two's complement). *)
Definition to_int (z : Z) : Z :=
  if u32 z <? 2 ^ 31 then u32 z else u32 z - UINT_MOD.

(** A [double] that holds the exact product of a 32-bit integer with a power
    of two is the dyadic rational itself: every integer below 2^53 is a
    binary64 value and the multiplication by 0.5 only changes the exponent. *)
Definition double : Type := QArith_base.Q.

Definition double_of_uint (z : Z) : double := QArith_base.inject_Z z.

Definition double_mul (x y : double) : double := QArith_base.Qmult x y.

Definition half : double := QArith_base.Qmake 1 2.

(** Conversion of a floating value to [unsigned int]: truncation toward
    zero. *)
Definition uint_of_double (q : double) : Z :=
  u32 (Z.quot (QArith_base.Qnum q) (Z.pos (QArith_base.Qden q))).

(** ** Outcomes of a run *)

Inductive outcome (A : Type) : Type :=
| Ok (a : A)      (* normal completion *)
| Abort           (* a failed assert *)
| Undef           (* undefined behaviour *)
| Diverge.        (* the loop does not terminate *)

Arguments Ok {A} a.
Arguments Abort {A}.
Arguments Undef {A}.
Arguments Diverge {A}.

Definition bind {A B} (x : outcome A) (k : A -> outcome B) : outcome B :=
  match x with
  | Ok a => k a
  | Abort => Abort
  | Undef => Undef
  | Diverge => Diverge
  end.

#[global] Instance outcome_ret : MRet outcome := @Ok.
#[global] Instance outcome_bind : MBind outcome := fun A B k x => bind x k.

(** The computation ends: normally, on a failed assertion or in undefined
    behaviour. *)
Definition halts {A} (x : outcome A) : Prop := x <> Diverge.

Definition assert (b : bool) : outcome unit := if b then Ok tt else Abort.

(** [ASSERT_IN_RANGE(value, min, max)]. *)
Definition ASSERT_IN_RANGE (value min max : Z) : outcome unit :=
  assert (min <=? value);; assert (value <=? max).

(** Array read [a[i]] and array write [a[i] = x]. *)
Definition rd {A} (a : list A) (i : Z) : outcome A :=
  if (0 <=? i) && (i <? Z.of_nat (length a))
  then match a !! Z.to_nat i with
       | Some x => Ok x
       | None => Undef
       end
  else Undef.

Definition wr {A} (a : list A) (i : Z) (x : A) : outcome (list A) :=
  if (0 <=? i) && (i <? Z.of_nat (length a))
  then Ok (<[Z.to_nat i := x]> a)
  else Undef.

(** Control flow of a statement inside a function body: it returns from the
    function, or it falls through to the next statement. *)
Inductive flow (A : Type) : Type :=
| Return (a : A)
| Next.

Arguments Return {A} a.
Arguments Next {A}.

(** [s; rest]: [rest] runs only when [s] falls through. *)
Definition then_ {A} (s : outcome (flow A)) (rest : outcome A) : outcome A :=
  r ← s; match r with Return a => Ok a | Next => rest end.

(** [for (i in l) body]. *)
Fixpoint for_each {A} (l : list Z) (body : Z -> outcome (flow A))
  : outcome (flow A) :=
  match l with
  | [] => Ok Next
  | i :: l' =>
      r ← body i;
      match r with
      | Return a => Ok (Return a)
      | Next => for_each l' body
      end
  end.

(** ** The indexed heap of [heap_id.hpp] *)

Module HeapId.

(** An [Element *]: null or an address. *)
Abbreviation ptr := (option Z).

(** [std::pair<Element *, unsigned int>]. *)
Abbreviation Node := (ptr * Z)%type.

Record Heap_Id : Type := mkHeap {
  capacity : Z;
  elements : list Node;
  nb_elem : Z;
  id_to_pos : list (option Z);   (* [None]: never written *)
  id_free : list Z
}.

Definition set_elements (h : Heap_Id) (e : list Node) : Heap_Id :=
  mkHeap (capacity h) e (nb_elem h) (id_to_pos h) (id_free h).

Definition set_nb_elem (h : Heap_Id) (n : Z) : Heap_Id :=
  mkHeap (capacity h) (elements h) n (id_to_pos h) (id_free h).

Definition set_id_to_pos (h : Heap_Id) (t : list (option Z)) : Heap_Id :=
  mkHeap (capacity h) (elements h) (nb_elem h) t (id_free h).

(** The constructor: [new Node[_capacity]] value-initialises the pairs,
    [new unsigned int[_capacity]] leaves [id_to_pos] indeterminate, and the
    loop fills [id_free] with [0 .. capacity-1]. *)
Definition Heap_Id_new (_capacity : Z) : Heap_Id :=
  mkHeap _capacity
         (replicate (Z.to_nat _capacity) (None, 0))
         0
         (replicate (Z.to_nat _capacity) None)
         (seqZ 0 _capacity).

Definition is_empty (h : Heap_Id) : bool := nb_elem h =? 0.

Section Heap.

Context {Element : Type}.

(** [operator<] and [operator<=] of [Element]. *)
Variable elt_lt elt_le : Element -> Element -> bool.

(** The storage the heap's pointers refer to. *)
Definition Mem : Type := Z -> option Element.

Definition deref (m : Mem) (p : ptr) : outcome Element :=
  match p with
  | Some a => match m a with Some e => Ok e | None => Undef end
  | None => Undef
  end.

(** The body that [lt] and [le] share. *)
Definition cmp_pos (op : Element -> Element -> bool)
  (m : Mem) (h : Heap_Id) (pos_1 pos_2 : Z) : outcome bool :=
  ASSERT_IN_RANGE pos_1 0 (u32 (capacity h - 1));;
  ASSERT_IN_RANGE pos_2 0 (u32 (capacity h - 1));;
  n1 ← rd (elements h) pos_1;
  e1 ← deref m n1.1;
  n2 ← rd (elements h) pos_2;
  e2 ← deref m n2.1;
  Ok (op e1 e2).

Definition lt : Mem -> Heap_Id -> Z -> Z -> outcome bool := cmp_pos elt_lt.

Definition le : Mem -> Heap_Id -> Z -> Z -> outcome bool := cmp_pos elt_le.

Definition get_pos_left_son (h : Heap_Id) (i : Z) : outcome Z :=
  ASSERT_IN_RANGE i 0 (u32 (capacity h - 1));;
  Ok (u32 (2 * i + 1)).

Definition get_pos_right_son (h : Heap_Id) (i : Z) : outcome Z :=
  ASSERT_IN_RANGE i 0 (u32 (capacity h - 1));;
  Ok (u32 (2 * i + 2)).

Definition get_pos_father (h : Heap_Id) (i : Z) : outcome Z :=
  ASSERT_IN_RANGE i 0 (u32 (capacity h - 1));;
  let pos_father :=
    if i =? 0 then 0
    else uint_of_double (double_mul (double_of_uint (u32 (i - 1))) half) in
  ASSERT_IN_RANGE pos_father 0 (u32 (capacity h - 1));;
  Ok pos_father.

Definition swap (h : Heap_Id) (pos_a pos_b : Z) : outcome Heap_Id :=
  ASSERT_IN_RANGE pos_a 0 (u32 (capacity h - 1));;
  ASSERT_IN_RANGE pos_b 0 (u32 (capacity h - 1));;
  let temp_pos_a := pos_a in
  na ← rd (elements h) pos_a;
  t1 ← wr (id_to_pos h) na.2 (Some pos_b);
  nb ← rd (elements h) pos_b;
  t2 ← wr t1 nb.2 (Some temp_pos_a);
  let buffer := na in
  e1 ← wr (elements h) pos_a nb;
  e2 ← wr e1 pos_b buffer;
  Ok (set_elements (set_id_to_pos h t2) e2).

(** The body of the [for] loop of [is_valid], which follows [return true]. *)
Definition is_valid_body (m : Mem) (h : Heap_Id) (i : Z)
  : outcome (flow bool) :=
  r ← get_pos_right_son h i;
  c1 ← (if r <? nb_elem h
         then b ← le m h i r; Ok (if negb b then Return false else Next)
         else Ok Next);
  match c1 with
  | Return a => Ok (Return a)
  | Next =>
      l ← get_pos_left_son h i;
      if l <? nb_elem h
      then b ← le m h i l; Ok (if negb b then Return false else Next)
      else Ok Next
  end.

Definition is_valid_scan (m : Mem) (h : Heap_Id) : outcome bool :=
  then_ (for_each (seqZ 0 (nb_elem h)) (is_valid_body m h)) (Ok true).

Definition is_valid (m : Mem) (h : Heap_Id) : outcome bool :=
  then_ (Ok (Return true)) (is_valid_scan m h).

Definition assert_valid (m : Mem) (h : Heap_Id) : outcome unit :=
  b ← is_valid m h; assert b.

(** The [while] loop of [lower]; one unit of fuel per iteration. *)
Fixpoint lower_loop (fuel : nat) (m : Mem) (h : Heap_Id)
  (pos pos_left_son pos_right_son : Z) : outcome Heap_Id :=
  match fuel with
  | O => Diverge
  | S fuel' =>
      c1 ← (if pos_left_son <? nb_elem h
             then lt m h pos_left_son pos else Ok false);
      c ← (if (c1 : bool) then Ok true
            else if pos_right_son <? nb_elem h
                 then lt m h pos_right_son pos else Ok false);
      if (c : bool) then
        c2 ← (if pos_right_son <? nb_elem h
               then lt m h pos_right_son pos_left_son else Ok false);
        let pos_to_swap_with :=
          if (c2 : bool) then pos_right_son else pos_left_son in
        h' ← swap h pos pos_to_swap_with;
        let pos := pos_to_swap_with in
        l ← get_pos_left_son h' pos;
        r ← get_pos_right_son h' pos;
        lower_loop fuel' m h' pos l r
      else Ok h
  end.

(** As long as [2 * pos + 2] does not wrap, every iteration of [lower] moves
    [pos] to a larger position below [nb_elem]: there are at most [nb_elem]
    iterations. *)
Definition lower (m : Mem) (h : Heap_Id) (pos : Z) : outcome Heap_Id :=
  ASSERT_IN_RANGE pos 0 (u32 (capacity h - 1));;
  l ← get_pos_left_son h pos;
  r ← get_pos_right_son h pos;
  h' ← lower_loop (S (Z.to_nat (nb_elem h))) m h pos l r;
  assert_valid m h' ;;
  Ok h'.

(** The [while] loop of [raise]; [pos_father >= 0] holds for every
    [unsigned int]. *)
Fixpoint raise_loop (fuel : nat) (m : Mem) (h : Heap_Id)
  (pos pos_father : Z) : outcome Heap_Id :=
  match fuel with
  | O => Diverge
  | S fuel' =>
      c ← (if 0 <=? pos_father then lt m h pos pos_father else Ok false);
      if (c : bool) then
        h' ← swap h pos pos_father;
        let pos := pos_father in
        f ← get_pos_father h' pos;
        raise_loop fuel' m h' pos f
      else Ok h
  end.

(** Every iteration of [raise] above the root moves [pos] to a smaller
    position; an iteration at the root leaves the state as it is. *)
Definition raise (m : Mem) (h : Heap_Id) (pos : Z) : outcome Heap_Id :=
  ASSERT_IN_RANGE pos 0 (u32 (capacity h - 1));;
  f ← get_pos_father h pos;
  h' ← raise_loop (S (Z.to_nat pos)) m h pos f;
  assert_valid m h' ;;
  Ok h'.

(** [push(v)]: [v] is the address of the element. *)
Definition push (m : Mem) (h : Heap_Id) (v : Z) : outcome (Heap_Id * Z) :=
  assert_valid m h;;
  assert (nb_elem h <? capacity h);;
  i ← rd (id_free h) (nb_elem h);
  let n : Node := (Some v, i) in
  e ← wr (elements h) (nb_elem h) n;
  t ← wr (id_to_pos h) n.2 (Some (nb_elem h));
  let h1 := set_nb_elem (set_id_to_pos (set_elements h e) t)
                        (u32 (nb_elem h + 1)) in
  h2 ← raise m h1 (u32 (nb_elem h1 - 1));
  assert_valid m h2 ;;
  Ok (h2, n.2).

(** [pop()]: the result is the address the returned reference is bound
    to. *)
Definition pop (m : Mem) (h : Heap_Id) : outcome (Heap_Id * Z) :=
  assert_valid m h;;
  h1 ← swap h 0 (u32 (nb_elem h - 1));
  popped_node ← rd (elements h1) (u32 (nb_elem h1 - 1));
  let popped_element := popped_node.1 in
  let h2 := set_nb_elem h1 (u32 (nb_elem h1 - 1)) in
  h3 ← lower m h2 0;
  assert_valid m h3 ;;
  match popped_element with
  | Some a => Ok (h3, a)
  | None => Undef
  end.

Definition reposition (m : Mem) (h : Heap_Id) (id : Z) : outcome Heap_Id :=
  p ← rd (id_to_pos h) id;
  p ← (match p with Some p => Ok p | None => Undef end);
  h1 ← raise m h p;
  q ← rd (id_to_pos h1) id;
  q ← (match q with Some q => Ok q | None => Undef end);
  lower m h1 q.

End Heap.

(** *** Notions used to state the properties of the heap *)

(** The state of [push(v)] when it calls [raise]: the node is in the first
    empty cell, with the id [id_free[nb_elem]]. *)
Definition pushed (h : Heap_Id) (v : Z) : Heap_Id :=
  set_nb_elem
    (set_id_to_pos
       (set_elements h
          (<[Z.to_nat (nb_elem h) := (Some v, nb_elem h)]> (elements h)))
       (<[Z.to_nat (nb_elem h) := Some (nb_elem h)]> (id_to_pos h)))
    (nb_elem h + 1).

(** The permutation of the positions made by [swap(a, b)]. *)
Definition transpose (a b k : Z) : Z :=
  if k =? a then b else if k =? b then a else k.

Section HeapSpec.

Context {Element : Type}.

Variable elt_lt elt_le : Element -> Element -> bool.

(** [n] pushes, one per address of [vs], in the order of [vs]. *)
Fixpoint push_all (m : Mem) (h : Heap_Id) (vs : list Z) : outcome Heap_Id :=
  match vs with
  | [] => Ok h
  | v :: vs' => r ← push elt_lt elt_le m h v; push_all m r.1 vs'
  end.

(** [n] pops; the addresses popped, first popped first. *)
Fixpoint pop_n (m : Mem) (h : Heap_Id) (n : nat)
  : outcome (Heap_Id * list Z) :=
  match n with
  | O => Ok (h, [])
  | S n' =>
      r ← pop elt_lt elt_le m h;
      r' ← pop_n m r.1 n';
      Ok (r'.1, r.2 :: r'.2)
  end.

(** The element the node at position [k] points to. *)
Definition key_at (m : Mem (Element := Element)) (h : Heap_Id) (k : Z)
  : option Element :=
  n ← elements h !! Z.to_nat k; a ← n.1; m a.

(** The key at position [i] is less than or equal to the key at [j]. *)
Definition le_at (m : Mem) (h : Heap_Id) (i j : Z) : Prop :=
  exists x y, key_at m h i = Some x /\ key_at m h j = Some y /\
              elt_le x y = true.

(** The heap invariant: every position is below its sons that hold an
    element. *)
Definition heap_invariant (m : Mem) (h : Heap_Id) : Prop :=
  forall i j, 0 <= i -> j = 2 * i + 1 \/ j = 2 * i + 2 -> j < nb_elem h ->
              le_at m h i j.

(** The same invariant, seen from the sons. *)
Definition ordered (m : Mem) (h : Heap_Id) : Prop :=
  forall k, 0 < k < nb_elem h -> le_at m h ((k - 1) / 2) k.

(** The addresses held by the heap, by position. *)
Definition ptrs (h : Heap_Id) : list Z :=
  omap fst (take (Z.to_nat (nb_elem h)) (elements h)).

(** The key at address [a] is less than or equal to the key at [b]. *)
Definition key_le (m : Mem (Element := Element)) (a b : Z) : Prop :=
  exists x y, m a = Some x /\ m b = Some y /\ elt_le x y = true.

(** The arrays have [capacity] cells, the free ids are as the constructor
    left them, and every position below [nb_elem] holds a valid pointer and
    an id below [capacity]. *)
Record wf (m : Mem (Element := Element)) (h : Heap_Id) : Prop := mkWf {
  wf_cap : 0 <= capacity h < UINT_MOD;
  wf_nb : 0 <= nb_elem h <= capacity h;
  wf_elements : Z.of_nat (length (elements h)) = capacity h;
  wf_id_to_pos : Z.of_nat (length (id_to_pos h)) = capacity h;
  wf_id_free : id_free h = seqZ 0 (capacity h);
  wf_nodes : forall k, 0 <= k < nb_elem h ->
    exists a e id, elements h !! Z.to_nat k = Some (Some a, id) /\
                   m a = Some e /\ 0 <= id < capacity h
}.

(** The order holds between every position and its father, except possibly
    between [pos] and its father; the sons of [pos] are above the father of
    [pos]. *)
Definition raise_inv (m : Mem) (h : Heap_Id) (pos : Z) : Prop :=
  (forall k, 0 < k < nb_elem h -> k <> pos -> le_at m h ((k - 1) / 2) k) /\
  (forall k, 0 < k < nb_elem h -> (k - 1) / 2 = pos -> 0 < pos ->
             le_at m h ((pos - 1) / 2) k).

(** The order holds between every position and its father, except possibly
    between [pos] and its sons; the sons of [pos] are above the father of
    [pos]. *)
Definition lower_inv (m : Mem) (h : Heap_Id) (pos : Z) : Prop :=
  (forall k, 0 < k < nb_elem h -> (k - 1) / 2 <> pos ->
             le_at m h ((k - 1) / 2) k) /\
  (forall k, 0 < k < nb_elem h -> (k - 1) / 2 = pos -> 0 < pos ->
             le_at m h ((pos - 1) / 2) k).

End HeapSpec.

(** *** Heaps of integers *)

(** A memory of integers: address [a] holds [l[a]]. *)
Definition mem_list (l : list Z) : Mem (Element := Z) :=
  fun a => if a <? 0 then None else l !! Z.to_nat a.

Definition pushZ := push Z.ltb Z.leb.
Definition popZ := pop Z.ltb Z.leb.
Definition repositionZ := reposition Z.ltb Z.leb.

(** Three pushes, a pop and a fourth push in a heap of capacity 3; the keys
    are 1, 5, 7 and 9 at the addresses 0, 1, 2 and 3. *)
Definition run_clash : outcome (Z * Z * Z * Z * Z * Heap_Id) :=
  let m := mem_list [1; 5; 7; 9] in
  r0 ← pushZ m (Heap_Id_new 3) 0;
  r1 ← pushZ m r0.1 1;
  r2 ← pushZ m r1.1 2;
  r3 ← popZ m r2.1;
  r4 ← pushZ m r3.1 3;
  Ok (r0.2, r1.2, r2.2, r3.2, r4.2, r4.1).

(** The same run, after which the key at address 2 is lowered from 7 to 0 and
    the handle that [push] returned for it is repositioned. *)
Definition run_clash_reposition : outcome Heap_Id :=
  r ← run_clash;
  repositionZ (mem_list [1; 5; 0; 9]) r.2 2.

(** Two pushes and a pop in a heap of capacity 2, then a reposition of the
    handle of the element that was popped; the keys are 5 and 1 at the
    addresses 0 and 1. *)
Definition run_stale : outcome (Z * Z * Heap_Id * Heap_Id) :=
  let m := mem_list [5; 1] in
  r0 ← pushZ m (Heap_Id_new 2) 0;
  r1 ← pushZ m r0.1 1;
  r2 ← popZ m r1.1;
  h ← repositionZ m r2.1 r1.2;
  Ok (r1.2, r2.2, r2.1, h).

(** A heap whose root is above its left son and whose [id_to_pos] disagrees
    with the ids of the nodes; the keys are 1, 5, 0 and 9 at the addresses 0,
    1, 2 and 3. *)
Definition bad_heap : Heap_Id :=
  mkHeap 3 [(Some 1, 1); (Some 2, 2); (Some 3, 2)] 3
         [Some 2; Some 0; Some 2] [0; 1; 2].

(** Every position below [nb_elem] holds the key 0, except [p], which holds
    the key 1. *)
Definition one_at (m : Mem (Element := Z)) (h : Heap_Id) (p : Z) : Prop :=
  forall k, 0 <= k < nb_elem h ->
            key_at m h k = Some (if k =? p then 1 else 0).

(** [2^31 + 1]: the size of a heap in which [2^31 - 1] is a position below
    the last one. *)
Definition big : Z := 2147483649.

(** A memory of [big] integers: the key 1 at the last address, the key 0 at
    the others. *)
Definition big_mem : Mem (Element := Z) :=
  fun a => Some (if a =? big - 1 then 1 else 0).

(** *** Notions used to state what the operations leave unchanged *)

(** [h'] has the capacity, the number of elements, the free ids and the
    array sizes of [h]. *)
Definition frame (h h' : Heap_Id) : Prop :=
  capacity h' = capacity h /\ nb_elem h' = nb_elem h /\
  id_free h' = id_free h /\
  length (elements h') = length (elements h) /\
  length (id_to_pos h') = length (id_to_pos h).

Section Reach.

Context {Element : Type}.

Variable elt_lt elt_le : Element -> Element -> bool.

(** The states of a heap of capacity [cap]: the one the constructor builds,
    and those the public operations return from such a state, whatever the
    elements are at the time of the call. *)
Inductive reach (cap : Z) : Heap_Id -> Prop :=
| reach_new : reach cap (Heap_Id_new cap)
| reach_push (m : Mem) (h : Heap_Id) (v : Z) (r : Heap_Id * Z) :
    reach cap h -> push elt_lt elt_le m h v = Ok r -> reach cap r.1
| reach_pop (m : Mem) (h : Heap_Id) (r : Heap_Id * Z) :
    reach cap h -> pop elt_lt elt_le m h = Ok r -> reach cap r.1
| reach_reposition (m : Mem) (h : Heap_Id) (id : Z) (h' : Heap_Id) :
    reach cap h -> reposition elt_lt elt_le m h id = Ok h' -> reach cap h'.

End Reach.

(** *** Notions used to state what the handles lead to *)

(** [n] is a node of the heap: it is held at a position below [nb_elem]. *)
Definition live (h : Heap_Id) (n : Node) : Prop :=
  exists k, 0 <= k < nb_elem h /\ elements h !! Z.to_nat k = Some n.

(** [id_to_pos] leads from the id of every node of the heap to the position
    of that node. *)
Definition ids_ok (h : Heap_Id) : Prop :=
  forall k n, 0 <= k < nb_elem h -> elements h !! Z.to_nat k = Some n ->
    0 <= n.2 /\ id_to_pos h !! Z.to_nat n.2 = Some (Some k).

(** The handle [id] leads to a node of the heap, and that node holds the
    address [a] with the id [id]. *)
Definition resolves (h : Heap_Id) (id a : Z) : Prop :=
  0 <= id /\
  exists k, id_to_pos h !! Z.to_nat id = Some (Some k) /\
            0 <= k < nb_elem h /\
            elements h !! Z.to_nat k = Some (Some a, id).

(** A heap of capacity 3 that holds the addresses 0 and 1, under the handles
    0 and 1. *)
Definition two_heap : Heap_Id :=
  mkHeap 3 [(Some 0, 0); (Some 1, 1); (None, 0)] 2 [Some 0; Some 1; None]
         [0; 1; 2].

(** The heap of capacity 3 left by the pushes of the addresses 0, 1 and 2
    and one [pop]: it holds 1 and 2 under the handles 1 and 2, and
    [nb_elem] is 2. *)
Definition clash_heap : Heap_Id :=
  mkHeap 3 [(Some 1, 1); (Some 2, 2); (Some 0, 0)] 2 [Some 2; Some 0; Some 1]
         [0; 1; 2].

(** Every node of the array of [h'] is a node of the array of [h]. *)
Definition cells_from (h h' : Heap_Id) : Prop :=
  forall k n, elements h' !! k = Some n -> exists k', elements h !! k' = Some n.

End HeapId.

(** ** Dijkstra's algorithm of [graph.cpp] *)

Module Dijkstra.

Import HeapId.

(** [class Vertex_Distance].  The [float] distances are modelled by integers:
    sums and comparisons of small integral floats are exact. *)
Record Vertex_Distance : Type := mkVD {
  i : Z;
  distance : Z;
  from : Z
}.

(** [operator<] and [operator<=] of [Vertex_Distance]. *)
Definition vd_lt (vd1 vd2 : Vertex_Distance) : bool :=
  distance vd1 <? distance vd2.

Definition vd_le (vd1 vd2 : Vertex_Distance) : bool :=
  distance vd1 <=? distance vd2.

Definition id_undefined : Z := -1.

Definition id_treated : Z := -2.

(** Modelled from the spec: the type [Edge] of [graph.hpp], which is not
    part of the sources.  An edge is a pair of a target vertex ([first]) and
    a non-negative weight ([second]). *)
Definition Edge : Type := (Z * Z)%type.

(** Modelled from the spec: the data members of the class [Graph] of
    [graph.hpp], which is not part of the sources.  A graph has
    [nbr_vertices] vertices, and [vertices g] holds, for every vertex, the
    ordered sequence of its outgoing edges (the component
    [vertices[v].second] of the source). *)
Record Graph : Type := mkGraph {
  nbr_vertices : Z;
  vertices : list (list Edge)
}.

(** One line of the output: ["n" << i << " " << distance], or the literal
    ["n0"]. *)
Inductive line : Type :=
| Hop (i : Z) (distance : Z)
| Literal_n0.

(** The local state of [print_dijkstra]: the heap, [vertices_ids] and
    [vertices_dist] (whose entries are indeterminate until assigned). *)
Record state : Type := mkState {
  heap : Heap_Id;
  vertices_ids : list Z;
  vertices_dist : list (option Vertex_Distance)
}.

(** The memory the heap's pointers refer to: the address of
    [vertices_dist[v]] is [v]. *)
Definition mem_of (vertices_dist : list (option Vertex_Distance))
  : Mem (Element := Vertex_Distance) :=
  fun a => if a <? 0 then None else mjoin (vertices_dist !! Z.to_nat a).

(** Read of a member of [vertices_dist[v]]. *)
Definition rd_dist (vertices_dist : list (option Vertex_Distance)) (v : Z)
  : outcome Vertex_Distance :=
  o ← rd vertices_dist v;
  match o with Some vd => Ok vd | None => Undef end.

(** Lines 120-121: the two member writes of a relaxation. *)
Definition relax_write (s : state) (vd : Vertex_Distance) (e : Edge)
  : outcome state :=
  old ← rd_dist (vertices_dist s) e.1;
  d1 ← wr (vertices_dist s) e.1
        (Some (mkVD (i old) (distance vd + e.2) (from old)));
  old ← rd_dist d1 e.1;
  d2 ← wr d1 e.1 (Some (mkVD (i old) (distance old) (i vd)));
  Ok (mkState (heap s) (vertices_ids s) d2).

(** Lines 113-123: the body of the loop over the edges of [vd.i]. *)
Definition relax (s : state) (vd : Vertex_Distance) (e : Edge)
  : outcome state :=
  id ← rd (vertices_ids s) e.1;
  if id =? id_undefined then
    d ← wr (vertices_dist s) e.1 (Some (mkVD e.1 (distance vd + e.2) (i vd)));
    r ← push vd_lt vd_le (mem_of d) (heap s) e.1;
    ids ← wr (vertices_ids s) e.1 (to_int r.2);
    Ok (mkState r.1 ids d)
  else
    old ← rd_dist (vertices_dist s) e.1;
    if distance vd + e.2 <? distance old then
      s1 ← relax_write s vd e;
      id ← rd (vertices_ids s1) e.1;
      h ← reposition vd_lt vd_le (mem_of (vertices_dist s1)) (heap s1) (u32 id);
      Ok (mkState h (vertices_ids s1) (vertices_dist s1))
    else Ok s.

Fixpoint relax_all (s : state) (vd : Vertex_Distance) (es : list Edge)
  : outcome state :=
  match es with
  | [] => Ok s
  | e :: es' => s' ← relax s vd e; relax_all s' vd es'
  end.

(** Lines 109-125: one iteration of the main loop. *)
Definition step (g : Graph) (s : state) : outcome state :=
  r ← pop vd_lt vd_le (mem_of (vertices_dist s)) (heap s);
  vd ← rd_dist (vertices_dist s) r.2;
  es ← rd (vertices g) (i vd);
  s' ← relax_all (mkState r.1 (vertices_ids s) (vertices_dist s)) vd es;
  ids ← wr (vertices_ids s') (i vd) id_treated;
  Ok (mkState (heap s') ids (vertices_dist s')).

(** Lines 108-126.  Every iteration pops one vertex and a vertex is pushed at
    most once, so there are at most [nbr_vertices] iterations. *)
Fixpoint main_loop (fuel : nat) (g : Graph) (s : state) : outcome state :=
  if is_empty (heap s) then Ok s
  else match fuel with
       | O => Diverge
       | S fuel' => s' ← step g s; main_loop fuel' g s'
       end.

(** Lines 91-104. *)
Definition init (g : Graph) (_from : Z) : outcome state :=
  let heap := Heap_Id_new (nbr_vertices g) in
  let vertices_ids := replicate (Z.to_nat (nbr_vertices g)) id_undefined in
  let vertices_dist := replicate (Z.to_nat (nbr_vertices g)) None in
  d ← wr vertices_dist _from (Some (mkVD _from 0 _from));
  r ← push vd_lt vd_le (mem_of d) heap _from;
  ids ← wr vertices_ids _from (to_int r.2);
  Ok (mkState r.1 ids d).

(** Lines 91-126: the distances and predecessors. *)
Definition compute (g : Graph) (_from : Z) : outcome state :=
  s ← init g _from;
  main_loop (Z.to_nat (nbr_vertices g)) g s.

(** Lines 129-136.  The chain of predecessors is a function of the current
    vertex: once it has made more than [nbr_vertices] steps it has come back
    to a vertex it left and goes on for ever. *)
Fixpoint print_path (fuel : nat)
  (vertices_dist : list (option Vertex_Distance)) (_from i_current : Z)
  : outcome (list line) :=
  if i_current =? _from then Ok [Literal_n0]
  else match fuel with
       | O => Diverge
       | S fuel' =>
           vd ← rd_dist vertices_dist i_current;
           out ← print_path fuel' vertices_dist _from (from vd);
           Ok (Hop (i vd) (distance vd) :: out)
       end.

Definition print_dijkstra (g : Graph) (_from _to : Z) : outcome (list line) :=
  assert (_from <? nbr_vertices g);;
  assert (_to <? nbr_vertices g);;
  s ← compute g _from;
  print_path (S (Z.to_nat (nbr_vertices g))) (vertices_dist s) _from _to.

(** *** Notions used to state the properties of the algorithm *)

(** [n] iterations of the main loop. *)
Fixpoint steps (n : nat) (g : Graph) (s : state) : outcome state :=
  match n with
  | O => Ok s
  | S n' => s' ← step g s; steps n' g s'
  end.

(** The weight of the first edge from [u] to [v]. *)
Definition edge_weight (g : Graph) (u v : Z) : option Z :=
  es ← vertices g !! Z.to_nat u;
  e ← List.find (fun e : Edge => e.1 =? v) es;
  Some e.2.

(** The weight of a path given by its vertices. *)
Fixpoint path_weight (g : Graph) (p : list Z) : option Z :=
  match p with
  | u :: ((v :: _) as p') =>
      w ← edge_weight g u v; d ← path_weight g p'; Some (w + d)
  | _ => Some 0
  end.

(** The graph of the specification: 0->1 (4), 0->2 (1), 2->1 (1), 1->3 (1),
    2->3 (5). *)
Definition spec_graph : Graph :=
  mkGraph 4 [[(1, 4); (2, 1)]; [(3, 1)]; [(1, 1); (3, 5)]; []].

(** The same graph with an isolated vertex 4. *)
Definition isolated_graph : Graph :=
  mkGraph 5 [[(1, 4); (2, 1)]; [(3, 1)]; [(1, 1); (3, 5)]; []; []].

(** 0->1 (1), 0->2 (10), 0->3 (20), 1->4 (100), 1->3 (2), 3->2 (1). *)
Definition clash_graph : Graph :=
  mkGraph 5 [[(1, 1); (2, 10); (3, 20)]; [(4, 100); (3, 2)]; []; [(2, 1)];
             []].

(** [Vertex_Distance::update] (lines 66-70). *)
Definition update (vd : Vertex_Distance) (_distance _from : Z)
  : outcome Vertex_Distance :=
  assert (_distance <? distance vd);;
  Ok (mkVD (i vd) _distance _from).

(** The graph has an edge from [u] to [v] of weight [w]. *)
Definition has_edge (g : Graph) (u v w : Z) : Prop :=
  0 <= u /\ exists es, vertices g !! Z.to_nat u = Some es /\ (v, w) ∈ es.

(** [walk g src v d]: the edges of [g] lead from [src] to [v] with the total
    weight [d]. *)
Inductive walk (g : Graph) (src : Z) : Z -> Z -> Prop :=
| walk_start : walk g src src 0
| walk_edge (u v d w : Z) :
    walk g src u d -> has_edge g u v w -> walk g src v (d + w).

(** The record of vertex [v]: it names [v], its distance is the weight of a
    walk from the source, and its predecessor is the source itself (for the
    source) or the origin of an edge to [v]. *)
Definition record_ok (g : Graph) (src v : Z) (vd : Vertex_Distance) : Prop :=
  i vd = v /\ walk g src v (distance vd) /\
  ((v = src /\ from vd = src) \/ exists w, has_edge g (from vd) v w).

Definition table_ok (g : Graph) (src : Z)
  (vertices_dist : list (option Vertex_Distance)) : Prop :=
  forall v vd, 0 <= v -> vertices_dist !! Z.to_nat v = Some (Some vd) ->
               record_ok g src v vd.

(** The lines printed before the literal one, as pairs of a vertex and a
    distance, describe a path of [g] read from [cur] back to [src]. *)
Fixpoint real_path (g : Graph) (src cur : Z) (hops : list (Z * Z)) : Prop :=
  match hops with
  | [] => cur = src
  | (v, d) :: rest =>
      v = cur /\ v <> src /\ walk g src v d /\
      exists u w, has_edge g u v w /\ real_path g src u rest
  end.

Definition hop_line (h : Z * Z) : line := Hop h.1 h.2.

(** All the weights of [g] are non-negative. *)
Definition nonneg_weights (g : Graph) : Prop :=
  forall u v w, has_edge g u v w -> 0 <= w.

(** The source is not [id_undefined] and its record is the initial one. *)
Definition source_kept (src : Z) (s : state) : Prop :=
  (exists id, vertices_ids s !! Z.to_nat src = Some id /\
              id <> id_undefined) /\
  vertices_dist s !! Z.to_nat src = Some (Some (mkVD src 0 src)).

(** The number of vertices whose entry of [vertices_ids] is
    [id_undefined]. *)
Definition count_undefined (ids : list Z) : Z :=
  Z.of_nat (length (filter (fun x => x = id_undefined) ids)).

(** What the main loop has left to do: the vertices in the heap and those
    that may still be pushed. *)
Definition pending (s : state) : Z :=
  nb_elem (heap s) + count_undefined (vertices_ids s).

(** All the weights of [g] are positive. *)
Definition positive_weights (g : Graph) : Prop :=
  forall u v w, has_edge g u v w -> 0 < w.

(** [vertices_dist[v]] has been assigned, and holds the record [vd]. *)
Definition recorded (d : list (option Vertex_Distance)) (v : Z)
  (vd : Vertex_Distance) : Prop :=
  0 <= v /\ d !! Z.to_nat v = Some (Some vd).

(** The predecessor of every recorded vertex but the source is recorded,
    and the distance of the vertex is at least that of the predecessor plus
    the weight of an edge from the predecessor. *)
Definition closer_pred (g : Graph) (src : Z)
  (d : list (option Vertex_Distance)) : Prop :=
  forall v vd, recorded d v vd -> v <> src ->
    exists ud w, recorded d (from vd) ud /\ has_edge g (from vd) v w /\
                 distance ud + w <= distance vd.

(** A recorded vertex is not [id_undefined], every address in the array of
    the heap is that of a recorded vertex, and [vertices_dist] has
    [nbr_vertices] entries. *)
Definition queue_ok (g : Graph) (s : state) : Prop :=
  (forall v vd, recorded (vertices_dist s) v vd ->
     exists id, vertices_ids s !! Z.to_nat v = Some id /\
                id <> id_undefined) /\
  (forall k a id, elements (heap s) !! k = Some (Some a, id) ->
     exists vd, recorded (vertices_dist s) a vd) /\
  length (vertices_dist s) = Z.to_nat (nbr_vertices g).

(** The record of the vertex that [vd] was copied from is not above [vd]. *)
Definition copy_ok (d : list (option Vertex_Distance))
  (vd : Vertex_Distance) : Prop :=
  exists ud, recorded d (i vd) ud /\ distance ud <= distance vd.

(** The number of records whose distance is below [x]. *)
Definition count_below (d : list (option Vertex_Distance)) (x : Z) : nat :=
  length (List.filter
            (fun o : option Vertex_Distance =>
               match o with Some r => distance r <? x | None => false end)
            d).

(** The invariants of the main loop. *)
Definition tree_inv (g : Graph) (src : Z) (s : state) : Prop :=
  table_ok g src (vertices_dist s) /\ source_kept src s /\
  reach vd_lt vd_le (nbr_vertices g) (heap s) /\
  queue_ok g s /\ closer_pred g src (vertices_dist s).

(** The entry [id'] of [vertices_ids] comes after the entry [id] of the same
    vertex: an entry that is not [id_undefined] stays as it is until it
    becomes [id_treated]. *)
Definition status_after (id id' : Z) : Prop :=
  id = id_undefined \/ id' = id \/ id' = id_treated.

(** Every entry of [ids'] comes after the entry of [ids] for the same
    vertex. *)
Definition statuses_after (ids ids' : list Z) : Prop :=
  forall v id, 0 <= v -> ids !! Z.to_nat v = Some id ->
    exists id', ids' !! Z.to_nat v = Some id' /\ status_after id id'.

End Dijkstra.

(** ** The heap of [heap.hpp] *)
Module PlainHeap.

(** A cell of the array: [new Node[_capacity]] leaves the pointers
    indeterminate ([None]) until they are assigned. *)
Abbreviation cell := (option HeapId.ptr).

Record Heap : Type := mkPlain {
  capacity : Z;
  elements : list cell;
  nb_elem : Z
}.

Definition set_elements (h : Heap) (e : list cell) : Heap :=
  mkPlain (capacity h) e (nb_elem h).

Definition set_nb_elem (h : Heap) (n : Z) : Heap :=
  mkPlain (capacity h) (elements h) n.

Definition is_empty (h : Heap) : bool := nb_elem h =? 0.

(** The value of the pointer [elements[i]]. *)
Definition rd_ptr (a : list cell) (i : Z) : outcome HeapId.ptr :=
  c ← rd a i;
  match c with Some p => Ok p | None => Undef end.

Section Heap.

Context {Element : Type}.

(** [operator<] and [operator<=] of [Element]. *)
Variable elt_lt elt_le : Element -> Element -> bool.

(** The body that [lt] and [le] share. *)
Definition cmp_pos (op : Element -> Element -> bool)
  (m : HeapId.Mem) (h : Heap) (pos_1 pos_2 : Z) : outcome bool :=
  ASSERT_IN_RANGE pos_1 0 (u32 (capacity h - 1));;
  ASSERT_IN_RANGE pos_2 0 (u32 (capacity h - 1));;
  p1 ← rd_ptr (elements h) pos_1;
  e1 ← HeapId.deref m p1;
  p2 ← rd_ptr (elements h) pos_2;
  e2 ← HeapId.deref m p2;
  Ok (op e1 e2).

Definition lt : HeapId.Mem -> Heap -> Z -> Z -> outcome bool :=
  cmp_pos elt_lt.

Definition le : HeapId.Mem -> Heap -> Z -> Z -> outcome bool :=
  cmp_pos elt_le.

Definition get_pos_left_son (h : Heap) (i : Z) : outcome Z :=
  ASSERT_IN_RANGE i 0 (u32 (capacity h - 1));;
  Ok (u32 (2 * i + 1)).

Definition get_pos_right_son (h : Heap) (i : Z) : outcome Z :=
  ASSERT_IN_RANGE i 0 (u32 (capacity h - 1));;
  Ok (u32 (2 * i + 2)).

Definition get_pos_father (h : Heap) (i : Z) : outcome Z :=
  ASSERT_IN_RANGE i 0 (u32 (capacity h - 1));;
  let pos_father :=
    if i =? 0 then 0
    else uint_of_double (double_mul (double_of_uint (u32 (i - 1))) half) in
  ASSERT_IN_RANGE pos_father 0 (u32 (capacity h - 1));;
  Ok pos_father.

Definition swap (h : Heap) (pos_a pos_b : Z) : outcome Heap :=
  ASSERT_IN_RANGE pos_a 0 (u32 (capacity h - 1));;
  ASSERT_IN_RANGE pos_b 0 (u32 (capacity h - 1));;
  buffer ← rd_ptr (elements h) pos_a;
  b ← rd_ptr (elements h) pos_b;
  e1 ← wr (elements h) pos_a (Some b);
  e2 ← wr e1 pos_b (Some buffer);
  Ok (set_elements h e2).

(** The body of the [for] loop of [is_valid]. *)
Definition is_valid_body (m : HeapId.Mem) (h : Heap) (i : Z)
  : outcome (flow bool) :=
  r ← get_pos_right_son h i;
  c1 ← (if r <? nb_elem h
         then b ← le m h i r; Ok (if negb b then Return false else Next)
         else Ok Next);
  match c1 with
  | Return a => Ok (Return a)
  | Next =>
      l ← get_pos_left_son h i;
      if l <? nb_elem h
      then b ← le m h i l; Ok (if negb b then Return false else Next)
      else Ok Next
  end.

Definition is_valid (m : HeapId.Mem) (h : Heap) : outcome bool :=
  then_ (for_each (seqZ 0 (nb_elem h)) (is_valid_body m h)) (Ok true).

Definition assert_valid (m : HeapId.Mem) (h : Heap) : outcome unit :=
  b ← is_valid m h; assert b.

(** The [while] loop of [lower]; one unit of fuel per iteration. *)
Fixpoint lower_loop (fuel : nat) (m : HeapId.Mem) (h : Heap)
  (pos pos_left_son pos_right_son : Z) : outcome Heap :=
  match fuel with
  | O => Diverge
  | S fuel' =>
      c1 ← (if pos_left_son <? nb_elem h
             then lt m h pos_left_son pos else Ok false);
      c ← (if (c1 : bool) then Ok true
            else if pos_right_son <? nb_elem h
                 then lt m h pos_right_son pos else Ok false);
      if (c : bool) then
        c2 ← (if pos_right_son <? nb_elem h
               then lt m h pos_right_son pos_left_son else Ok false);
        let pos_to_swap_with :=
          if (c2 : bool) then pos_right_son else pos_left_son in
        h' ← swap h pos pos_to_swap_with;
        let pos := pos_to_swap_with in
        l ← get_pos_left_son h' pos;
        r ← get_pos_right_son h' pos;
        lower_loop fuel' m h' pos l r
      else Ok h
  end.

Definition lower (m : HeapId.Mem) (h : Heap) (pos : Z) : outcome Heap :=
  ASSERT_IN_RANGE pos 0 (u32 (capacity h - 1));;
  l ← get_pos_left_son h pos;
  r ← get_pos_right_son h pos;
  h' ← lower_loop (S (Z.to_nat (nb_elem h))) m h pos l r;
  assert_valid m h' ;;
  Ok h'.

(** The [while] loop of [raise]; [pos_father >= 0] holds for every
    [unsigned int]. *)
Fixpoint raise_loop (fuel : nat) (m : HeapId.Mem) (h : Heap)
  (pos pos_father : Z) : outcome Heap :=
  match fuel with
  | O => Diverge
  | S fuel' =>
      c ← (if 0 <=? pos_father then lt m h pos pos_father else Ok false);
      if (c : bool) then
        h' ← swap h pos pos_father;
        let pos := pos_father in
        f ← get_pos_father h' pos;
        raise_loop fuel' m h' pos f
      else Ok h
  end.

Definition raise (m : HeapId.Mem) (h : Heap) (pos : Z) : outcome Heap :=
  ASSERT_IN_RANGE pos 0 (u32 (capacity h - 1));;
  f ← get_pos_father h pos;
  h' ← raise_loop (S (Z.to_nat pos)) m h pos f;
  assert_valid m h' ;;
  Ok h'.

(** The constructor. *)
Definition Heap_new (m : HeapId.Mem) (_capacity : Z) : outcome Heap :=
  let h := mkPlain _capacity (replicate (Z.to_nat _capacity) None) 0 in
  assert_valid m h;;
  Ok h.

(** [push(v)]: [v] is the address of the element. *)
Definition push (m : HeapId.Mem) (h : Heap) (v : Z) : outcome Heap :=
  assert_valid m h;;
  assert (nb_elem h <? capacity h);;
  e ← wr (elements h) (nb_elem h) (Some (Some v));
  let h1 := set_nb_elem (set_elements h e) (u32 (nb_elem h + 1)) in
  h2 ← raise m h1 (u32 (nb_elem h1 - 1));
  assert_valid m h2 ;;
  Ok h2.

(** [pop()]: the result is the address the returned reference is bound to;
    the reference is bound before the array is changed. *)
Definition pop (m : HeapId.Mem) (h : Heap) : outcome (Heap * Z) :=
  assert_valid m h;;
  p ← rd_ptr (elements h) 0;
  popped_element ← (match p with Some a => Ok a | None => Undef end);
  last ← rd_ptr (elements h) (u32 (nb_elem h - 1));
  e1 ← wr (elements h) 0 (Some last);
  e2 ← wr e1 (u32 (nb_elem h - 1)) (Some None);
  let h1 := set_nb_elem (set_elements h e2) (u32 (nb_elem h - 1)) in
  h2 ← lower m h1 0;
  assert_valid m h2 ;;
  Ok (h2, popped_element).

End Heap.

(** *** Notions used to state the properties of the heap *)

Section HeapSpec.

Context {Element : Type}.

Variable elt_lt elt_le : Element -> Element -> bool.

(** [n] pushes, one per address of [vs], in the order of [vs]. *)
Fixpoint push_all (m : HeapId.Mem) (h : Heap) (vs : list Z) : outcome Heap :=
  match vs with
  | [] => Ok h
  | v :: vs' => h' ← push elt_lt elt_le m h v; push_all m h' vs'
  end.

(** [n] pops; the addresses popped, first popped first. *)
Fixpoint pop_n (m : HeapId.Mem) (h : Heap) (n : nat)
  : outcome (Heap * list Z) :=
  match n with
  | O => Ok (h, [])
  | S n' =>
      r ← pop elt_lt elt_le m h;
      r' ← pop_n m r.1 n';
      Ok (r'.1, r.2 :: r'.2)
  end.

(** The element the pointer at position [k] refers to. *)
Definition key_at (m : HeapId.Mem (Element := Element)) (h : Heap) (k : Z)
  : option Element :=
  c ← elements h !! Z.to_nat k; p ← c; a ← p; m a.

(** The key at position [i] is less than or equal to the key at [j]. *)
Definition le_at (m : HeapId.Mem) (h : Heap) (i j : Z) : Prop :=
  exists x y, key_at m h i = Some x /\ key_at m h j = Some y /\
              elt_le x y = true.

(** Every position is above its father. *)
Definition ordered (m : HeapId.Mem) (h : Heap) : Prop :=
  forall k, 0 < k < nb_elem h -> le_at m h ((k - 1) / 2) k.

(** The addresses held by the heap, by position. *)
Definition ptrs (h : Heap) : list Z :=
  omap (fun c : cell => p ← c; p) (take (Z.to_nat (nb_elem h)) (elements h)).

(** The array has [capacity] cells, and every position below [nb_elem]
    holds the address of an element. *)
Record wf (m : HeapId.Mem (Element := Element)) (h : Heap) : Prop := mkWf {
  wf_cap : 0 <= capacity h < UINT_MOD;
  wf_nb : 0 <= nb_elem h <= capacity h;
  wf_elements : Z.of_nat (length (elements h)) = capacity h;
  wf_cells : forall k, 0 <= k < nb_elem h ->
    exists a e, elements h !! Z.to_nat k = Some (Some (Some a)) /\
                m a = Some e
}.

End HeapSpec.

(** [hp] is [hi] without the ids: the same capacity, the same number of
    elements and, at every position below it, the same pointer. *)
Definition erases (hp : Heap) (hi : HeapId.Heap_Id) : Prop :=
  capacity hp = HeapId.capacity hi /\ nb_elem hp = HeapId.nb_elem hi /\
  length (elements hp) = length (HeapId.elements hi) /\
  forall k n, 0 <= k < nb_elem hp ->
    HeapId.elements hi !! Z.to_nat k = Some n ->
    elements hp !! Z.to_nat k = Some (Some n.1).

(** An indexed heap that [h] erases: the node at position [k] has the id
    [k]. *)
Definition with_ids (h : Heap) : HeapId.Heap_Id :=
  HeapId.mkHeap (capacity h)
    (imap (fun (k : nat) (c : cell) => (default None c, Z.of_nat k))
          (elements h))
    (nb_elem h)
    (replicate (Z.to_nat (capacity h)) None)
    (seqZ 0 (capacity h)).

(** A heap of capacity 3 that holds the addresses 0 and 1. *)
Definition plain_two : Heap := mkPlain 3 [Some (Some 0); Some (Some 1); None] 2.

End PlainHeap.

(** * Properties *)

Import HeapId Dijkstra.

(** Linear arithmetic with divisions by constants. *)
Ltac zlia := Z.to_euclidean_division_equations; lia.

(** ** Outcomes *)

Lemma bind_Ok {A B} (x : outcome A) (k : A -> outcome B) (a : A) :
  x = Ok a -> (x ≫= k) = k a.
Proof. intros ->. reflexivity. Qed.

Lemma assert_true (b : bool) : b = true -> assert b = Ok tt.
Proof. intros ->. reflexivity. Qed.

Lemma ASSERT_IN_RANGE_ok (value min max : Z) :
  min <= value <= max -> ASSERT_IN_RANGE value min max = Ok tt.
Proof.
  intros [Hmin Hmax]. unfold ASSERT_IN_RANGE.
  rewrite (assert_true (min <=? value)) by (apply Z.leb_le; lia).
  cbn. apply assert_true, Z.leb_le. lia.
Qed.

Lemma ASSERT_IN_RANGE_above (value min max : Z) :
  max < value -> ASSERT_IN_RANGE value min max = Abort.
Proof.
  intros Hlt. unfold ASSERT_IN_RANGE, assert.
  destruct (min <=? value); cbn; [|reflexivity].
  destruct (Z.leb_spec value max); [lia | reflexivity].
Qed.

Lemma u32_small (z : Z) : 0 <= z < UINT_MOD -> u32 z = z.
Proof. intros Hz. unfold u32. apply Z.mod_small. exact Hz. Qed.

Lemma UINT_MOD_eq : UINT_MOD = 4294967296.
Proof. reflexivity. Qed.

(** ** Arrays *)

Lemma rd_ok {A} (a : list A) (i : Z) (x : A) :
  0 <= i -> a !! Z.to_nat i = Some x -> rd a i = Ok x.
Proof.
  intros Hi Hx. unfold rd.
  pose proof (lookup_lt_Some _ _ _ Hx) as Hlen.
  destruct (Z.leb_spec 0 i); [|lia].
  destruct (Z.ltb_spec i (Z.of_nat (length a))); [|lia].
  cbn. rewrite Hx. reflexivity.
Qed.

Lemma wr_ok {A} (a : list A) (i : Z) (x : A) :
  0 <= i < Z.of_nat (length a) -> wr a i x = Ok (<[Z.to_nat i := x]> a).
Proof.
  intros Hi. unfold wr.
  destruct (Z.leb_spec 0 i); [|lia].
  destruct (Z.ltb_spec i (Z.of_nat (length a))); [|lia].
  reflexivity.
Qed.

Lemma bind_rd {A B} (a : list A) (i : Z) (x : A) (k : A -> outcome B) :
  0 <= i -> a !! Z.to_nat i = Some x -> (rd a i ≫= k) = k x.
Proof. intros Hi Hx. rewrite (rd_ok a i x Hi Hx). reflexivity. Qed.

Lemma bind_wr {A B} (a : list A) (i : Z) (x : A) (k : list A -> outcome B) :
  0 <= i < Z.of_nat (length a) ->
  (wr a i x ≫= k) = k (<[Z.to_nat i := x]> a).
Proof. intros Hi. rewrite (wr_ok a i x Hi). reflexivity. Qed.

Lemma bind_in_range {B} (value min max : Z) (k : unit -> outcome B) :
  min <= value <= max -> (ASSERT_IN_RANGE value min max ≫= k) = k tt.
Proof. intros H. rewrite (ASSERT_IN_RANGE_ok _ _ _ H). reflexivity. Qed.

Lemma Ok_bind {A B} (a : A) (k : A -> outcome B) : (Ok a ≫= k) = k a.
Proof. reflexivity. Qed.

(** ** Positions of the relatives *)

(** The floating-point computation [(i - 1) * 0.5] of [get_pos_father],
    converted back to [unsigned int], is the integer division by two. *)
Lemma father_by_halving (z : Z) :
  0 <= z < UINT_MOD ->
  uint_of_double (double_mul (double_of_uint z) half) = z / 2.
Proof.
  intros Hz. unfold uint_of_double, double_mul, double_of_uint, half. cbn.
  rewrite Z.mul_1_r, Z.quot_div_nonneg by lia.
  apply u32_small. rewrite UINT_MOD_eq in *.
  split; [apply Z.div_pos; lia|].
  apply Z.div_lt_upper_bound; lia.
Qed.

Lemma transpose_l (a b : Z) : transpose a b a = b.
Proof. unfold transpose. rewrite Z.eqb_refl. reflexivity. Qed.

Lemma transpose_r (a b : Z) : transpose a b b = a.
Proof.
  unfold transpose. destruct (Z.eqb_spec b a); [congruence|].
  rewrite Z.eqb_refl. reflexivity.
Qed.

Lemma transpose_other (a b k : Z) : k <> a -> k <> b -> transpose a b k = k.
Proof.
  intros Ha Hb. unfold transpose.
  destruct (Z.eqb_spec k a); [congruence|].
  destruct (Z.eqb_spec k b); [congruence|]. reflexivity.
Qed.

Lemma get_pos_father_ok (h : Heap_Id) (i : Z) :
  0 <= i < UINT_MOD -> i <= u32 (capacity h - 1) ->
  get_pos_father h i = Ok (if i =? 0 then 0 else (i - 1) / 2).
Proof.
  intros Hi Hleg. unfold get_pos_father.
  rewrite bind_in_range by lia.
  destruct (Z.eqb_spec i 0) as [->|Hne].
  - rewrite bind_in_range by lia. reflexivity.
  - rewrite (u32_small (i - 1)) by lia.
    rewrite father_by_halving by lia.
    rewrite bind_in_range by zlia. reflexivity.
Qed.

Lemma get_pos_left_son_ok (h : Heap_Id) (i : Z) :
  0 <= i -> i <= u32 (capacity h - 1) -> 2 * i + 2 < UINT_MOD ->
  get_pos_left_son h i = Ok (2 * i + 1).
Proof.
  intros Hi Hleg Hsmall. unfold get_pos_left_son.
  rewrite bind_in_range by lia. rewrite u32_small by lia. reflexivity.
Qed.

Lemma get_pos_right_son_ok (h : Heap_Id) (i : Z) :
  0 <= i -> i <= u32 (capacity h - 1) -> 2 * i + 2 < UINT_MOD ->
  get_pos_right_son h i = Ok (2 * i + 2).
Proof.
  intros Hi Hleg Hsmall. unfold get_pos_right_son.
  rewrite bind_in_range by lia. rewrite u32_small by lia. reflexivity.
Qed.

(** C9, as the code has it: for every legal position [i] (an [unsigned int]
    that passes [ASSERT_IN_RANGE(i, 0, capacity - 1)]), [get_pos_father]
    returns [floor((i - 1) / 2)] for [i > 0] and [0] for the root, although
    it is computed in floating point; the left and right sons are [2i + 1]
    and [2i + 2] reduced modulo [2^32], that is [2i + 1] and [2i + 2]
    themselves as long as [2i + 2 < 2^32]. *)
Theorem positions_of_relatives (h : Heap_Id) (i : Z) :
  0 <= i < UINT_MOD -> i <= u32 (capacity h - 1) ->
  get_pos_father h i = Ok (if i =? 0 then 0 else (i - 1) / 2) /\
  get_pos_left_son h i = Ok ((2 * i + 1) mod 2 ^ 32) /\
  get_pos_right_son h i = Ok ((2 * i + 2) mod 2 ^ 32) /\
  (2 * i + 2 < 2 ^ 32 ->
   get_pos_left_son h i = Ok (2 * i + 1) /\
   get_pos_right_son h i = Ok (2 * i + 2)).
Proof.
  intros Hi Hleg.
  assert (Hin : ASSERT_IN_RANGE i 0 (u32 (capacity h - 1)) = Ok tt)
    by (apply ASSERT_IN_RANGE_ok; lia).
  unfold get_pos_father, get_pos_left_son, get_pos_right_son.
  rewrite !(bind_Ok _ _ _ Hin).
  split; [|split; [reflexivity|split; [reflexivity|]]].
  - destruct (Z.eqb_spec i 0) as [->|Hne].
    + rewrite (bind_Ok _ _ tt); [reflexivity|].
      apply ASSERT_IN_RANGE_ok. lia.
    + rewrite (u32_small (i - 1)) by lia.
      rewrite father_by_halving by lia.
      rewrite (bind_Ok _ _ tt); [reflexivity|].
      apply ASSERT_IN_RANGE_ok.
      assert ((i - 1) / 2 <= i - 1) by (apply Z.div_le_upper_bound; lia).
      split; [apply Z.div_pos; lia | lia].
  - intros Hsmall. unfold u32. rewrite UINT_MOD_eq in *.
    rewrite !Z.mod_small by lia. split; reflexivity.
Qed.

Lemma positions_of_relatives_witness :
  get_pos_father (Heap_Id_new 8) 5 = Ok 2 /\
  get_pos_left_son (Heap_Id_new 8) 5 = Ok 11 /\
  get_pos_right_son (Heap_Id_new 8) 5 = Ok 12.
Proof.
  destruct (positions_of_relatives (Heap_Id_new 8) 5) as (Hf & _ & _ & Hs).
  - rewrite UINT_MOD_eq. lia.
  - vm_compute. discriminate.
  - destruct Hs as [Hl Hr]; [lia|].
    split; [exact Hf | split; [exact Hl | exact Hr]].
Defined.

(** C9, as stated, fails where [2i + 1] does not fit in an [unsigned int]:
    in a heap of capacity [2^32 - 1] the position [2^31] is legal and its
    left son is computed as [1]. *)
Lemma left_son_wraps :
  ASSERT_IN_RANGE (2 ^ 31) 0 (u32 (capacity (Heap_Id_new (2 ^ 32 - 1)) - 1))
    = Ok tt /\
  get_pos_left_son (Heap_Id_new (2 ^ 32 - 1)) (2 ^ 31) = Ok 1 /\
  get_pos_left_son (Heap_Id_new (2 ^ 32 - 1)) (2 ^ 31)
    <> Ok (2 * 2 ^ 31 + 1).
Proof.
  unfold get_pos_left_son. cbn [capacity Heap_Id_new].
  split; [reflexivity|]. split; [reflexivity|]. discriminate.
Qed.

(** ** The validity check *)

(** C10: [is_valid] returns [true] in every state of the heap, so that no
    [assert(is_valid())] can fail; this includes a state where the loop that
    follows the [return true] would have answered [false] and where
    [id_to_pos] does not match the nodes. *)
Theorem is_valid_always_true :
  (forall (Element : Type) (elt_le : Element -> Element -> bool)
          (m : Mem) (h : Heap_Id),
      is_valid elt_le m h = Ok true /\ assert_valid elt_le m h = Ok tt) /\
  is_valid_scan Z.leb (mem_list [1; 5; 0; 9]) bad_heap = Ok false /\
  is_valid Z.leb (mem_list [1; 5; 0; 9]) bad_heap = Ok true /\
  elements bad_heap !! 1%nat = Some (Some 2, 2) /\
  id_to_pos bad_heap !! 2%nat = Some (Some 2).
Proof.
  split; [|repeat split; reflexivity].
  intros Element elt_le m h. split; reflexivity.
Qed.

Lemma assert_valid_ok {Element : Type} (elt_le : Element -> Element -> bool)
  (m : Mem) (h : Heap_Id) : assert_valid elt_le m h = Ok tt.
Proof. reflexivity. Qed.

(** ** Contract violations *)

Section Contract.

Context {Element : Type}.

Variable elt_lt elt_le : Element -> Element -> bool.

(** C7, as the code has it: [push] on a heap that holds [capacity] elements
    and [pop] on an empty heap of capacity at least one stop on a failed
    assertion ([nb_elem < capacity] in [push], the range check of [swap] on
    position [nb_elem - 1] in [pop]). *)
Theorem push_full_pop_empty_abort (m : Mem) (h : Heap_Id) (v : Z) :
  (capacity h <= nb_elem h -> push elt_lt elt_le m h v = Abort) /\
  (nb_elem h = 0 -> 1 <= capacity h < UINT_MOD ->
   pop elt_lt elt_le m h = Abort).
Proof.
  split.
  - intros Hfull. unfold push.
    rewrite (bind_Ok _ _ tt) by apply assert_valid_ok.
    destruct (Z.ltb_spec (nb_elem h) (capacity h)); [lia | reflexivity].
  - intros Hempty Hcap. unfold pop.
    rewrite (bind_Ok _ _ tt) by apply assert_valid_ok.
    unfold swap. rewrite Hempty.
    rewrite (u32_small (capacity h - 1)) by lia.
    rewrite (bind_Ok _ _ tt) by (apply ASSERT_IN_RANGE_ok; lia).
    rewrite ASSERT_IN_RANGE_above; [reflexivity|].
    rewrite UINT_MOD_eq in Hcap. change (u32 (0 - 1)) with 4294967295. lia.
Qed.

End Contract.

Lemma push_full_pop_empty_abort_witness :
  pushZ (mem_list [1; 5; 0; 9]) bad_heap 3 = Abort /\
  popZ (mem_list []) (Heap_Id_new 3) = Abort.
Proof.
  split.
  - apply (push_full_pop_empty_abort Z.ltb Z.leb). cbn. lia.
  - apply (push_full_pop_empty_abort Z.ltb Z.leb (mem_list []) _ 0).
    + reflexivity.
    + cbn. rewrite UINT_MOD_eq. lia.
Defined.

(** C7, as stated, fails for [reposition], which checks nothing: called with
    the handle of the element that was just popped (address 1, handle 1) it
    returns normally, and the popped element has replaced the element at the
    root (address 0) of a heap that still holds one element.  It also fails
    for [pop] on the empty heap of capacity 0: [capacity - 1] wraps to
    [2^32 - 1], the range checks of [swap] pass, and [elements[0]] is read
    outside the array. *)
Lemma unchecked_contract_violations :
  (exists h h',
      run_stale = Ok (1, 1, h, h') /\
      nb_elem h = 1 /\ ptrs h = [0] /\
      nb_elem h' = 1 /\ ptrs h' = [1]) /\
  popZ (mem_list []) (Heap_Id_new 0) = Undef.
Proof.
  split; [|vm_compute; reflexivity].
  eexists _, _. split; [vm_compute; reflexivity|].
  repeat split; reflexivity.
Qed.

(** ** Handles *)

(** C3 fails on the code: in a heap of capacity 3, the third [push] returns
    the handle 2 for the element at address 2; after one [pop] (of address
    0), the next [push] returns the handle 2 again, while the element at
    address 2 is still in the heap (position 1), and [id_to_pos[2]] is the
    position of the new element (address 3, position 2). *)
Theorem handle_returned_twice :
  exists h,
    run_clash = Ok (0, 1, 2, 0, 2, h) /\
    nb_elem h = 3 /\
    elements h = [(Some 1, 1); (Some 2, 2); (Some 3, 2)] /\
    id_to_pos h !! 2%nat = Some (Some 2).
Proof.
  eexists. split; [vm_compute; reflexivity|].
  repeat split; reflexivity.
Qed.

(** C2 fails on the code: after the run above, the key of the element at
    address 2 is lowered from 7 to 0 and [reposition] is called with the
    handle [push] returned for it; the heap is left with the key 5 at the
    root and the key 0 at its left son. *)
Theorem order_broken_after_reposition :
  exists h,
    run_clash_reposition = Ok h /\
    nb_elem h = 3 /\
    key_at (mem_list [1; 5; 0; 9]) h 0 = Some 5 /\
    key_at (mem_list [1; 5; 0; 9]) h 1 = Some 0 /\
    ~ heap_invariant Z.leb (mem_list [1; 5; 0; 9]) h.
Proof.
  eexists. split; [vm_compute; reflexivity|].
  repeat split; try reflexivity.
  intros Hinv.
  destruct (Hinv 0 1) as (x & y & Hx & Hy & Hle); try (cbn; lia).
  vm_compute in Hx, Hy. by simplify_eq.
Qed.

(** ** The order of the heap *)

Section HeapFacts.

Context {Element : Type}.
Variable elt_lt elt_le : Element -> Element -> bool.
Variable m : Mem (Element := Element).


Lemma wf_key (h : Heap_Id) (k : Z) :
  wf m h -> 0 <= k < nb_elem h -> exists e, key_at m h k = Some e.
Proof.
  intros Hwf Hk. destruct (wf_nodes _ _ Hwf k Hk) as (a & e & id & Hn & Ha & _).
  exists e. unfold HeapId.key_at. rewrite Hn. cbn. exact Ha.
Qed.

Lemma cmp_pos_spec (op : Element -> Element -> bool) (h : Heap_Id)
  (i j : Z) (x y : Element) :
  wf m h -> 0 <= i < nb_elem h -> 0 <= j < nb_elem h ->
  key_at m h i = Some x -> key_at m h j = Some y ->
  cmp_pos op m h i j = Ok (op x y).
Proof.
  intros Hwf Hi Hj Hx Hy.
  pose proof (wf_cap _ _ Hwf) as Hcap. pose proof (wf_nb _ _ Hwf) as Hnb.
  destruct (wf_nodes _ _ Hwf i Hi) as (a & e & id & Hn & Ha & _).
  destruct (wf_nodes _ _ Hwf j Hj) as (a' & e' & id' & Hn' & Ha' & _).
  unfold HeapId.key_at in Hx, Hy. rewrite Hn in Hx. rewrite Hn' in Hy.
  cbn in Hx, Hy. 
  unfold cmp_pos. rewrite (u32_small (capacity h - 1)) by lia.
  rewrite !bind_in_range by lia.
  rewrite (bind_rd _ _ _ _ (proj1 Hi) Hn). cbn [fst deref].
  rewrite Hx. cbn.
  rewrite (bind_rd _ _ _ _ (proj1 Hj) Hn'). cbn [fst deref].
  rewrite Hy. reflexivity.
Qed.



Lemma swap_spec (h : Heap_Id) (a b : Z) :
  wf m h -> 0 <= a < nb_elem h -> 0 <= b < nb_elem h ->
  exists h' na nb,
    swap h a b = Ok h' /\
    elements h !! Z.to_nat a = Some na /\
    elements h !! Z.to_nat b = Some nb /\
    elements h' = <[Z.to_nat b := na]> (<[Z.to_nat a := nb]> (elements h)) /\
    capacity h' = capacity h /\ nb_elem h' = nb_elem h /\
    id_free h' = id_free h /\
    length (id_to_pos h') = length (id_to_pos h).
Proof.
  intros Hwf Ha Hb.
  pose proof (wf_cap _ _ Hwf) as Hcap. pose proof (wf_nb _ _ Hwf) as Hnb.
  pose proof (wf_elements _ _ Hwf) as Hle.
  pose proof (wf_id_to_pos _ _ Hwf) as Hlt.
  destruct (wf_nodes _ _ Hwf a Ha) as (pa & ea & ida & Hna & _ & Hida).
  destruct (wf_nodes _ _ Hwf b Hb) as (pb & eb & idb & Hnb' & _ & Hidb).
  unfold swap. rewrite (u32_small (capacity h - 1)) by lia.
  rewrite !bind_in_range by lia.
  rewrite (bind_rd _ _ _ _ (proj1 Ha) Hna). cbn [snd].
  rewrite bind_wr by lia.
  rewrite (bind_rd _ _ _ _ (proj1 Hb) Hnb'). cbn [snd].
  rewrite bind_wr by (rewrite length_insert; lia).
  rewrite bind_wr by lia.
  rewrite bind_wr by (rewrite length_insert; lia).
  eexists _, _, _. split; [reflexivity|].
  split; [exact Hna|]. split; [exact Hnb'|].
  cbn. rewrite !length_insert. repeat split; reflexivity.
Qed.

Lemma lookup_swapped {A} (l : list A) (a b k : Z) (x y : A) :
  0 <= a -> 0 <= b -> 0 <= k ->
  l !! Z.to_nat a = Some x -> l !! Z.to_nat b = Some y ->
  <[Z.to_nat b := x]> (<[Z.to_nat a := y]> l) !! Z.to_nat k
  = l !! Z.to_nat (transpose a b k).
Proof.
  intros Ha Hb Hk Hx Hy. unfold transpose.
  pose proof (lookup_lt_Some _ _ _ Hx). pose proof (lookup_lt_Some _ _ _ Hy).
  destruct (Z.eqb_spec k b) as [->|Hkb].
  - rewrite list_lookup_insert_eq by (rewrite length_insert; lia).
    destruct (Z.eqb_spec b a) as [->|Hba]; congruence.
  - rewrite list_lookup_insert_ne by lia.
    destruct (Z.eqb_spec k a) as [->|Hka].
    + rewrite list_lookup_insert_eq by lia. congruence.
    + rewrite list_lookup_insert_ne by lia. reflexivity.
Qed.


Lemma transpose_range (a b k n : Z) :
  0 <= a < n -> 0 <= b < n -> 0 <= k < n -> 0 <= transpose a b k < n.
Proof. unfold transpose. intros. repeat case_match; lia. Qed.

Lemma swap_ok (h : Heap_Id) (a b : Z) :
  wf m h -> 0 <= a < nb_elem h -> 0 <= b < nb_elem h ->
  exists h',
    swap h a b = Ok h' /\ wf m h' /\
    capacity h' = capacity h /\ nb_elem h' = nb_elem h /\
    (forall k, 0 <= k ->
       elements h' !! Z.to_nat k = elements h !! Z.to_nat (transpose a b k)) /\
    ptrs h' ≡ₚ ptrs h.
Proof.
  intros Hwf Ha Hb.
  destruct (swap_spec h a b Hwf Ha Hb)
    as (h' & na & nb & Hs & Hna & Hnb & He & Hc & Hn & Hf & Hl).
  assert (Hlook : forall k, 0 <= k ->
    elements h' !! Z.to_nat k = elements h !! Z.to_nat (transpose a b k)).
  { intros k Hk. rewrite He. apply lookup_swapped; auto; lia. }
  exists h'. split; [exact Hs|]. split; [|split; [exact Hc|split; [exact Hn|]]].
  - destruct Hwf as [H1 H2 H3 H4 H5 H6]. split.
    + rewrite Hc. exact H1.
    + rewrite Hc, Hn. exact H2.
    + rewrite He, !length_insert, Hc. exact H3.
    + rewrite Hl, Hc. exact H4.
    + rewrite Hf, Hc. exact H5.
    + intros k Hk. rewrite Hn in Hk. rewrite Hlook, Hc by lia.
      apply H6. apply transpose_range; assumption.
  - split; [exact Hlook|].
    unfold ptrs. rewrite Hn, He.
    rewrite !take_insert_lt by lia.
    apply omap_Permutation. apply Permutation_insert_swap.
    + rewrite lookup_take_lt by lia. exact Hna.
    + rewrite lookup_take_lt by lia. exact Hnb.
Qed.

Lemma key_at_lookup (h h' : Heap_Id) (k k' : Z) :
  elements h' !! Z.to_nat k = elements h !! Z.to_nat k' ->
  key_at m h' k = key_at m h k'.
Proof. intros H. unfold key_at. rewrite H. reflexivity. Qed.


Lemma raise_stays (h : Heap_Id) (pos : Z) (x y : Element) :
  wf m h -> 0 <= pos < nb_elem h ->
  key_at m h pos = Some x ->
  key_at m h (if pos =? 0 then 0 else (pos - 1) / 2) = Some y ->
  elt_lt x y = false ->
  raise elt_lt elt_le m h pos = Ok h.
Proof.
  intros Hwf Hpos Hx Hy Hlt.
  pose proof (wf_cap _ _ Hwf) as Hcap. pose proof (wf_nb _ _ Hwf) as Hnb.
  unfold raise. rewrite bind_in_range by (rewrite u32_small; lia).
  rewrite (bind_Ok _ _ _ (get_pos_father_ok h pos ltac:(lia)
                            ltac:(rewrite u32_small; lia))).
  set (f := if pos =? 0 then 0 else (pos - 1) / 2) in *.
  assert (Hf : 0 <= f < nb_elem h)
    by (subst f; destruct (Z.eqb_spec pos 0); zlia).
  cbn [raise_loop]. destruct (Z.leb_spec 0 f); [|lia].
  unfold lt. rewrite (cmp_pos_spec _ h pos f x y) by tauto.
  rewrite Hlt. reflexivity.
Qed.

Lemma position_ptrs (h : Heap_Id) (k a id : Z) :
  0 <= k < nb_elem h -> elements h !! Z.to_nat k = Some (Some a, id) ->
  a ∈ ptrs h.
Proof.
  intros Hk Ha. unfold ptrs. apply list_elem_of_omap.
  exists (Some a, id). split; [|reflexivity].
  apply list_elem_of_lookup. exists (Z.to_nat k).
  apply lookup_take_Some. split; [exact Ha | lia].
Qed.

Lemma push_all_app (vs ws : list Z) : forall h : Heap_Id,
  push_all elt_lt elt_le m h (vs ++ ws)
  = (push_all elt_lt elt_le m h vs ≫= fun h' =>
       push_all elt_lt elt_le m h' ws).
Proof.
  induction vs as [|v vs IH]; intros h; [reflexivity|].
  cbn [push_all app]. destruct (push elt_lt elt_le m h v) as [r| | |];
    [apply IH | reflexivity..].
Qed.

Hypothesis elt_le_total : forall x y, elt_le x y = true \/ elt_le y x = true.
Hypothesis elt_le_trans : forall x y z,
  elt_le x y = true -> elt_le y z = true -> elt_le x z = true.
Hypothesis elt_lt_le : forall x y, elt_lt x y = negb (elt_le y x).

Lemma elt_le_refl (x : Element) : elt_le x x = true.
Proof. destruct (elt_le_total x x); assumption. Qed.

Lemma elt_lt_true_le (x y : Element) : elt_lt x y = true -> elt_le x y = true.
Proof.
  rewrite elt_lt_le. intros H. destruct (elt_le_total x y) as [|Hyx]; [assumption|].
  rewrite Hyx in H. discriminate.
Qed.

Lemma elt_lt_false_le (x y : Element) : elt_lt x y = false -> elt_le y x = true.
Proof. rewrite elt_lt_le. destruct (elt_le y x); [reflexivity | discriminate]. Qed.

Lemma le_at_intro (h : Heap_Id) (i j : Z) (x y : Element) :
  key_at m h i = Some x -> key_at m h j = Some y -> elt_le x y = true ->
  le_at elt_le m h i j.
Proof. intros. exists x, y. auto. Qed.

Lemma le_at_elim (h : Heap_Id) (i j : Z) (x y : Element) :
  le_at elt_le m h i j ->
  key_at m h i = Some x -> key_at m h j = Some y -> elt_le x y = true.
Proof. intros (x' & y' & Hx & Hy & Hle) Hx' Hy'. congruence. Qed.

Lemma raise_loop_ok (fuel : nat) : forall (h : Heap_Id) (pos : Z),
  wf m h -> 0 <= pos < nb_elem h -> raise_inv elt_le m h pos ->
  (Z.to_nat pos < fuel)%nat ->
  exists h',
    raise_loop elt_lt fuel m h pos (if pos =? 0 then 0 else (pos - 1) / 2)
      = Ok h' /\
    wf m h' /\ capacity h' = capacity h /\ nb_elem h' = nb_elem h /\
    ptrs h' ≡ₚ ptrs h /\ ordered elt_le m h'.
Proof.
  induction fuel as [|fuel IH]; intros h pos Hwf Hpos [Hinv1 Hinv2] Hfuel;
    [lia|].
  pose proof (wf_cap _ _ Hwf) as Hcap. pose proof (wf_nb _ _ Hwf) as Hnb.
  set (f := if pos =? 0 then 0 else (pos - 1) / 2).
  assert (Hf : 0 <= f < nb_elem h /\ f <= pos)
    by (subst f; destruct (Z.eqb_spec pos 0); zlia).
  destruct (wf_key h pos Hwf Hpos) as [x Hx].
  destruct (wf_key h f Hwf (proj1 Hf)) as [y Hy].
  cbn [raise_loop].
  destruct (Z.leb_spec 0 f); [|lia].
  unfold lt. rewrite (cmp_pos_spec _ h pos f x y) by tauto. cbn.
  destruct (elt_lt x y) eqn:Hlt.
  - (* the node goes up *)
    assert (Hpos0 : pos <> 0).
    { intros ->. subst f. cbn in Hy. rewrite Hx in Hy. simplify_eq.
      rewrite elt_lt_le, elt_le_refl in Hlt. discriminate. }
    assert (Hfeq : f = (pos - 1) / 2)
      by (subst f; destruct (Z.eqb_spec pos 0); [lia | reflexivity]).
    clearbody f. subst f. set (f := (pos - 1) / 2) in *.
    assert (Hfpos : f < pos) by (subst f; zlia).
    destruct (swap_ok h pos f Hwf Hpos (proj1 Hf))
      as (h' & Hs & Hwf' & Hc' & Hn' & Hlook & Hperm).
    rewrite Hs. cbn.
    rewrite get_pos_father_ok
      by (rewrite ?Hc', ?u32_small by lia; lia).
    cbn.
    assert (HK : forall k, 0 <= k ->
              key_at m h' k = key_at m h (transpose pos f k))
      by (intros k Hk; apply key_at_lookup, Hlook, Hk).
    assert (Hxy : elt_le x y = true) by (apply elt_lt_true_le, Hlt).
    destruct (IH h' f) as (h'' & Hr & Hwf'' & Hc'' & Hn'' & Hperm'' & Hord).
    + exact Hwf'.
    + lia.
    + split.
      * intros k Hk Hkf. rewrite Hn' in Hk.
        destruct (decide (k = pos)) as [->|Hkp].
        { apply (le_at_intro h' _ _ x y); [| |exact Hxy].
          - fold f. rewrite HK, transpose_r by lia. exact Hx.
          - rewrite HK, transpose_l by lia. exact Hy. }
        destruct (Hinv1 k Hk Hkp) as (u & w & Hu & Hw & Huw).
        assert (Hw' : key_at m h' k = Some w)
          by (rewrite HK, transpose_other by lia; exact Hw).
        destruct (decide ((k - 1) / 2 = pos)) as [Hfp|Hfp].
        { apply (le_at_intro h' _ _ y w); [|exact Hw'|].
          - rewrite Hfp, HK, transpose_l by lia. exact Hy.
          - apply (le_at_elim h f k); [|exact Hy|exact Hw].
            apply Hinv2; [exact Hk | exact Hfp | lia]. }
        destruct (decide ((k - 1) / 2 = f)) as [Hff|Hff].
        { apply (le_at_intro h' _ _ x w); [|exact Hw'|].
          - rewrite Hff, HK, transpose_r by lia. exact Hx.
          - apply (elt_le_trans _ y); [exact Hxy|].
            rewrite Hff in Hu. congruence. }
        apply (le_at_intro h' _ _ u w); [|exact Hw'|exact Huw].
        rewrite HK, transpose_other by zlia. exact Hu.
      * intros k Hk Hkf Hf0. rewrite Hn' in Hk.
        assert (Hff : 0 <= (f - 1) / 2 < f) by zlia.
        destruct (Hinv1 f ltac:(lia) ltac:(lia)) as (z & y' & Hz & Hy' & Hzy).
        assert (y' = y) by congruence. subst y'.
        assert (Hz' : key_at m h' ((f - 1) / 2) = Some z)
          by (rewrite HK, transpose_other by lia; exact Hz).
        destruct (decide (k = pos)) as [->|Hkp].
        { apply (le_at_intro h' _ _ z y); [exact Hz'| |exact Hzy].
          rewrite HK, transpose_l by lia. exact Hy. }
        destruct (Hinv1 k Hk Hkp) as (u & w & Hu & Hw & Huw).
        apply (le_at_intro h' _ _ z w); [exact Hz'| |].
        { rewrite HK, transpose_other by zlia. exact Hw. }
        apply (elt_le_trans _ y); [exact Hzy|].
        rewrite Hkf in Hu. congruence.
    + lia.
    + exists h''. rewrite Hr. split; [reflexivity|].
      split; [exact Hwf''|]. split; [congruence|]. split; [congruence|].
      split; [|exact Hord]. etrans; eassumption.
  - (* the node stays *)
    exists h. split; [reflexivity|]. split; [exact Hwf|].
    do 3 (split; [reflexivity|]).
    intros k Hk. destruct (decide (k = pos)) as [->|Hkp].
    + apply (le_at_intro h _ _ y x); [|exact Hx|apply elt_lt_false_le, Hlt].
      subst f. destruct (Z.eqb_spec pos 0); [lia | exact Hy].
    + apply Hinv1; assumption.
Qed.


Lemma elt_lt_le_trans (x y z : Element) :
  elt_lt x y = true -> elt_le y z = true -> elt_lt x z = true.
Proof.
  rewrite !elt_lt_le. intros Hxy Hyz.
  destruct (elt_le z x) eqn:Hzx; [|reflexivity].
  rewrite (elt_le_trans y z x Hyz Hzx) in Hxy. discriminate.
Qed.

Lemma lower_loop_ok (fuel : nat) : forall (h : Heap_Id) (pos : Z),
  wf m h -> 0 <= pos -> 2 * nb_elem h < UINT_MOD ->
  lower_inv elt_le m h pos ->
  (Z.to_nat (nb_elem h - pos) < fuel)%nat ->
  exists h',
    lower_loop elt_lt fuel m h pos (2 * pos + 1) (2 * pos + 2) = Ok h' /\
    wf m h' /\ capacity h' = capacity h /\ nb_elem h' = nb_elem h /\
    ptrs h' ≡ₚ ptrs h /\ ordered elt_le m h'.
Proof.
  induction fuel as [|fuel IH]; intros h pos Hwf Hpos Hsmall [Hinv1 Hinv2]
    Hfuel; [lia|].
  pose proof (wf_cap _ _ Hwf) as Hcap. pose proof (wf_nb _ _ Hwf) as Hnb.
  cbn [lower_loop].
  destruct (Z.ltb_spec (2 * pos + 1) (nb_elem h)) as [Hl|Hl].
  2: { (* no son *)
    destruct (Z.ltb_spec (2 * pos + 2) (nb_elem h)); [lia|]. cbn.
    exists h. split; [reflexivity|]. split; [exact Hwf|].
    do 3 (split; [reflexivity|]).
    intros k Hk. apply Hinv1; [exact Hk | zlia]. }
  destruct (wf_key h pos Hwf ltac:(lia)) as [x Hx].
  destruct (wf_key h (2 * pos + 1) Hwf ltac:(lia)) as [xl Hxl].
  (* the swap with a son [s] that is below [pos] and below its brother *)
  assert (Hcont : forall s xs,
    s = 2 * pos + 1 \/ s = 2 * pos + 2 -> s < nb_elem h ->
    key_at m h s = Some xs -> elt_le xs x = true ->
    (forall k w, 0 < k < nb_elem h -> (k - 1) / 2 = pos ->
                 key_at m h k = Some w -> elt_le xs w = true) ->
    exists h',
      (h1 ← swap h pos s;
       l ← get_pos_left_son h1 s;
       r ← get_pos_right_son h1 s;
       lower_loop elt_lt fuel m h1 s l r) = Ok h' /\
      wf m h' /\ capacity h' = capacity h /\ nb_elem h' = nb_elem h /\
      ptrs h' ≡ₚ ptrs h /\ ordered elt_le m h').
  { intros s xs Hs Hsn Hxs Hxsx Hmin.
    destruct (swap_ok h pos s Hwf ltac:(lia) ltac:(lia))
      as (h' & Hsw & Hwf' & Hc' & Hn' & Hlook & Hperm).
    rewrite Hsw. cbn.
    rewrite get_pos_left_son_ok
      by (rewrite ?Hc', ?u32_small by lia; lia). cbn.
    rewrite get_pos_right_son_ok
      by (rewrite ?Hc', ?u32_small by lia; lia). cbn.
    assert (HK : forall k, 0 <= k ->
              key_at m h' k = key_at m h (transpose pos s k))
      by (intros k Hk; apply key_at_lookup, Hlook, Hk).
    destruct (IH h' s) as (h'' & Hr & Hwf'' & Hc'' & Hn'' & Hperm'' & Hord).
    - exact Hwf'.
    - lia.
    - lia.
    - split.
      + intros k Hk Hks. rewrite Hn' in Hk.
        destruct (decide (k = s)) as [->|Hkne].
        { apply (le_at_intro h' _ _ xs x); [| |exact Hxsx].
          - replace ((s - 1) / 2) with pos by zlia.
            rewrite HK, transpose_l by lia. exact Hxs.
          - rewrite HK, transpose_r by lia. exact Hx. }
        destruct (decide (k = pos)) as [->|Hkp].
        { destruct (Hinv2 s ltac:(lia) ltac:(zlia) ltac:(lia))
            as (z & xs' & Hz & Hxs' & Hzs).
          apply (le_at_intro h' _ _ z xs).
          - rewrite HK, transpose_other by zlia. exact Hz.
          - rewrite HK, transpose_l by lia. exact Hxs.
          - congruence. }
        destruct (wf_key h k Hwf ltac:(lia)) as [w Hw].
        assert (Hw' : key_at m h' k = Some w)
          by (rewrite HK, transpose_other by lia; exact Hw).
        destruct (decide ((k - 1) / 2 = pos)) as [Hfp|Hfp].
        { apply (le_at_intro h' _ _ xs w); [|exact Hw'|].
          - rewrite Hfp, HK, transpose_l by lia. exact Hxs.
          - apply (Hmin k w); assumption. }
        destruct (Hinv1 k Hk Hfp) as (u & w' & Hu & Hw'' & Huw).
        apply (le_at_intro h' _ _ u w); [|exact Hw'|congruence].
        rewrite HK, transpose_other by zlia. exact Hu.
      + intros k Hk Hks Hs0. rewrite Hn' in Hk.
        replace ((s - 1) / 2) with pos by zlia.
        destruct (Hinv1 k Hk ltac:(lia)) as (u & w & Hu & Hw & Huw).
        apply (le_at_intro h' _ _ xs w).
        * rewrite HK, transpose_l by lia. exact Hxs.
        * rewrite HK, transpose_other by zlia. exact Hw.
        * rewrite Hks in Hu. congruence.
    - lia.
    - exists h''. rewrite Hr. split; [reflexivity|].
      split; [exact Hwf''|]. split; [congruence|]. split; [congruence|].
      split; [|exact Hord]. etrans; eassumption. }
  unfold lt.
  rewrite (cmp_pos_spec _ h (2 * pos + 1) pos xl x) by (auto; lia). cbn.
  destruct (Z.ltb_spec (2 * pos + 2) (nb_elem h)) as [Hr|Hr].
  - (* two sons *)
    destruct (wf_key h (2 * pos + 2) Hwf ltac:(lia)) as [xr Hxr].
    rewrite (cmp_pos_spec _ h (2 * pos + 2) pos xr x) by (auto; lia).
    rewrite (cmp_pos_spec _ h (2 * pos + 2) (2 * pos + 1) xr xl)
      by (auto; lia).
    assert (Hsons : forall k w, 0 < k < nb_elem h -> (k - 1) / 2 = pos ->
              key_at m h k = Some w -> w = xl \/ w = xr).
    { intros k w Hk Hkf Hw.
      assert (k = 2 * pos + 1 \/ k = 2 * pos + 2) as [->| ->] by zlia;
        [left | right]; congruence. }
    destruct (elt_lt xl x) eqn:Hlx; cbn.
    + destruct (elt_lt xr xl) eqn:Hrl; cbn.
      * apply (Hcont (2 * pos + 2) xr);
          [right; reflexivity | lia | exact Hxr | |].
        { apply (elt_le_trans _ xl); apply elt_lt_true_le; assumption. }
        intros k w Hk Hkf Hw.
        destruct (Hsons k w Hk Hkf Hw) as [-> | ->];
          [apply elt_lt_true_le, Hrl | apply elt_le_refl].
      * apply (Hcont (2 * pos + 1) xl);
          [left; reflexivity | lia | exact Hxl | apply elt_lt_true_le, Hlx |].
        intros k w Hk Hkf Hw.
        destruct (Hsons k w Hk Hkf Hw) as [-> | ->];
          [apply elt_le_refl | apply elt_lt_false_le, Hrl].
    + destruct (elt_lt xr x) eqn:Hrx; cbn.
      * assert (Hrl : elt_lt xr xl = true)
          by (apply (elt_lt_le_trans _ x); [exact Hrx | apply elt_lt_false_le, Hlx]).
        rewrite Hrl. cbn.
        apply (Hcont (2 * pos + 2) xr);
          [right; reflexivity | lia | exact Hxr | apply elt_lt_true_le, Hrx |].
        intros k w Hk Hkf Hw.
        destruct (Hsons k w Hk Hkf Hw) as [-> | ->];
          [apply elt_lt_true_le, Hrl | apply elt_le_refl].
      * exists h. split; [reflexivity|]. split; [exact Hwf|].
        do 3 (split; [reflexivity|]).
        intros k Hk. destruct (decide ((k - 1) / 2 = pos)) as [Hkf|Hkf];
          [|apply Hinv1; assumption].
        destruct (wf_key h k Hwf ltac:(lia)) as [w Hw].
        apply (le_at_intro h _ _ x w); [rewrite Hkf; exact Hx|exact Hw|].
        destruct (Hsons k w Hk Hkf Hw) as [-> | ->]; apply elt_lt_false_le;
          assumption.
  - (* one son *)
    assert (Hsons : forall k w, 0 < k < nb_elem h -> (k - 1) / 2 = pos ->
              key_at m h k = Some w -> w = xl).
    { intros k w Hk Hkf Hw. assert (k = 2 * pos + 1) as -> by zlia.
      congruence. }
    destruct (elt_lt xl x) eqn:Hlx; cbn.
    + apply (Hcont (2 * pos + 1) xl);
        [left; reflexivity | lia | exact Hxl | apply elt_lt_true_le, Hlx |].
      intros k w Hk Hkf Hw. rewrite (Hsons k w Hk Hkf Hw). apply elt_le_refl.
    + exists h. split; [reflexivity|]. split; [exact Hwf|].
      do 3 (split; [reflexivity|]).
      intros k Hk. destruct (decide ((k - 1) / 2 = pos)) as [Hkf|Hkf];
        [|apply Hinv1; assumption].
      destruct (wf_key h k Hwf ltac:(lia)) as [w Hw].
      apply (le_at_intro h _ _ x w); [rewrite Hkf; exact Hx|exact Hw|].
      rewrite (Hsons k w Hk Hkf Hw). apply elt_lt_false_le, Hlx.
Qed.


Lemma raise_ok (h : Heap_Id) (pos : Z) :
  wf m h -> 0 <= pos < nb_elem h -> raise_inv elt_le m h pos ->
  exists h',
    raise elt_lt elt_le m h pos = Ok h' /\
    wf m h' /\ capacity h' = capacity h /\ nb_elem h' = nb_elem h /\
    ptrs h' ≡ₚ ptrs h /\ ordered elt_le m h'.
Proof.
  intros Hwf Hpos Hinv.
  pose proof (wf_cap _ _ Hwf) as Hcap. pose proof (wf_nb _ _ Hwf) as Hnb.
  destruct (raise_loop_ok (S (Z.to_nat pos)) h pos Hwf Hpos Hinv)
    as (h' & Hr & Hrest); [lia|].
  exists h'. split; [|exact Hrest].
  unfold raise. rewrite bind_in_range by (rewrite u32_small; lia).
  rewrite (bind_Ok _ _ _ (get_pos_father_ok h pos ltac:(lia)
                            ltac:(rewrite u32_small; lia))).
  rewrite (bind_Ok _ _ _ Hr). reflexivity.
Qed.

Lemma lower_ok (h : Heap_Id) (pos : Z) :
  wf m h -> 0 <= pos < capacity h -> 2 * pos + 2 < UINT_MOD ->
  2 * nb_elem h < UINT_MOD -> lower_inv elt_le m h pos ->
  exists h',
    lower elt_lt elt_le m h pos = Ok h' /\
    wf m h' /\ capacity h' = capacity h /\ nb_elem h' = nb_elem h /\
    ptrs h' ≡ₚ ptrs h /\ ordered elt_le m h'.
Proof.
  intros Hwf Hpos Hp Hsmall Hinv.
  pose proof (wf_cap _ _ Hwf) as Hcap. pose proof (wf_nb _ _ Hwf) as Hnb.
  destruct (lower_loop_ok (S (Z.to_nat (nb_elem h))) h pos Hwf
              (proj1 Hpos) Hsmall Hinv)
    as (h' & Hr & Hrest); [lia|].
  exists h'. split; [|exact Hrest].
  unfold lower. rewrite bind_in_range by (rewrite u32_small; lia).
  rewrite (bind_Ok _ _ _ (get_pos_left_son_ok h pos ltac:(lia)
                            ltac:(rewrite u32_small; lia) Hp)).
  rewrite (bind_Ok _ _ _ (get_pos_right_son_ok h pos ltac:(lia)
                            ltac:(rewrite u32_small; lia) Hp)).
  rewrite (bind_Ok _ _ _ Hr). reflexivity.
Qed.

(** The root is below every position of an ordered elt_le m heap. *)
Lemma root_min (h : Heap_Id) :
  wf m h -> ordered elt_le m h ->
  forall k, 0 <= k < nb_elem h -> le_at elt_le m h 0 k.
Proof.
  intros Hwf Hord.
  assert (H : forall n : nat, forall k, 0 <= k < nb_elem h ->
            (Z.to_nat k <= n)%nat -> le_at elt_le m h 0 k).
  { induction n as [|n IH]; intros k Hk Hn.
    - assert (k = 0) as -> by lia.
      destruct (wf_key h 0 Hwf Hk) as [x Hx].
      apply (le_at_intro h 0 0 x x Hx Hx), elt_le_refl.
    - destruct (decide (k = 0)) as [->|Hk0]; [apply IH; lia|].
      destruct (IH ((k - 1) / 2)) as (x & y & Hx & Hy & Hxy); [zlia..|].
      destruct (Hord k) as (y' & z & Hy' & Hz & Hyz); [lia|].
      apply (le_at_intro h 0 k x z Hx Hz).
      apply (elt_le_trans _ y); [exact Hxy | congruence]. }
  intros k Hk. apply (H (Z.to_nat k)); [exact Hk | lia].
Qed.

Lemma wf_new (cap : Z) :
  0 <= cap < UINT_MOD ->
  wf m (Heap_Id_new cap) /\ ordered elt_le m (Heap_Id_new cap) /\
  ptrs (Heap_Id_new cap) = [].
Proof.
  intros Hcap. split; [|split].
  - split; cbn; rewrite ?length_replicate; try lia; try reflexivity.
  - intros k Hk. cbn in Hk. lia.
  - reflexivity.
Qed.

Lemma push_unfold (h : Heap_Id) (v : Z) :
  wf m h -> nb_elem h < capacity h ->
  push elt_lt elt_le m h v
  = (raise elt_lt elt_le m (pushed h v) (nb_elem h)
       ≫= fun h2 => Ok (h2, nb_elem h)).
Proof.
  intros [Hcap Hnb Hle Hlt Hfree Hnodes] Hroom. unfold push.
  rewrite (bind_Ok _ _ tt) by apply assert_valid_ok.
  rewrite (bind_Ok _ _ tt) by (apply assert_true, Z.ltb_lt; lia).
  rewrite (bind_rd _ _ (nb_elem h)) by
    (rewrite ?Hfree, ?lookup_seqZ_lt by lia; f_equal; lia).
  cbn [snd]. rewrite !bind_wr by lia.
  rewrite (u32_small (nb_elem h + 1)) by lia.
  cbn [nb_elem set_nb_elem].
  replace (nb_elem h + 1 - 1) with (nb_elem h) by lia.
  rewrite (u32_small (nb_elem h)) by lia.
  reflexivity.
Qed.

Lemma pushed_old (h : Heap_Id) (v k : Z) :
  0 <= k < nb_elem h ->
  elements (pushed h v) !! Z.to_nat k = elements h !! Z.to_nat k.
Proof. intros Hk. cbn. apply list_lookup_insert_ne. lia. Qed.

Lemma pushed_new (h : Heap_Id) (v : Z) :
  wf m h -> nb_elem h < capacity h ->
  elements (pushed h v) !! Z.to_nat (nb_elem h)
  = Some (Some v, nb_elem h).
Proof.
  intros Hwf Hroom. pose proof (wf_elements _ _ Hwf).
  pose proof (wf_nb _ _ Hwf). cbn. apply list_lookup_insert_eq. lia.
Qed.

Lemma wf_pushed (h : Heap_Id) (v : Z) :
  wf m h -> nb_elem h < capacity h -> is_Some (m v) -> wf m (pushed h v).
Proof.
  intros Hwf Hroom [e He]. pose proof (pushed_new h v Hwf Hroom) as Hnew.
  destruct Hwf as [Hcap Hnb Hle Hlt Hfree Hnodes].
  split; cbn; rewrite ?length_insert; try lia; [exact Hfree|].
  intros k Hk. destruct (decide (k = nb_elem h)) as [->|Hkn].
  - exists v, e, (nb_elem h). rewrite list_lookup_insert_eq by lia.
    auto with lia.
  - rewrite list_lookup_insert_ne by lia. apply Hnodes. lia.
Qed.

Lemma ptrs_pushed (h : Heap_Id) (v : Z) :
  wf m h -> nb_elem h < capacity h -> ptrs (pushed h v) = ptrs h ++ [v].
Proof.
  intros Hwf Hroom. pose proof (wf_elements _ _ Hwf).
  pose proof (wf_nb _ _ Hwf). unfold ptrs. cbn.
  replace (Z.to_nat (nb_elem h + 1)) with (S (Z.to_nat (nb_elem h))) by lia.
  rewrite (take_S_r _ _ (Some v, nb_elem h))
    by (apply list_lookup_insert_eq; lia).
  rewrite take_insert_ge by lia.
  rewrite omap_app. reflexivity.
Qed.

Lemma push_ok (h : Heap_Id) (v : Z) :
  wf m h -> ordered elt_le m h -> nb_elem h < capacity h -> is_Some (m v) ->
  exists h' id,
    push elt_lt elt_le m h v = Ok (h', id) /\
    wf m h' /\ ordered elt_le m h' /\ capacity h' = capacity h /\
    nb_elem h' = nb_elem h + 1 /\ ptrs h' ≡ₚ v :: ptrs h.
Proof.
  intros Hwf Hord Hroom Hv.
  pose proof (wf_nb _ _ Hwf) as Hnb.
  pose proof (wf_pushed h v Hwf Hroom Hv) as Hwf1.
  assert (Hinv1 : raise_inv elt_le m (pushed h v) (nb_elem h)).
  { split.
    - intros k Hk Hkn. cbn in Hk.
      destruct (Hord k ltac:(lia)) as (x & y & Hx & Hy & Hxy).
      apply (le_at_intro _ _ _ x y); [| |exact Hxy].
      + rewrite <- Hx. apply key_at_lookup, pushed_old. zlia.
      + rewrite <- Hy. apply key_at_lookup, pushed_old. lia.
    - intros k Hk Hkf. cbn in Hk. zlia. }
  destruct (raise_ok (pushed h v) (nb_elem h) Hwf1 ltac:(cbn; lia) Hinv1)
    as (h' & Hr & Hwf' & Hc' & Hn' & Hperm & Hord').
  exists h', (nb_elem h).
  split; [rewrite push_unfold, (bind_Ok _ _ _ Hr) by assumption;
          reflexivity|].
  split; [exact Hwf'|]. split; [exact Hord'|]. split; [exact Hc'|].
  split; [rewrite Hn'; reflexivity|].
  rewrite Hperm, ptrs_pushed by assumption.
  rewrite Permutation_app_comm. reflexivity.
Qed.

Lemma ptrs_position (h : Heap_Id) (b : Z) :
  b ∈ ptrs h ->
  exists k id, 0 <= k < nb_elem h /\
               elements h !! Z.to_nat k = Some (Some b, id).
Proof.
  unfold ptrs. intros Hb.
  apply list_elem_of_omap in Hb as ([p id] & Hin & Hp).
  apply list_elem_of_lookup in Hin as [i Hi].
  apply lookup_take_Some in Hi as [Hi Hlt].
  cbn in Hp. subst p. exists (Z.of_nat i), id.
  rewrite Nat2Z.id. split; [lia | exact Hi].
Qed.

Lemma pop_ok (h : Heap_Id) :
  wf m h -> ordered elt_le m h -> 0 < nb_elem h -> 2 * nb_elem h <= UINT_MOD ->
  exists h' a,
    pop elt_lt elt_le m h = Ok (h', a) /\
    wf m h' /\ ordered elt_le m h' /\ capacity h' = capacity h /\
    nb_elem h' = nb_elem h - 1 /\ ptrs h ≡ₚ a :: ptrs h' /\
    (forall b, b ∈ ptrs h -> key_le elt_le m a b).
Proof.
  intros Hwf Hord Hpos Hsmall.
  pose proof (wf_cap _ _ Hwf) as Hcap. pose proof (wf_nb _ _ Hwf) as Hnb.
  set (n := nb_elem h) in *.
  destruct (wf_nodes _ _ Hwf 0 ltac:(lia)) as (a & e & id & Ha & Hma & Hid).
  destruct (swap_ok h 0 (n - 1) Hwf ltac:(lia) ltac:(lia))
    as (h1 & Hs & Hwf1 & Hc1 & Hn1 & Hlook & Hperm1).
  destruct Hwf1 as [Hcap1 Hnb1 Hle1 Hlt1 Hfree1 Hnodes1].
  assert (Hlast : elements h1 !! Z.to_nat (n - 1) = Some (Some a, id))
    by (rewrite Hlook, transpose_r by lia; exact Ha).
  set (h2 := set_nb_elem h1 (n - 1)).
  assert (Hwf2 : wf m h2).
  { split; cbn; try lia; try assumption. intros k Hk. apply Hnodes1. lia. }
  assert (Hinv2 : lower_inv elt_le m h2 0).
  { split; [|intros; lia].
    intros k Hk Hkf. cbn in Hk.
    destruct (Hord k ltac:(lia)) as (x & y & Hx & Hy & Hxy).
    apply (le_at_intro h2 _ _ x y); [| |exact Hxy].
    - rewrite <- Hx. apply (key_at_lookup h h1).
      rewrite Hlook, transpose_other by zlia. reflexivity.
    - rewrite <- Hy. apply (key_at_lookup h h1).
      rewrite Hlook, transpose_other by zlia. reflexivity. }
  destruct (lower_ok h2 0 Hwf2) as (h3 & Hl & Hwf3 & Hc3 & Hn3 & Hperm3 & Hord3).
  { cbn. lia. }
  { rewrite UINT_MOD_eq. lia. }
  { cbn. lia. }
  { exact Hinv2. }
  exists h3, a. split; [|split; [exact Hwf3|split; [exact Hord3|]]].
  - unfold pop. fold n.
    rewrite (bind_Ok _ _ tt) by apply assert_valid_ok.
    rewrite (u32_small (n - 1)) by lia.
    rewrite (bind_Ok _ _ _ Hs). rewrite Hn1. fold n.
    rewrite (u32_small (n - 1)) by lia.
    rewrite (bind_rd _ (n - 1) _ _ ltac:(lia) Hlast). cbn [fst].
    fold h2. rewrite (bind_Ok _ _ _ Hl). reflexivity.
  - split; [cbn in Hc3; congruence|].
    split; [rewrite Hn3; reflexivity|]. split.
    + rewrite <- Hperm1, Hperm3. unfold ptrs. rewrite Hn1. fold n.
      cbn [nb_elem elements h2 set_nb_elem].
      replace (Z.to_nat n) with (S (Z.to_nat (n - 1))) by lia.
      rewrite (take_S_r _ _ _ Hlast), omap_app. cbn.
      rewrite Permutation_app_comm. reflexivity.
    + intros b Hb. destruct (ptrs_position h b Hb) as (k & idb & Hk & Hkb).
      destruct (root_min h Hwf Hord k Hk) as (x & y & Hx & Hy & Hxy).
      exists x, y. unfold key_at in Hx, Hy. rewrite Ha in Hx. rewrite Hkb in Hy.
      cbn in Hx, Hy. auto.
Qed.

Lemma push_all_ok (vs : list Z) : forall h : Heap_Id,
  wf m h -> ordered elt_le m h -> nb_elem h + Z.of_nat (length vs) <= capacity h ->
  (forall v, v ∈ vs -> is_Some (m v)) ->
  exists h',
    push_all elt_lt elt_le m h vs = Ok h' /\
    wf m h' /\ ordered elt_le m h' /\ capacity h' = capacity h /\
    nb_elem h' = nb_elem h + Z.of_nat (length vs) /\
    ptrs h' ≡ₚ vs ++ ptrs h.
Proof.
  induction vs as [|v vs IH]; intros h Hwf Hord Hroom Hvalid.
  - exists h. cbn. rewrite Z.add_0_r.
    split; [reflexivity|]. split; [exact Hwf|]. split; [exact Hord|].
    split; [reflexivity|]. split; reflexivity.
  - cbn [length] in Hroom.
    destruct (push_ok h v Hwf Hord ltac:(lia))
      as (h1 & id & Hp & Hwf1 & Hord1 & Hc1 & Hn1 & Hperm1).
    { apply Hvalid. left. }
    destruct (IH h1 Hwf1 Hord1)
      as (h' & Hps & Hwf' & Hord' & Hc' & Hn' & Hperm').
    { lia. }
    { intros w Hw. apply Hvalid. right. exact Hw. }
    exists h'. cbn [push_all]. rewrite (bind_Ok _ _ _ Hp). cbn [fst].
    split; [exact Hps|]. split; [exact Hwf'|]. split; [exact Hord'|].
    split; [congruence|]. split; [cbn [length]; lia|].
    rewrite Hperm', Hperm1. cbn. symmetry. apply Permutation_middle.
Qed.

Lemma pop_n_ok (n : nat) : forall h : Heap_Id,
  wf m h -> ordered elt_le m h -> nb_elem h = Z.of_nat n ->
  2 * nb_elem h <= UINT_MOD ->
  exists h' out,
    pop_n elt_lt elt_le m h n = Ok (h', out) /\
    out ≡ₚ ptrs h /\ StronglySorted (key_le elt_le m) out.
Proof.
  induction n as [|n IH]; intros h Hwf Hord Hn Hsmall.
  - exists h, []. split; [reflexivity|]. split; [|constructor].
    unfold ptrs. rewrite Hn. reflexivity.
  - destruct (pop_ok h Hwf Hord ltac:(lia) Hsmall)
      as (h1 & a & Hp & Hwf1 & Hord1 & Hc1 & Hn1 & Hperm1 & Hmin).
    destruct (IH h1 Hwf1 Hord1 ltac:(lia) ltac:(lia))
      as (h' & out & Hpn & Hperm & Hsorted).
    exists h', (a :: out). cbn [pop_n].
    rewrite (bind_Ok _ _ _ Hp). cbn [fst snd].
    rewrite (bind_Ok _ _ _ Hpn). cbn [fst snd].
    split; [reflexivity|]. split; [rewrite Hperm1, Hperm; reflexivity|].
    constructor; [exact Hsorted|].
    apply Forall_forall. intros b Hb. apply Hmin.
    rewrite Hperm1, <- Hperm. right. exact Hb.
Qed.

(** C5, as the code has it: when [<=] is a total preorder on the elements and
    [<] is its strict part, for every capacity, every [n] that exceeds
    neither the capacity nor [2^31], and every list [vs] of [n] addresses of
    elements, [n] pushes (in the order of [vs]) followed by [n] pops succeed,
    and the pops return the pushed addresses, each once, in non-decreasing
    order of their keys. *)
Theorem pushes_then_pops_sorted (cap : Z) (vs : list Z) :
  Z.of_nat (length vs) <= cap < UINT_MOD ->
  2 * Z.of_nat (length vs) <= UINT_MOD ->
  (forall v, v ∈ vs -> is_Some (m v)) ->
  exists h h' out,
    push_all elt_lt elt_le m (Heap_Id_new cap) vs = Ok h /\
    pop_n elt_lt elt_le m h (length vs) = Ok (h', out) /\
    out ≡ₚ vs /\ Sorted (key_le elt_le m) out.
Proof.
  intros Hcap Hsmall Hvalid.
  destruct (wf_new cap ltac:(lia)) as (Hwf0 & Hord0 & Hptrs0).
  destruct (push_all_ok vs _ Hwf0 Hord0 ltac:(cbn; lia) Hvalid)
    as (h & Hps & Hwf & Hord & _ & Hn & Hperm).
  cbn in Hn. rewrite Hptrs0, app_nil_r in Hperm.
  destruct (pop_n_ok (length vs) h Hwf Hord ltac:(lia) ltac:(lia))
    as (h' & out & Hpn & Hperm' & Hsorted).
  exists h, h', out. split; [exact Hps|]. split; [exact Hpn|].
  split; [rewrite Hperm', Hperm; reflexivity|].
  apply StronglySorted_Sorted, Hsorted.
Qed.

End HeapFacts.

(** ** Heaps of integers *)

Lemma Zle_total (x y : Z) : (x <=? y) = true \/ (y <=? x) = true.
Proof. destruct (Z.leb_spec x y); [left; reflexivity | right; lia]. Qed.

Lemma Zle_trans (x y z : Z) :
  (x <=? y) = true -> (y <=? z) = true -> (x <=? z) = true.
Proof. lia. Qed.

Lemma Zlt_le (x y : Z) : (x <? y) = negb (y <=? x).
Proof. destruct (Z.ltb_spec x y), (Z.leb_spec y x); (reflexivity || lia). Qed.

Lemma pushes_then_pops_sorted_witness :
  exists h h' out,
    push_all Z.ltb Z.leb (mem_list [7; 1; 5]) (Heap_Id_new 3) [0; 1; 2]
      = Ok h /\
    pop_n Z.ltb Z.leb (mem_list [7; 1; 5]) h 3 = Ok (h', out) /\
    out ≡ₚ [0; 1; 2] /\
    Sorted (key_le Z.leb (mem_list [7; 1; 5])) out.
Proof.
  apply (pushes_then_pops_sorted Z.ltb Z.leb (mem_list [7; 1; 5])
           Zle_total Zle_trans Zlt_le 3 [0; 1; 2]).
  - cbn. rewrite UINT_MOD_eq. lia.
  - cbn. rewrite UINT_MOD_eq. lia.
  - intros v Hv.
    repeat (apply elem_of_cons in Hv as [->|Hv]; [eexists; reflexivity|]).
    inversion Hv.
Defined.

(** ** A heap of more than [2^31] elements *)

Section Overflow.

Variable m : Mem (Element := Z).

Lemma one_at_swap (h h' : Heap_Id) (p s : Z) :
  0 <= p < nb_elem h -> 0 <= s < nb_elem h -> nb_elem h' = nb_elem h ->
  (forall k, 0 <= k ->
     elements h' !! Z.to_nat k = elements h !! Z.to_nat (transpose p s k)) ->
  one_at m h p -> one_at m h' s.
Proof.
  intros Hp Hs Hn Hlook Hone k Hk. rewrite Hn in Hk.
  rewrite (key_at_lookup m h h' k (transpose p s k)) by (apply Hlook; lia).
  rewrite Hone by (apply transpose_range; lia).
  unfold transpose.
  destruct (Z.eqb_spec k p), (Z.eqb_spec k s); subst;
    rewrite ?Z.eqb_refl; try reflexivity;
    repeat match goal with
           | |- context [?a =? ?b] => destruct (Z.eqb_spec a b)
           end; (reflexivity || lia).
Qed.

Lemma level_bound (p : Z) (d : nat) :
  0 <= p -> (p + 1) * 2 ^ Z.of_nat d = 2147483648 -> p + 1 <= 2147483648.
Proof.
  intros Hp Hpow.
  assert (0 < 2 ^ Z.of_nat d) by (apply Z.pow_pos_nonneg; lia). nia.
Qed.

(** The element with the key 1 goes down the leftmost branch; at position
    [2^31 - 1] the position of the right son wraps to 0 and that of the left
    son, [2^32 - 1], fails the range check of [lt]. *)
Lemma sink_aborts (d : nat) : forall (fuel : nat) (h : Heap_Id) (p : Z),
  wf m h -> 2147483648 <= nb_elem h -> 0 <= p ->
  (p + 1) * 2 ^ Z.of_nat d = 2147483648 ->
  one_at m h p -> (d < fuel)%nat ->
  lower_loop Z.ltb fuel m h p (u32 (2 * p + 1)) (u32 (2 * p + 2)) = Abort.
Proof.
  induction d as [|d IH]; intros fuel h p Hwf Hbig Hp Hpow Hone Hfuel;
    (destruct fuel as [|fuel]; [lia|]);
    pose proof (wf_cap _ _ Hwf) as Hcap; pose proof (wf_nb _ _ Hwf) as Hnb;
    rewrite UINT_MOD_eq in Hcap;
    pose proof (level_bound p _ Hp Hpow) as Hpn;
    assert (Hkp : key_at m h p = Some 1)
      by (rewrite Hone, Z.eqb_refl by lia; reflexivity).
  - assert (Hpv : p = 2147483647) by (cbn in Hpow; lia).
    assert (Hl : u32 (2 * p + 1) = 2 * p + 1)
      by (apply u32_small; rewrite UINT_MOD_eq; lia).
    assert (Hr : u32 (2 * p + 2) = 0)
      by (unfold u32; rewrite UINT_MOD_eq; zlia).
    assert (Hk0 : key_at m h 0 = Some 0).
    { rewrite Hone by lia. destruct (Z.eqb_spec 0 p); [lia | reflexivity]. }
    rewrite Hl, Hr. cbn [lower_loop].
    destruct (Z.ltb_spec (2 * p + 1) (nb_elem h)); [lia|].
    destruct (Z.ltb_spec 0 (nb_elem h)); [|lia].
    rewrite Ok_bind. cbv beta iota. unfold lt.
    rewrite (cmp_pos_spec m _ h 0 p 0 1 Hwf ltac:(lia) ltac:(lia) Hk0 Hkp).
    rewrite Ok_bind. change (0 <? 1) with true. cbv beta iota.
    unfold cmp_pos.
    rewrite (u32_small (capacity h - 1)) by (rewrite UINT_MOD_eq; lia).
    rewrite bind_in_range by lia.
    rewrite ASSERT_IN_RANGE_above by lia. reflexivity.
  - rewrite Nat2Z.inj_succ, Z.pow_succ_r in Hpow by lia.
    assert (HX : 0 < 2 ^ Z.of_nat d) by (apply Z.pow_pos_nonneg; lia).
    set (X := 2 ^ Z.of_nat d) in *.
    assert (Hp2 : 2 * (p + 1) <= 2147483648) by nia.
    rewrite !u32_small by (rewrite UINT_MOD_eq; lia).
    assert (Hkl : key_at m h (2 * p + 1) = Some 0).
    { rewrite Hone by lia. destruct (Z.eqb_spec (2 * p + 1) p); [lia|].
      reflexivity. }
    cbn [lower_loop].
    destruct (Z.ltb_spec (2 * p + 1) (nb_elem h)); [|lia].
    unfold lt.
    rewrite (cmp_pos_spec m _ h (2 * p + 1) p 0 1 Hwf ltac:(lia) ltac:(lia)
               Hkl Hkp).
    rewrite Ok_bind. change (0 <? 1) with true. cbv beta iota.
    rewrite Ok_bind. cbv beta iota.
    assert (Hc2 : (if 2 * p + 2 <? nb_elem h
                   then cmp_pos Z.ltb m h (2 * p + 2) (2 * p + 1)
                   else Ok false) = Ok false).
    { destruct (Z.ltb_spec (2 * p + 2) (nb_elem h)); [|reflexivity].
      rewrite (cmp_pos_spec m _ h (2 * p + 2) (2 * p + 1) 0 0 Hwf
                 ltac:(lia) ltac:(lia)); [reflexivity| |exact Hkl].
      rewrite Hone by lia. destruct (Z.eqb_spec (2 * p + 2) p); [lia|].
      reflexivity. }
    rewrite Hc2, Ok_bind. cbv beta iota.
    destruct (swap_ok m h p (2 * p + 1) Hwf ltac:(lia) ltac:(lia))
      as (h' & Hs & Hwf' & Hc' & Hn' & Hlook & _).
    rewrite Hs, Ok_bind.
    unfold get_pos_left_son, get_pos_right_son.
    rewrite !bind_in_range
      by (rewrite Hc', u32_small by (rewrite UINT_MOD_eq; lia); lia).
    rewrite !Ok_bind. apply IH.
    + exact Hwf'.
    + lia.
    + lia.
    + replace (2 * p + 1 + 1) with (2 * (p + 1)) by lia.
      rewrite <- Hpow. subst X. ring.
    + apply (one_at_swap h h' p (2 * p + 1)); auto; lia.
    + lia.
Qed.

Lemma big_heap_pop_aborts (vs : list Z) (v1 cap : Z) :
  2147483648 <= Z.of_nat (length vs) < cap -> cap < UINT_MOD ->
  (forall v, v ∈ vs -> m v = Some 0) -> m v1 = Some 1 ->
  exists h,
    push_all Z.ltb Z.leb m (Heap_Id_new cap) (vs ++ [v1]) = Ok h /\
    pop_n Z.ltb Z.leb m h (length (vs ++ [v1])) = Abort.
Proof.
  intros HN Hcap Hm0 Hm1. set (N := Z.of_nat (length vs) + 1).
  destruct (wf_new Z.leb m cap ltac:(lia)) as (Hwf0 & Hord0 & Hptrs0).
  (* the pushes of the elements with the key 0 *)
  destruct (push_all_ok Z.ltb Z.leb m Zle_total Zle_trans Zlt_le
              vs (Heap_Id_new cap))
    as (hA & HpA & HwfA & _ & HcA & HnA & HpermA).
  { exact Hwf0. }
  { exact Hord0. }
  { cbn [nb_elem Heap_Id_new capacity]. lia. }
  { intros v Hv. rewrite (Hm0 v Hv). eauto. }
  cbn [nb_elem capacity Heap_Id_new] in HnA, HcA.
  rewrite Hptrs0, app_nil_r in HpermA.
  assert (HnA' : nb_elem hA = N - 1) by lia. clear HnA.
  assert (HkA : forall k, 0 <= k < nb_elem hA -> key_at m hA k = Some 0).
  { intros k Hk.
    destruct (wf_nodes _ _ HwfA k Hk) as (a & e & id & Ha & Hma & _).
    pose proof (position_ptrs hA k a id Hk Ha) as Hin.
    rewrite HpermA in Hin.
    unfold key_at. rewrite Ha. cbn. apply Hm0, Hin. }
  (* the push of the element with the key 1: it stays at the last
     position *)
  set (hB := pushed hA v1).
  assert (HwfB : wf m hB) by (apply wf_pushed; eauto; lia).
  assert (HnB : nb_elem hB = N) by (cbn; lia).
  assert (HoneB : one_at m hB (N - 1)).
  { intros k Hk. rewrite HnB in Hk.
    destruct (Z.eqb_spec k (N - 1)) as [->|Hne].
    - rewrite <- HnA'. unfold key_at, hB.
      rewrite (pushed_new m hA v1 HwfA ltac:(lia)). cbn. exact Hm1.
    - rewrite <- (HkA k) by lia.
      apply key_at_lookup, pushed_old. lia. }
  assert (HpB : push Z.ltb Z.leb m hA v1 = Ok (hB, nb_elem hA)).
  { rewrite push_unfold by (auto; lia). fold hB.
    rewrite (raise_stays Z.ltb Z.leb m hB (nb_elem hA) 1 0);
      [reflexivity|exact HwfB|lia| | |reflexivity].
    - rewrite HoneB by lia. rewrite HnA', Z.eqb_refl. reflexivity.
    - destruct (Z.eqb_spec (nb_elem hA) 0); [lia|].
      rewrite HoneB by zlia.
      destruct (Z.eqb_spec ((nb_elem hA - 1) / 2) (N - 1)); [zlia|].
      reflexivity. }
  exists hB. split.
  { rewrite push_all_app, (bind_Ok _ _ _ HpA). cbn [push_all].
    rewrite (bind_Ok _ _ _ HpB). reflexivity. }
  (* the first pop *)
  rewrite length_app. cbn [length]. rewrite Nat.add_1_r. cbn [pop_n].
  assert (Hpop : pop Z.ltb Z.leb m hB = Abort); [|rewrite Hpop; reflexivity].
  pose proof (wf_cap _ _ HwfB) as HcapB. pose proof (wf_nb _ _ HwfB) as HnbB.
  destruct (swap_ok m hB 0 (N - 1) HwfB ltac:(lia) ltac:(lia))
    as (h1 & Hs & Hwf1 & Hc1 & Hn1 & Hlook & _).
  destruct (wf_nodes _ _ Hwf1 (N - 1) ltac:(lia)) as (a & e & id & Ha & _).
  unfold pop. rewrite (bind_Ok _ _ tt) by apply assert_valid_ok.
  rewrite HnB, (u32_small (N - 1)) by lia.
  rewrite (bind_Ok _ _ _ Hs), Hn1, HnB, (u32_small (N - 1)) by lia.
  rewrite (bind_rd _ (N - 1) _ _ ltac:(lia) Ha).
  set (h2 := set_nb_elem h1 (N - 1)).
  assert (Hwf2 : wf m h2).
  { destruct Hwf1 as [H1 H2 H3 H4 H5 H6].
    split; cbn; try lia; try assumption. intros k Hk. apply H6. lia. }
  assert (Hlow : lower Z.ltb Z.leb m h2 0 = Abort);
    [|rewrite Hlow; reflexivity].
  unfold lower, get_pos_left_son, get_pos_right_son.
  rewrite !bind_in_range by (cbn; rewrite u32_small; lia).
  rewrite !Ok_bind.
  rewrite (sink_aborts 31); [reflexivity|exact Hwf2|cbn; lia|lia|reflexivity| |
                             cbn; lia].
  intros k Hk. cbn in Hk.
  rewrite (key_at_lookup m hB h2 k (transpose 0 (N - 1) k))
    by (apply Hlook; lia).
  rewrite HoneB by (rewrite HnB; apply transpose_range; lia).
  unfold transpose.
  destruct (Z.eqb_spec k 0) as [->|Hk0]; [rewrite Z.eqb_refl; reflexivity|].
  destruct (Z.eqb_spec k (N - 1)); [lia|].
  destruct (Z.eqb_spec k (N - 1)); [lia | reflexivity].
Qed.

End Overflow.

(** C5, as stated, fails beyond [2^31] elements: in a heap of capacity
    [2^31 + 1] over the elements at the addresses [0 .. 2^31], of which the
    last has the key 1 and the others the key 0, the [2^31 + 1] pushes in the
    order of the addresses succeed and the first pop stops on a failed
    assertion.  The element with the key 1 is swapped to the root and goes
    down to position [2^31 - 1], where [2 * pos + 2] wraps to 0 and [lt] is
    called with the left son [2^32 - 1], outside [0 .. capacity - 1]. *)
Lemma big_heap_counterexample :
  exists h,
    push_all Z.ltb Z.leb big_mem (Heap_Id_new big) (seqZ 0 big) = Ok h /\
    pop_n Z.ltb Z.leb big_mem h (length (seqZ 0 big)) = Abort.
Proof.
  assert (Hseq : seqZ 0 big = seqZ 0 (big - 1) ++ [big - 1]).
  { replace big with ((big - 1) + 1) at 1 by (unfold big; lia).
    rewrite seqZ_app by (unfold big; lia). f_equal. }
  rewrite Hseq.
  apply (big_heap_pop_aborts big_mem (seqZ 0 (big - 1)) (big - 1) big).
  - rewrite length_seqZ. unfold big. lia.
  - unfold big. rewrite UINT_MOD_eq. lia.
  - intros v Hv. apply elem_of_seqZ in Hv. unfold big_mem.
    destruct (Z.eqb_spec v (big - 1)); [lia | reflexivity].
  - unfold big_mem. rewrite Z.eqb_refl. reflexivity.
Qed.

(** ** Dijkstra's algorithm *)

(** On the graph of the specification, run from the source 0, the distances
    are 0, 2, 1 and 3, and the path to 3 is printed from the target back to
    the source: 3 (3), 1 (2), 2 (1), then the literal line. *)
Lemma spec_graph_run :
  exists s,
    compute spec_graph 0 = Ok s /\
    vertices_dist s = [Some (mkVD 0 0 0); Some (mkVD 1 2 2);
                       Some (mkVD 2 1 0); Some (mkVD 3 3 1)] /\
    print_dijkstra spec_graph 0 3
      = Ok [Hop 3 3; Hop 1 2; Hop 2 1; Literal_n0].
Proof.
  eexists. split; [vm_compute; reflexivity|]. split; reflexivity.
Qed.

(** C1 fails on the code: on [clash_graph], run from the source 0, the path
    0 -> 1 -> 3 -> 2 has weight 4, but the third iteration of the main loop
    extracts vertex 2 with the distance 10 while vertex 3, at distance 3, is
    still in the heap (the vertices 3 and 4 were given the same handle 2, and
    the [reposition] that followed the relaxation of the edge 1 -> 3 moved
    vertex 4).  The next iteration relaxes the edge 3 -> 2 and calls
    [reposition] with [id_treated]: the run has undefined behaviour and no
    distance table is produced. *)
Theorem dijkstra_fails_on_clash_graph :
  path_weight clash_graph [0; 1; 3; 2] = Some 4 /\
  (exists s3,
      (s ← init clash_graph 0; steps 3 clash_graph s) = Ok s3 /\
      vertices_ids s3 = [id_treated; id_treated; id_treated; 2; 2] /\
      vertices_dist s3 !! 2%nat = Some (Some (mkVD 2 10 0)) /\
      vertices_dist s3 !! 3%nat = Some (Some (mkVD 3 3 1)) /\
      ptrs (heap s3) = [3; 4]) /\
  compute clash_graph 0 = Undef /\
  print_dijkstra clash_graph 0 2 = Undef.
Proof.
  split; [reflexivity|]. split; [|split; vm_compute; reflexivity].
  eexists. split; [vm_compute; reflexivity|].
  repeat split; reflexivity.
Qed.

(** C6 fails on the code: on [clash_graph], after three iterations vertex 2
    is finalized ([id_treated]) with the distance 10 and the predecessor 0.
    The fourth iteration pops vertex 3 (distance 3) and relaxes its edge to
    vertex 2 of weight 1: the test [vertices_ids[2] == id_undefined] fails,
    the distance 10 is greater than 4, and the lines 120-121 overwrite the
    distance and the predecessor of the finalized vertex with 4 and 3, before
    [reposition(id_treated)] reads outside [id_to_pos]. *)
Theorem finalized_vertex_rewritten :
  exists s3 r vd s4,
    (s ← init clash_graph 0; steps 3 clash_graph s) = Ok s3 /\
    vertices_ids s3 !! 2%nat = Some id_treated /\
    vertices_dist s3 !! 2%nat = Some (Some (mkVD 2 10 0)) /\
    pop vd_lt vd_le (mem_of (vertices_dist s3)) (heap s3) = Ok r /\
    rd_dist (vertices_dist s3) r.2 = Ok vd /\
    vd = mkVD 3 3 1 /\
    vertices clash_graph !! 3%nat = Some [(2, 1)] /\
    relax_write (mkState r.1 (vertices_ids s3) (vertices_dist s3)) vd (2, 1)
      = Ok s4 /\
    vertices_dist s4 !! 2%nat = Some (Some (mkVD 2 4 3)) /\
    relax (mkState r.1 (vertices_ids s3) (vertices_dist s3)) vd (2, 1)
      = Undef.
Proof.
  eexists _, _, _, _.
  split; [vm_compute; reflexivity|].
  split; [reflexivity|]. split; [reflexivity|].
  split; [vm_compute; reflexivity|].
  split; [vm_compute; reflexivity|].
  split; [reflexivity|]. split; [reflexivity|].
  split; [vm_compute; reflexivity|].
  split; [reflexivity|]. vm_compute. reflexivity.
Qed.

(** C4, as the code has it: a source or a target that is not below
    [nbr_vertices] stops the program on a failed assertion, before anything
    is computed. *)
Theorem out_of_range_aborts (g : Graph) (_from _to : Z) :
  nbr_vertices g <= _from \/ nbr_vertices g <= _to ->
  print_dijkstra g _from _to = Abort.
Proof.
  intros Hout. unfold print_dijkstra, assert.
  destruct (Z.ltb_spec _from (nbr_vertices g)); [|reflexivity].
  destruct (Z.ltb_spec _to (nbr_vertices g)); [lia | reflexivity].
Qed.

Lemma out_of_range_aborts_witness :
  print_dijkstra isolated_graph 0 5 = Abort.
Proof. apply out_of_range_aborts. right. cbn. lia. Defined.

(** C4, as stated, fails for the unreachable target: in [isolated_graph] the
    vertex 4 has no edge; the path from 0 to 4 is printed from
    [vertices_dist[4]], which was never assigned, and the run has undefined
    behaviour instead of a result. *)
Lemma unreachable_target_undefined :
  (exists s, compute isolated_graph 0 = Ok s /\
             vertices_ids s !! 4%nat = Some id_undefined /\
             vertices_dist s !! 4%nat = Some None) /\
  print_dijkstra isolated_graph 0 4 = Undef.
Proof.
  split; [|vm_compute; reflexivity].
  eexists. split; [vm_compute; reflexivity|]. split; reflexivity.
Qed.

(** C8 fails on the code: with the source and the target both equal to 2, the
    only line printed is the literal ["n0"], which names the vertex 0 and
    carries no distance. *)
Theorem same_source_and_target_prints_n0 :
  print_dijkstra spec_graph 2 2 = Ok [Literal_n0].
Proof. vm_compute. reflexivity. Qed.

(** * Further properties *)

(** ** Results of a sequence of statements *)

Lemma bind_Ok_inv {A B} (x : outcome A) (k : A -> outcome B) (b : B) :
  (x ≫= k) = Ok b -> exists a, x = Ok a /\ k a = Ok b.
Proof. destruct x as [a| | |]; [eauto | discriminate..]. Qed.

Lemma assert_Ok_inv (b : bool) (u : unit) : assert b = Ok u -> b = true.
Proof. destruct b; [reflexivity | discriminate]. Qed.

Lemma rd_Ok_inv {A} (a : list A) (i : Z) (x : A) :
  rd a i = Ok x -> 0 <= i /\ a !! Z.to_nat i = Some x.
Proof.
  unfold rd. destruct (Z.leb_spec 0 i); [|discriminate].
  destruct (i <? Z.of_nat (length a)); [|discriminate]. cbn.
  destruct (a !! Z.to_nat i); [|discriminate]. intros [= ->]. auto.
Qed.

Lemma wr_Ok_inv {A} (a a' : list A) (i : Z) (x : A) :
  wr a i x = Ok a' ->
  0 <= i < Z.of_nat (length a) /\ a' = <[Z.to_nat i := x]> a.
Proof.
  unfold wr. destruct (Z.leb_spec 0 i); [|discriminate].
  destruct (Z.ltb_spec i (Z.of_nat (length a))); [|discriminate]. cbn.
  intros [= <-]. auto with lia.
Qed.

Lemma rd_dist_Ok_inv (d : list (option Vertex_Distance)) (v : Z)
  (vd : Vertex_Distance) :
  rd_dist d v = Ok vd -> 0 <= v /\ d !! Z.to_nat v = Some (Some vd).
Proof.
  unfold rd_dist. intros H. apply bind_Ok_inv in H as (o & Ho & H).
  apply rd_Ok_inv in Ho as [Hv Ho]. destruct o; [|discriminate].
  injection H as ->. auto.
Qed.

(** Inversion of a sequence of statements that ends normally. *)
Ltac inv_ok H :=
  repeat match type of H with
         | (_ ≫= _) = Ok _ =>
             let a := fresh "a" in
             let Ha := fresh "Ha" in
             apply bind_Ok_inv in H as (a & Ha & H)
         end.

(** ** Dijkstra: the records are sound *)

Lemma table_ok_insert (g : Graph) (src t : Z) (vd : Vertex_Distance)
  (d : list (option Vertex_Distance)) :
  0 <= t -> table_ok g src d -> record_ok g src t vd ->
  table_ok g src (<[Z.to_nat t := Some vd]> d).
Proof.
  intros Ht Hd Hvd v vd' Hv Hlook.
  destruct (decide (v = t)) as [->|Hne].
  - destruct (decide (Z.to_nat t < length d)%nat) as [Hlt|Hge].
    + rewrite list_lookup_insert_eq in Hlook by exact Hlt. congruence.
    + rewrite list_insert_ge in Hlook by lia. apply Hd; assumption.
  - rewrite list_lookup_insert_ne in Hlook by lia. apply Hd; assumption.
Qed.

Lemma relax_table_ok (g : Graph) (src : Z) (s s' : state)
  (vd : Vertex_Distance) (e : Edge) :
  table_ok g src (vertices_dist s) ->
  walk g src (i vd) (distance vd) ->
  has_edge g (i vd) e.1 e.2 ->
  relax s vd e = Ok s' -> table_ok g src (vertices_dist s').
Proof.
  intros Hd Hw He H. unfold relax in H.
  apply bind_Ok_inv in H as (id & Hid & H).
  apply rd_Ok_inv in Hid as [Ht _].
  assert (Hnew : forall f, f = i vd ->
            record_ok g src e.1 (mkVD e.1 (distance vd + e.2) f)).
  { intros f ->. split; [reflexivity|]. split.
    - apply (walk_edge g src (i vd)); assumption.
    - right. exists e.2. exact He. }
  destruct (id =? id_undefined).
  - inv_ok H. apply wr_Ok_inv in Ha as [_ ->]. injection H as <-. cbn.
    apply table_ok_insert; auto.
  - apply bind_Ok_inv in H as (old & Hold & H).
    apply rd_dist_Ok_inv in Hold as [_ Hold].
    destruct (distance vd + e.2 <? distance old); [|injection H as <-; exact Hd].
    apply bind_Ok_inv in H as (s1 & Hs1 & H).
    inv_ok H. injection H as <-. cbn.
    unfold relax_write in Hs1. inv_ok Hs1.
    apply rd_dist_Ok_inv in Ha1 as [_ Ha1].
    apply wr_Ok_inv in Ha2 as [Hr ->].
    apply rd_dist_Ok_inv in Ha3 as [_ Ha3].
    apply wr_Ok_inv in Ha4 as [_ ->].
    injection Hs1 as <-. cbn.
    rewrite list_lookup_insert_eq in Ha3 by lia. injection Ha3 as <-. cbn.
    rewrite list_insert_insert_eq.
    apply table_ok_insert; auto.
    destruct (Hd e.1 a1 Ht Ha1) as (Hi & _). rewrite Hi. auto.
Qed.

Lemma relax_all_table_ok (g : Graph) (src : Z) (vd : Vertex_Distance)
  (es : list Edge) : forall s s' : state,
  table_ok g src (vertices_dist s) ->
  walk g src (i vd) (distance vd) ->
  (forall e, e ∈ es -> has_edge g (i vd) e.1 e.2) ->
  relax_all s vd es = Ok s' -> table_ok g src (vertices_dist s').
Proof.
  induction es as [|e es IH]; intros s s' Hd Hw Hes H; cbn in H.
  - injection H as <-. exact Hd.
  - apply bind_Ok_inv in H as (s1 & Hs1 & H).
    apply (IH s1 s'); [|exact Hw| |exact H].
    + apply (relax_table_ok g src s s1 vd e); auto. apply Hes. left.
    + intros e' He'. apply Hes. right. exact He'.
Qed.

Lemma step_table_ok (g : Graph) (src : Z) (s s' : state) :
  table_ok g src (vertices_dist s) ->
  step g s = Ok s' -> table_ok g src (vertices_dist s').
Proof.
  intros Hd H. unfold step in H.
  apply bind_Ok_inv in H as (r & _ & H).
  apply bind_Ok_inv in H as (vd & Hvd & H).
  apply bind_Ok_inv in H as (es & Hes & H).
  apply bind_Ok_inv in H as (s1 & Hs1 & H).
  apply bind_Ok_inv in H as (ids & _ & H).
  injection H as <-. cbn.
  apply rd_dist_Ok_inv in Hvd as [Hr Hvd].
  apply rd_Ok_inv in Hes as [Hi Hes].
  destruct (Hd r.2 vd Hr Hvd) as (Hivd & Hw & _).
  refine (relax_all_table_ok g src vd es _ s1 _ _ _ Hs1); [exact Hd| |].
  - rewrite Hivd. exact Hw.
  - intros [t w] He. split; [exact Hi|]. exists es. auto.
Qed.

Lemma main_loop_table_ok (g : Graph) (src : Z) (fuel : nat) :
  forall s s' : state,
  table_ok g src (vertices_dist s) ->
  main_loop fuel g s = Ok s' -> table_ok g src (vertices_dist s').
Proof.
  induction fuel as [|fuel IH]; intros s s' Hd H; cbn in H;
    (destruct (is_empty (heap s)); [injection H as <-; exact Hd|]).
  - discriminate.
  - apply bind_Ok_inv in H as (s1 & Hs1 & H).
    apply (IH s1 s'); [|exact H]. apply (step_table_ok g src s); assumption.
Qed.

Lemma init_table_ok (g : Graph) (src : Z) (s : state) :
  init g src = Ok s ->
  table_ok g src (vertices_dist s) /\
  vertices_dist s !! Z.to_nat src = Some (Some (mkVD src 0 src)).
Proof.
  intros H. unfold init in H.
  apply bind_Ok_inv in H as (d & Hd & H).
  apply bind_Ok_inv in H as (r & _ & H).
  apply bind_Ok_inv in H as (ids & _ & H).
  injection H as <-. cbn.
  apply wr_Ok_inv in Hd as [Hsrc ->]. split.
  - apply table_ok_insert; [lia| |].
    + intros v vd Hv Hlook. apply lookup_replicate in Hlook as [? _].
      discriminate.
    + split; [reflexivity|]. split; [constructor|]. left. auto.
  - apply list_lookup_insert_eq. lia.
Qed.

Lemma compute_table_ok (g : Graph) (src : Z) (s : state) :
  compute g src = Ok s -> table_ok g src (vertices_dist s).
Proof.
  intros H. unfold compute in H.
  apply bind_Ok_inv in H as (s0 & Hs0 & H).
  apply init_table_ok in Hs0 as [Hd0 _].
  exact (main_loop_table_ok g src _ s0 s Hd0 H).
Qed.



Lemma print_path_real (g : Graph) (src : Z)
  (d : list (option Vertex_Distance)) (fuel : nat) :
  table_ok g src d ->
  forall (cur : Z) (out : list line),
  print_path fuel d src cur = Ok out ->
  exists hops, out = (hop_line <$> hops) ++ [Literal_n0] /\
               real_path g src cur hops.
Proof.
  intros Hd. induction fuel as [|fuel IH]; intros cur out H; cbn in H;
    (destruct (Z.eqb_spec cur src) as [->|Hne];
     [injection H as <-; exists []; split; reflexivity|]).
  - discriminate.
  - apply bind_Ok_inv in H as (vd & Hvd & H).
    apply bind_Ok_inv in H as (out' & Hout' & H).
    injection H as <-.
    apply rd_dist_Ok_inv in Hvd as [Hcur Hvd].
    destruct (Hd cur vd Hcur Hvd) as (Hi & Hw & Hpred).
    destruct (IH _ _ Hout') as (hops & -> & Hreal).
    exists ((cur, distance vd) :: hops). split.
    + cbn. unfold hop_line at 1. cbn. rewrite Hi. reflexivity.
    + cbn. split; [reflexivity|]. split; [exact Hne|].
      split; [exact Hw|].
      destruct Hpred as [[? _]|[w He]]; [contradiction|].
      exists (from vd), w. auto.
Qed.



Lemma walk_nonneg (g : Graph) (src v d : Z) :
  nonneg_weights g -> walk g src v d -> 0 <= d.
Proof.
  intros Hg Hw. induction Hw as [|u v d w _ IH He]; [lia|].
  pose proof (Hg u v w He). lia.
Qed.

Lemma relax_source_kept (g : Graph) (src : Z) (s s' : state)
  (vd : Vertex_Distance) (e : Edge) :
  nonneg_weights g -> 0 <= src ->
  walk g src (i vd) (distance vd) ->
  has_edge g (i vd) e.1 e.2 ->
  source_kept src s ->
  relax s vd e = Ok s' -> source_kept src s'.
Proof.
  intros Hg Hsrc Hw He [(idv & Hidv & Hne) Hrec] H. unfold relax in H.
  apply bind_Ok_inv in H as (id & Hid & H).
  apply rd_Ok_inv in Hid as [Ht Hid].
  pose proof (walk_nonneg g src _ _ Hg Hw) as Hd.
  pose proof (Hg _ _ _ He) as Hw0.
  destruct (Z.eqb_spec id id_undefined) as [->|Hdef].
  - assert (Hts : e.1 <> src) by (intros Heq; rewrite Heq in Hid; congruence).
    inv_ok H. apply wr_Ok_inv in Ha as [_ ->].
    apply wr_Ok_inv in Ha1 as [_ ->]. injection H as <-. unfold source_kept; cbn [vertices_ids vertices_dist heap].
    split; [exists idv; split; [|exact Hne]|];
      rewrite list_lookup_insert_ne by lia; assumption.
  - apply bind_Ok_inv in H as (old & Hold & H).
    apply rd_dist_Ok_inv in Hold as [_ Hold].
    destruct (Z.ltb_spec (distance vd + e.2) (distance old)) as [Hlt|Hge];
      [|injection H as <-; split; eauto].
    assert (Hts : e.1 <> src).
    { intros Heq. rewrite Heq, Hrec in Hold. injection Hold as <-.
      cbn in Hlt. lia. }
    apply bind_Ok_inv in H as (s1 & Hs1 & H).
    inv_ok H. injection H as <-. unfold source_kept; cbn [vertices_ids vertices_dist heap].
    unfold relax_write in Hs1. inv_ok Hs1.
    apply wr_Ok_inv in Ha2 as [Hr ->].
    apply wr_Ok_inv in Ha4 as [_ ->].
    injection Hs1 as <-. unfold source_kept; cbn [vertices_ids vertices_dist heap].
    split; [exists idv; auto|].
    rewrite !list_lookup_insert_ne by lia. exact Hrec.
Qed.

Lemma push_handle_inv {Element : Type} (elt_lt elt_le : Element -> Element -> bool)
  (m : Mem) (h : Heap_Id) (v : Z) (r : Heap_Id * Z) :
  push elt_lt elt_le m h v = Ok r -> rd (id_free h) (nb_elem h) = Ok r.2.
Proof.
  intros H. unfold push in H.
  apply bind_Ok_inv in H as (u1 & _ & H).
  apply bind_Ok_inv in H as (u2 & _ & H).
  apply bind_Ok_inv in H as (id & Hid & H).
  inv_ok H. injection H as <-. exact Hid.
Qed.

Lemma relax_all_source_kept (g : Graph) (src : Z) (vd : Vertex_Distance)
  (es : list Edge) : forall s s' : state,
  nonneg_weights g -> 0 <= src ->
  walk g src (i vd) (distance vd) ->
  (forall e, e ∈ es -> has_edge g (i vd) e.1 e.2) ->
  source_kept src s ->
  relax_all s vd es = Ok s' -> source_kept src s'.
Proof.
  induction es as [|e es IH]; intros s s' Hg Hsrc Hw Hes Hk H; cbn in H.
  - injection H as <-. exact Hk.
  - apply bind_Ok_inv in H as (s1 & Hs1 & H).
    refine (IH s1 s' Hg Hsrc Hw _ _ H).
    + intros e' He'. apply Hes. right. exact He'.
    + refine (relax_source_kept g src s s1 vd e Hg Hsrc Hw _ Hk Hs1).
      apply Hes. left.
Qed.

Lemma step_source_kept (g : Graph) (src : Z) (s s' : state) :
  nonneg_weights g -> 0 <= src ->
  table_ok g src (vertices_dist s) -> source_kept src s ->
  step g s = Ok s' -> source_kept src s'.
Proof.
  intros Hg Hsrc Hd Hk H. unfold step in H.
  apply bind_Ok_inv in H as (r & _ & H).
  apply bind_Ok_inv in H as (vd & Hvd & H).
  apply bind_Ok_inv in H as (es & Hes & H).
  apply bind_Ok_inv in H as (s1 & Hs1 & H).
  apply bind_Ok_inv in H as (ids & Hids & H).
  injection H as <-.
  apply rd_dist_Ok_inv in Hvd as [Hr Hvd].
  apply rd_Ok_inv in Hes as [Hi Hes].
  apply wr_Ok_inv in Hids as [Hrange ->].
  destruct (Hd r.2 vd Hr Hvd) as (Hivd & Hw & _).
  assert (Hk1 : source_kept src s1).
  { refine (relax_all_source_kept g src vd es _ s1 Hg Hsrc _ _ _ Hs1).
    - rewrite Hivd. exact Hw.
    - intros [t w] He. split; [exact Hi|]. exists es. auto.
    - destruct Hk as [[idv [H1 H2]] H3]. split; eauto. }
  destruct Hk1 as [(idv & Hidv & Hne) Hrec].
  unfold source_kept; cbn [vertices_ids vertices_dist heap].
  split; [|exact Hrec].
  destruct (decide (i vd = src)) as [Heq|Hneq].
  - exists id_treated. rewrite Heq in *.
    rewrite list_lookup_insert_eq by lia. split; [reflexivity|discriminate].
  - exists idv. rewrite list_lookup_insert_ne by lia. auto.
Qed.

Lemma main_loop_source_kept (g : Graph) (src : Z) (fuel : nat) :
  nonneg_weights g -> 0 <= src ->
  forall s s' : state,
  table_ok g src (vertices_dist s) -> source_kept src s ->
  main_loop fuel g s = Ok s' -> source_kept src s'.
Proof.
  intros Hg Hsrc.
  induction fuel as [|fuel IH]; intros s s' Hd Hk H; cbn in H;
    (destruct (is_empty (heap s)); [injection H as <-; exact Hk|]).
  - discriminate.
  - apply bind_Ok_inv in H as (s1 & Hs1 & H).
    apply (IH s1 s'); [| |exact H].
    + apply (step_table_ok g src s); assumption.
    + apply (step_source_kept g src s); assumption.
Qed.

Lemma init_source_kept (g : Graph) (src : Z) (s : state) :
  init g src = Ok s -> source_kept src s.
Proof.
  intros H. pose proof (init_table_ok g src s H) as [_ Hrec].
  unfold init in H.
  apply bind_Ok_inv in H as (d & Hd & H).
  apply bind_Ok_inv in H as (r & Hr & H).
  apply bind_Ok_inv in H as (ids & Hids & H).
  injection H as <-. split; [|exact Hrec]. cbn.
  apply wr_Ok_inv in Hids as [Hrange ->].
  apply push_handle_inv in Hr. cbn in Hr.
  apply rd_Ok_inv in Hr as [_ Hr]. apply lookup_seqZ in Hr as [Hr _].
  exists (to_int r.2). rewrite list_lookup_insert_eq by lia.
  split; [reflexivity|]. rewrite Hr. discriminate.
Qed.

(** X3: on a graph whose weights are non-negative, a computation that
    completes leaves the source with the distance 0 and itself as
    predecessor, and every recorded distance is non-negative. *)
Theorem source_record_kept (g : Graph) (src : Z) (s : state) :
  nonneg_weights g ->
  compute g src = Ok s ->
  vertices_dist s !! Z.to_nat src = Some (Some (mkVD src 0 src)) /\
  (forall v vd, 0 <= v ->
     vertices_dist s !! Z.to_nat v = Some (Some vd) -> 0 <= distance vd).
Proof.
  intros Hg H. pose proof (compute_table_ok g src s H) as Hd.
  split.
  - unfold compute in H.
    apply bind_Ok_inv in H as (s0 & Hs0 & H).
    assert (Hsrc : 0 <= src).
    { unfold init in Hs0. apply bind_Ok_inv in Hs0 as (d & Hw & _).
      apply wr_Ok_inv in Hw. lia. }
    pose proof (init_table_ok g src s0 Hs0) as [Hd0 _].
    apply init_source_kept in Hs0.
    exact (proj2 (main_loop_source_kept g src _ Hg Hsrc s0 s Hd0 Hs0 H)).
  - intros v vd Hv Hlook. destruct (Hd v vd Hv Hlook) as (_ & Hw & _).
    exact (walk_nonneg g src v _ Hg Hw).
Qed.

Lemma spec_graph_nonneg : nonneg_weights spec_graph.
Proof.
  intros u v w (Hu & es & Hes & Hin).
  destruct (Z.to_nat u) as [|[|[|[|n]]]]; cbn in Hes; try discriminate;
    injection Hes as <-;
    repeat (apply elem_of_cons in Hin as [[= -> ->]|Hin]; [lia|]);
    inversion Hin.
Qed.

Lemma source_record_kept_witness :
  exists s, compute spec_graph 0 = Ok s /\
    vertices_dist s !! Z.to_nat 0 = Some (Some (mkVD 0 0 0)) /\
    (forall v vd, 0 <= v ->
       vertices_dist s !! Z.to_nat v = Some (Some vd) -> 0 <= distance vd).
Proof.
  eexists. split; [vm_compute; reflexivity|].
  apply (source_record_kept spec_graph 0 _ spec_graph_nonneg).
  vm_compute. reflexivity.
Defined.

(** ** The indexed heap: what the operations leave unchanged *)

Lemma in_range_inv (value min max : Z) (u : unit) :
  ASSERT_IN_RANGE value min max = Ok u -> min <= value <= max.
Proof.
  unfold ASSERT_IN_RANGE. intros H.
  apply bind_Ok_inv in H as (u1 & H1 & H2).
  apply assert_Ok_inv in H1. apply assert_Ok_inv in H2. lia.
Qed.

Lemma swap_inv (h : Heap_Id) (a b : Z) (h' : Heap_Id) :
  swap h a b = Ok h' ->
  exists na nb,
    0 <= a <= u32 (capacity h - 1) /\ 0 <= b <= u32 (capacity h - 1) /\
    elements h !! Z.to_nat a = Some na /\
    elements h !! Z.to_nat b = Some nb /\
    0 <= na.2 < Z.of_nat (length (id_to_pos h)) /\
    0 <= nb.2 < Z.of_nat (length (id_to_pos h)) /\
    h' = mkHeap (capacity h)
           (<[Z.to_nat b := na]> (<[Z.to_nat a := nb]> (elements h)))
           (nb_elem h)
           (<[Z.to_nat nb.2 := Some a]>
              (<[Z.to_nat na.2 := Some b]> (id_to_pos h)))
           (id_free h).
Proof.
  unfold swap. intros H.
  apply bind_Ok_inv in H as (u1 & Hra & H). apply in_range_inv in Hra.
  apply bind_Ok_inv in H as (u2 & Hrb & H). apply in_range_inv in Hrb.
  apply bind_Ok_inv in H as (na & Hna & H). apply rd_Ok_inv in Hna as [_ Hna].
  apply bind_Ok_inv in H as (t1 & Ht1 & H). apply wr_Ok_inv in Ht1 as [Hi1 ->].
  apply bind_Ok_inv in H as (nb & Hnb & H). apply rd_Ok_inv in Hnb as [_ Hnb].
  apply bind_Ok_inv in H as (t2 & Ht2 & H). apply wr_Ok_inv in Ht2 as [Hi2 ->].
  apply bind_Ok_inv in H as (e1 & He1 & H). apply wr_Ok_inv in He1 as [_ ->].
  apply bind_Ok_inv in H as (e2 & He2 & H). apply wr_Ok_inv in He2 as [_ ->].
  injection H as <-. rewrite length_insert in Hi2.
  exists na, nb. repeat split; try assumption; lia.
Qed.

Lemma frame_refl (h : Heap_Id) : frame h h.
Proof. repeat split. Qed.

Lemma frame_trans (h1 h2 h3 : Heap_Id) : frame h1 h2 -> frame h2 h3 -> frame h1 h3.
Proof. unfold frame. intros (?&?&?&?&?) (?&?&?&?&?). repeat split; congruence. Qed.

Lemma swap_frame (h : Heap_Id) (a b : Z) (h' : Heap_Id) :
  swap h a b = Ok h' -> frame h h'.
Proof.
  intros H. apply swap_inv in H as (na & nb & _ & _ & _ & _ & _ & _ & ->).
  unfold frame. cbn. rewrite !length_insert. repeat split.
Qed.

Section Frame.
Context {Element : Type}.
Variable elt_lt elt_le : Element -> Element -> bool.
Variable m : Mem (Element := Element).

Lemma raise_loop_frame (fuel : nat) : forall (h : Heap_Id) (pos f : Z) (h' : Heap_Id),
  raise_loop elt_lt fuel m h pos f = Ok h' -> frame h h'.
Proof.
  induction fuel as [|fuel IH]; intros h pos f h' H; [discriminate|].
  cbn [raise_loop] in H.
  apply bind_Ok_inv in H as ([|] & _ & H).
  - apply bind_Ok_inv in H as (h1 & Hs & H).
    apply bind_Ok_inv in H as (f' & _ & H).
    apply swap_frame in Hs. apply IH in H. exact (frame_trans _ _ _ Hs H).
  - injection H as <-. apply frame_refl.
Qed.

Lemma lower_loop_frame (fuel : nat) : forall (h : Heap_Id) (pos l r : Z) (h' : Heap_Id),
  lower_loop elt_lt fuel m h pos l r = Ok h' -> frame h h'.
Proof.
  induction fuel as [|fuel IH]; intros h pos l r h' H; [discriminate|].
  cbn [lower_loop] in H.
  apply bind_Ok_inv in H as (c1 & _ & H).
  apply bind_Ok_inv in H as ([|] & _ & H).
  - apply bind_Ok_inv in H as (c2 & _ & H).
    apply bind_Ok_inv in H as (h1 & Hs & H).
    apply bind_Ok_inv in H as (l' & _ & H).
    apply bind_Ok_inv in H as (r' & _ & H).
    apply swap_frame in Hs. apply IH in H. exact (frame_trans _ _ _ Hs H).
  - injection H as <-. apply frame_refl.
Qed.

Lemma raise_frame (h : Heap_Id) (pos : Z) (h' : Heap_Id) :
  raise elt_lt elt_le m h pos = Ok h' -> frame h h'.
Proof.
  unfold raise. intros H.
  apply bind_Ok_inv in H as (u & _ & H).
  apply bind_Ok_inv in H as (f & _ & H).
  apply bind_Ok_inv in H as (h1 & Hl & H).
  apply bind_Ok_inv in H as (u' & _ & H). injection H as <-.
  exact (raise_loop_frame _ _ _ _ _ Hl).
Qed.

Lemma lower_frame (h : Heap_Id) (pos : Z) (h' : Heap_Id) :
  lower elt_lt elt_le m h pos = Ok h' -> frame h h'.
Proof.
  unfold lower. intros H.
  apply bind_Ok_inv in H as (u & _ & H).
  apply bind_Ok_inv in H as (l & _ & H).
  apply bind_Ok_inv in H as (r & _ & H).
  apply bind_Ok_inv in H as (h1 & Hl & H).
  apply bind_Ok_inv in H as (u' & _ & H). injection H as <-.
  exact (lower_loop_frame _ _ _ _ _ _ Hl).
Qed.

Lemma push_inv (h : Heap_Id) (v : Z) (r : Heap_Id * Z) :
  push elt_lt elt_le m h v = Ok r ->
  nb_elem h < capacity h /\
  0 <= nb_elem h < Z.of_nat (length (elements h)) /\
  id_free h !! Z.to_nat (nb_elem h) = Some r.2 /\
  capacity r.1 = capacity h /\ id_free r.1 = id_free h /\
  nb_elem r.1 = u32 (nb_elem h + 1) /\
  length (elements r.1) = length (elements h) /\
  length (id_to_pos r.1) = length (id_to_pos h).
Proof.
  unfold push. intros H.
  apply bind_Ok_inv in H as (u & _ & H).
  apply bind_Ok_inv in H as (u1 & Hroom & H).
  apply assert_Ok_inv, Z.ltb_lt in Hroom.
  apply bind_Ok_inv in H as (i & Hi & H). apply rd_Ok_inv in Hi as [_ Hi].
  apply bind_Ok_inv in H as (e & He & H). apply wr_Ok_inv in He as [Hn ->].
  apply bind_Ok_inv in H as (t & Ht & H). apply wr_Ok_inv in Ht as [_ ->].
  apply bind_Ok_inv in H as (h2 & Hr & H).
  apply bind_Ok_inv in H as (u2 & _ & H). injection H as <-.
  apply raise_frame in Hr as (Hc & Hnb & Hf & Hle & Hlt). cbn in *.
  rewrite !length_insert in *. auto 10.
Qed.

Lemma pop_inv (h : Heap_Id) (r : Heap_Id * Z) :
  pop elt_lt elt_le m h = Ok r ->
  0 <= u32 (nb_elem h - 1) < Z.of_nat (length (elements h)) /\
  capacity r.1 = capacity h /\ id_free r.1 = id_free h /\
  nb_elem r.1 = u32 (nb_elem h - 1) /\
  length (elements r.1) = length (elements h) /\
  length (id_to_pos r.1) = length (id_to_pos h).
Proof.
  unfold pop. intros H.
  apply bind_Ok_inv in H as (u & _ & H).
  apply bind_Ok_inv in H as (h1 & Hs & H).
  apply bind_Ok_inv in H as (n & _ & H).
  apply bind_Ok_inv in H as (h3 & Hl & H).
  apply bind_Ok_inv in H as (u2 & _ & H).
  destruct n.1; [|discriminate]. injection H as <-.
  apply swap_inv in Hs as (na & nb & _ & Hb & _ & Hnb & _ & _ & ->).
  apply lookup_lt_Some in Hnb.
  apply lower_frame in Hl as (Hc & Hnb' & Hf & Hle & Hlt). cbn in *.
  rewrite !length_insert in *. 
  repeat split; try assumption; lia.
Qed.

Lemma reposition_frame (h : Heap_Id) (id : Z) (h' : Heap_Id) :
  reposition elt_lt elt_le m h id = Ok h' -> frame h h'.
Proof.
  unfold reposition. intros H.
  apply bind_Ok_inv in H as (p & _ & H).
  apply bind_Ok_inv in H as (p' & _ & H).
  apply bind_Ok_inv in H as (h1 & Hr & H).
  apply bind_Ok_inv in H as (q & _ & H).
  apply bind_Ok_inv in H as (q' & _ & H).
  apply raise_frame in Hr. apply lower_frame in H.
  exact (frame_trans _ _ _ Hr H).
Qed.

End Frame.

Section ReachFacts.
Context {Element : Type}.
Variable elt_lt elt_le : Element -> Element -> bool.

Lemma reach_inv (cap : Z) (h : Heap_Id) :
  0 <= cap < UINT_MOD -> reach elt_lt elt_le cap h ->
  capacity h = cap /\ id_free h = seqZ 0 cap /\ 0 <= nb_elem h <= cap /\
  Z.of_nat (length (elements h)) = cap.
Proof.
  intros Hcap Hr. induction Hr as [|m h v r _ IH Hp|m h r _ IH Hp|m h id h' _ IH Hp].
  - cbn. rewrite length_replicate. repeat split; lia.
  - destruct IH as (Hc & Hf & Hn & Hl).
    apply push_inv in Hp as (Hroom & _ & _ & Hc' & Hf' & Hn' & Hl' & _).
    rewrite u32_small in Hn' by lia.
    repeat split; try congruence; try lia.
  - destruct IH as (Hc & Hf & Hn & Hl).
    apply pop_inv in Hp as (Hb & Hc' & Hf' & Hn' & Hl' & _).
    assert (Hpos : 0 < nb_elem h).
    { destruct (decide (nb_elem h = 0)) as [Hz|]; [|lia].
      rewrite Hz in Hb. change (u32 (0 - 1)) with 4294967295 in Hb.
      rewrite UINT_MOD_eq in Hcap. lia. }
    rewrite u32_small in Hn' by lia.
    repeat split; try congruence; try lia.
  - destruct IH as (Hc & Hf & Hn & Hl).
    apply reposition_frame in Hp as (Hc' & Hn' & Hf' & Hl' & _).
    repeat split; try congruence; try lia.
Qed.

(** X4: in every state a heap reaches from its constructor through [push],
    [pop] and [reposition], [push] returns the current number of elements as
    the handle, whatever was popped before; [push] adds one to the number of
    elements, [pop] is only completed on a heap that is not empty and takes
    one off, and [reposition] leaves the number as it is. *)
Theorem push_returns_number_of_elements (cap : Z) (h : Heap_Id) :
  0 <= cap < UINT_MOD -> reach elt_lt elt_le cap h ->
  (forall m v r, push elt_lt elt_le m h v = Ok r ->
     r.2 = nb_elem h /\ nb_elem r.1 = nb_elem h + 1) /\
  (forall m r, pop elt_lt elt_le m h = Ok r ->
     0 < nb_elem h /\ nb_elem r.1 = nb_elem h - 1) /\
  (forall m id h', reposition elt_lt elt_le m h id = Ok h' ->
     nb_elem h' = nb_elem h).
Proof.
  intros Hcap Hr. destruct (reach_inv cap h Hcap Hr) as (Hc & Hf & Hn & Hl).
  split; [|split].
  - intros m v r Hp.
    apply push_inv in Hp as (Hroom & _ & Hi & _ & _ & Hn' & _).
    rewrite Hf, lookup_seqZ in Hi. destruct Hi as [Hi _].
    rewrite u32_small in Hn' by lia. split; [lia | exact Hn'].
  - intros m r Hp. apply pop_inv in Hp as (Hb & _ & _ & Hn' & _).
    assert (Hpos : 0 < nb_elem h).
    { destruct (decide (nb_elem h = 0)) as [Hz|]; [|lia].
      rewrite Hz in Hb. change (u32 (0 - 1)) with 4294967295 in Hb.
      rewrite UINT_MOD_eq in Hcap. lia. }
    rewrite u32_small in Hn' by lia. auto.
  - intros m id h' Hp. apply reposition_frame in Hp as (_ & Hn' & _). exact Hn'.
Qed.
End ReachFacts.

Lemma push_returns_number_of_elements_witness :
  (forall m v r, pushZ m two_heap v = Ok r ->
     r.2 = nb_elem two_heap /\ nb_elem r.1 = nb_elem two_heap + 1) /\
  (forall m r, popZ m two_heap = Ok r ->
     0 < nb_elem two_heap /\ nb_elem r.1 = nb_elem two_heap - 1) /\
  (forall m id h', repositionZ m two_heap id = Ok h' ->
     nb_elem h' = nb_elem two_heap).
Proof.
  apply (push_returns_number_of_elements Z.ltb Z.leb 3).
  - rewrite UINT_MOD_eq. lia.
  - apply (reach_push Z.ltb Z.leb 3 (mem_list [1; 5])
             (mkHeap 3 [(Some 0, 0); (None, 0); (None, 0)] 1
                     [Some 0; None; None] [0; 1; 2])
             1 (two_heap, 1)); [|reflexivity].
    apply (reach_push Z.ltb Z.leb 3 (mem_list [1; 5]) (Heap_Id_new 3) 0
             (mkHeap 3 [(Some 0, 0); (None, 0); (None, 0)] 1
                     [Some 0; None; None] [0; 1; 2], 0));
      [apply reach_new | reflexivity].
Defined.

(** ** The indexed heap: what the handles lead to *)

Lemma transpose_invol (a b k : Z) : transpose a b (transpose a b k) = k.
Proof. unfold transpose. repeat case_match; lia. Qed.

Lemma resolves_live (h : Heap_Id) (id a : Z) :
  ids_ok h -> resolves h id a <-> live h (Some a, id).
Proof.
  intros Hids. split.
  - intros (_ & k & _ & Hk & Hn). exists k. auto.
  - intros (k & Hk & Hn). destruct (Hids k _ Hk Hn) as [Hid Ht].
    split; [exact Hid|]. exists k. auto.
Qed.

Lemma swap_kept (h : Heap_Id) (a b : Z) (h' : Heap_Id) :
  0 <= a < nb_elem h -> 0 <= b < nb_elem h -> swap h a b = Ok h' ->
  ids_ok h ->
  nb_elem h' = nb_elem h /\ ids_ok h' /\ (forall n, live h' n <-> live h n).
Proof.
  intros Ha Hb Hs Hids.
  apply swap_inv in Hs as (na & nb & _ & _ & Hna & Hnb & Hia & Hib & ->).
  assert (Hlook : forall k, 0 <= k ->
    <[Z.to_nat b := na]> (<[Z.to_nat a := nb]> (elements h)) !! Z.to_nat k
    = elements h !! Z.to_nat (transpose a b k)).
  { intros k Hk. apply lookup_swapped; auto; lia. }
  destruct (Hids a na Ha Hna) as [Hida Hta].
  destruct (Hids b nb Hb Hnb) as [Hidb Htb].
  split; [reflexivity|]. split.
  - intros k n Hk Hn. cbn in Hk, Hn |- *. rewrite Hlook in Hn by lia.
    pose proof (transpose_range a b k (nb_elem h) Ha Hb Hk) as Hk'.
    destruct (Hids _ n Hk' Hn) as [Hid Ht]. split; [exact Hid|].
    destruct (decide (n.2 = nb.2)) as [Heq|Hne].
    + rewrite Heq in *. rewrite list_lookup_insert_eq
        by (rewrite length_insert; lia).
      assert (transpose a b k = b) as Hkb by congruence.
      rewrite <- (transpose_invol a b k), Hkb, transpose_r. reflexivity.
    + rewrite list_lookup_insert_ne by lia.
      destruct (decide (n.2 = na.2)) as [Heq|Hne'].
      * rewrite Heq in *. rewrite list_lookup_insert_eq by lia.
        assert (transpose a b k = a) as Hka by congruence.
        rewrite <- (transpose_invol a b k), Hka, transpose_l. reflexivity.
      * rewrite list_lookup_insert_ne by lia. rewrite Ht.
        assert (transpose a b k <> a) by (intros E; rewrite E in Hn; congruence).
        assert (transpose a b k <> b) by (intros E; rewrite E in Hn; congruence).
        rewrite <- (transpose_invol a b k) at 2.
        rewrite (transpose_other a b (transpose a b k)) by assumption.
        reflexivity.
  - intros n. split; intros (k & Hk & Hn); cbn in Hk, Hn |- *.
    + rewrite Hlook in Hn by lia. exists (transpose a b k).
      split; [apply transpose_range; assumption | exact Hn].
    + exists (transpose a b k). cbn.
      split; [apply transpose_range; assumption|].
      pose proof (transpose_range a b k (nb_elem h) Ha Hb Hk).
      rewrite Hlook by lia. rewrite transpose_invol. exact Hn.
Qed.

Lemma get_pos_father_inv (h : Heap_Id) (i f : Z) :
  get_pos_father h i = Ok f -> 0 <= i ->
  i < UINT_MOD /\ f = (if i =? 0 then 0 else (i - 1) / 2).
Proof.
  unfold get_pos_father. intros H Hi.
  apply bind_Ok_inv in H as (u & Hr & H). apply in_range_inv in Hr.
  apply bind_Ok_inv in H as (u' & _ & H). injection H as <-.
  assert (Hlt : i < UINT_MOD) by (unfold u32 in Hr; rewrite UINT_MOD_eq in *; zlia).
  split; [exact Hlt|].
  destruct (Z.eqb_spec i 0); [reflexivity|].
  rewrite (u32_small (i - 1)) by lia. apply father_by_halving. lia.
Qed.

Lemma get_pos_left_son_inv (h : Heap_Id) (i l : Z) :
  get_pos_left_son h i = Ok l -> l = u32 (2 * i + 1).
Proof.
  unfold get_pos_left_son. intros H.
  apply bind_Ok_inv in H as (u & _ & H). congruence.
Qed.

Lemma get_pos_right_son_inv (h : Heap_Id) (i r : Z) :
  get_pos_right_son h i = Ok r -> r = u32 (2 * i + 2).
Proof.
  unfold get_pos_right_son. intros H.
  apply bind_Ok_inv in H as (u & _ & H). congruence.
Qed.

Section Kept.

Context {Element : Type}.
Variable elt_lt elt_le : Element -> Element -> bool.
Variable m : Mem (Element := Element).

Lemma raise_loop_kept (fuel : nat) : forall (h : Heap_Id) (pos : Z) (h' : Heap_Id),
  0 <= pos < nb_elem h ->
  raise_loop elt_lt fuel m h pos (if pos =? 0 then 0 else (pos - 1) / 2)
    = Ok h' ->
  ids_ok h ->
  nb_elem h' = nb_elem h /\ ids_ok h' /\ (forall n, live h' n <-> live h n).
Proof.
  induction fuel as [|fuel IH]; intros h pos h' Hpos H Hids; [discriminate|].
  cbn [raise_loop] in H.
  set (f := if pos =? 0 then 0 else (pos - 1) / 2) in *.
  assert (Hf : 0 <= f < nb_elem h)
    by (subst f; destruct (Z.eqb_spec pos 0); zlia).
  apply bind_Ok_inv in H as ([|] & _ & H).
  - apply bind_Ok_inv in H as (h1 & Hs & H).
    apply bind_Ok_inv in H as (f' & Hf' & H).
    destruct (swap_kept h pos f h1 Hpos Hf Hs Hids) as (Hn1 & Hids1 & Hl1).
    apply get_pos_father_inv in Hf' as [_ ->]; [|lia].
    destruct (IH h1 f h' ltac:(lia) H Hids1) as (Hn' & Hids' & Hl').
    split; [lia|]. split; [exact Hids'|].
    intros n. rewrite Hl', Hl1. reflexivity.
  - injection H as <-. split; [reflexivity|]. split; [exact Hids|]. reflexivity.
Qed.

Lemma lower_loop_kept (fuel : nat) : forall (h : Heap_Id) (pos : Z) (h' : Heap_Id),
  0 <= pos -> 2 * nb_elem h < UINT_MOD ->
  lower_loop elt_lt fuel m h pos (2 * pos + 1) (2 * pos + 2) = Ok h' ->
  ids_ok h ->
  nb_elem h' = nb_elem h /\ ids_ok h' /\ (forall n, live h' n <-> live h n).
Proof.
  induction fuel as [|fuel IH]; intros h pos h' Hpos Hsmall H Hids;
    [discriminate|].
  cbn [lower_loop] in H.
  apply bind_Ok_inv in H as (c1 & Hc1 & H).
  apply bind_Ok_inv in H as ([|] & Hc & H).
  - assert (Hl : 2 * pos + 1 < nb_elem h).
    { destruct (Z.ltb_spec (2 * pos + 1) (nb_elem h)); [assumption|].
      injection Hc1 as <-.
      destruct (Z.ltb_spec (2 * pos + 2) (nb_elem h)); [lia | discriminate]. }
    apply bind_Ok_inv in H as (c2 & Hc2 & H).
    set (p' := if c2 then 2 * pos + 2 else 2 * pos + 1) in *.
    assert (Hp' : pos < p' < nb_elem h).
    { subst p'. destruct c2; [|lia].
      destruct (Z.ltb_spec (2 * pos + 2) (nb_elem h)); [lia | discriminate]. }
    apply bind_Ok_inv in H as (h1 & Hs & H).
    apply bind_Ok_inv in H as (l' & Hl' & H).
    apply bind_Ok_inv in H as (r' & Hr' & H).
    destruct (swap_kept h pos p' h1 ltac:(lia) ltac:(lia) Hs Hids)
      as (Hn1 & Hids1 & Hl1).
    apply get_pos_left_son_inv in Hl'. apply get_pos_right_son_inv in Hr'.
    rewrite u32_small in Hl', Hr' by lia. subst l' r'.
    destruct (IH h1 p' h' ltac:(lia) ltac:(lia) H Hids1) as (Hn' & Hids' & Hlv').
    split; [lia|]. split; [exact Hids'|].
    intros n. rewrite Hlv', Hl1. reflexivity.
  - injection H as <-. split; [reflexivity|]. split; [exact Hids|]. reflexivity.
Qed.

Lemma raise_kept (h : Heap_Id) (pos : Z) (h' : Heap_Id) :
  0 <= pos < nb_elem h -> raise elt_lt elt_le m h pos = Ok h' -> ids_ok h ->
  nb_elem h' = nb_elem h /\ ids_ok h' /\ (forall n, live h' n <-> live h n).
Proof.
  unfold raise. intros Hpos H Hids.
  apply bind_Ok_inv in H as (u & _ & H).
  apply bind_Ok_inv in H as (f & Hf & H).
  apply bind_Ok_inv in H as (h1 & Hl & H).
  apply bind_Ok_inv in H as (u' & _ & H). injection H as <-.
  apply get_pos_father_inv in Hf as [_ ->]; [|lia].
  exact (raise_loop_kept _ h pos h1 Hpos Hl Hids).
Qed.

Lemma lower_kept (h : Heap_Id) (pos : Z) (h' : Heap_Id) :
  0 <= pos -> 2 * pos + 2 < UINT_MOD -> 2 * nb_elem h < UINT_MOD ->
  lower elt_lt elt_le m h pos = Ok h' -> ids_ok h ->
  nb_elem h' = nb_elem h /\ ids_ok h' /\ (forall n, live h' n <-> live h n).
Proof.
  unfold lower. intros Hpos Hp Hsmall H Hids.
  apply bind_Ok_inv in H as (u & _ & H).
  apply bind_Ok_inv in H as (l & Hl & H).
  apply bind_Ok_inv in H as (r & Hr & H).
  apply bind_Ok_inv in H as (h1 & Hlo & H).
  apply bind_Ok_inv in H as (u' & _ & H). injection H as <-.
  apply get_pos_left_son_inv in Hl. apply get_pos_right_son_inv in Hr.
  rewrite u32_small in Hl, Hr by lia. subst l r.
  exact (lower_loop_kept _ h pos h1 Hpos Hsmall Hlo Hids).
Qed.

End Kept.

Section HandleFacts.

Context {Element : Type}.
Variable elt_lt elt_le : Element -> Element -> bool.
Hypothesis Htotal : forall x y, elt_le x y = true \/ elt_le y x = true.
Hypothesis Htrans : forall x y z,
  elt_le x y = true -> elt_le y z = true -> elt_le x z = true.
Hypothesis Hstrict : forall x y, elt_lt x y = negb (elt_le y x).

Lemma pushed_raise_inv (m : Mem) (h : Heap_Id) (v : Z) :
  wf m h -> ordered elt_le m h ->
  raise_inv elt_le m (pushed h v) (nb_elem h).
Proof.
  intros Hwf Hord. pose proof (wf_nb _ _ Hwf) as Hnb. split.
  - intros k Hk Hkn. cbn in Hk.
    destruct (Hord k ltac:(lia)) as (x & y & Hx & Hy & Hxy).
    apply (le_at_intro _ _ _ _ _ x y); [| |exact Hxy].
    + rewrite <- Hx. apply key_at_lookup, pushed_old. zlia.
    + rewrite <- Hy. apply key_at_lookup, pushed_old. lia.
  - intros k Hk Hkf. cbn in Hk. zlia.
Qed.

Lemma pushed_ids (m : Mem (Element := Element)) (h : Heap_Id) (v : Z) :
  wf m h -> nb_elem h < capacity h -> ids_ok h ->
  (forall n, live h n -> n.2 <> nb_elem h) ->
  ids_ok (pushed h v) /\
  (forall n, live (pushed h v) n <-> n = (Some v, nb_elem h) \/ live h n).
Proof.
  intros Hwf Hroom Hids Hfresh.
  pose proof (wf_nb _ _ Hwf) as Hnb.
  pose proof (wf_id_to_pos _ _ Hwf) as Hlt.
  pose proof (pushed_new m h v Hwf Hroom) as Hnew.
  split.
  - intros k n Hk Hn. cbn [nb_elem pushed set_nb_elem] in Hk.
    destruct (decide (k = nb_elem h)) as [->|Hne].
    + rewrite Hnew in Hn. injection Hn as <-. cbn.
      split; [lia|]. apply list_lookup_insert_eq. lia.
    + rewrite pushed_old in Hn by lia.
      destruct (Hids k n ltac:(lia) Hn) as [Hid Ht]. split; [exact Hid|].
      assert (n.2 <> nb_elem h) by (apply Hfresh; exists k; auto with lia).
      cbn. rewrite list_lookup_insert_ne by lia. exact Ht.
  - intros n. split.
    + intros (k & Hk & Hn). cbn [nb_elem pushed set_nb_elem] in Hk.
      destruct (decide (k = nb_elem h)) as [->|Hne].
      * left. congruence.
      * right. exists k. rewrite pushed_old in Hn by lia. auto with lia.
    + intros [->|(k & Hk & Hn)].
      * exists (nb_elem h). cbn [nb_elem pushed set_nb_elem].
        split; [lia | exact Hnew].
      * exists k. cbn [nb_elem pushed set_nb_elem].
        split; [lia|]. rewrite pushed_old by lia. exact Hn.
Qed.

Lemma push_handles (m : Mem) (h : Heap_Id) (v : Z) :
  wf m h -> ordered elt_le m h -> ids_ok h ->
  (forall n, live h n -> n.2 <> nb_elem h) ->
  nb_elem h < capacity h -> is_Some (m v) ->
  exists h',
    push elt_lt elt_le m h v = Ok (h', nb_elem h) /\
    wf m h' /\ ordered elt_le m h' /\ ids_ok h' /\
    nb_elem h' = nb_elem h + 1 /\
    resolves h' (nb_elem h) v /\
    (forall id a, resolves h id a -> resolves h' id a) /\
    (forall n, live h' n <-> n = (Some v, nb_elem h) \/ live h n).
Proof.
  intros Hwf Hord Hids Hfresh Hroom Hv.
  pose proof (wf_nb _ _ Hwf) as Hnb.
  pose proof (wf_pushed m h v Hwf Hroom Hv) as Hwf1.
  pose proof (pushed_raise_inv m h v Hwf Hord) as Hinv1.
  destruct (pushed_ids m h v Hwf Hroom Hids Hfresh) as [Hids1 Hlive1].
  destruct (raise_ok elt_lt elt_le m Htotal Htrans Hstrict
              (pushed h v) (nb_elem h) Hwf1 ltac:(cbn; lia) Hinv1)
    as (h' & Hr & Hwf' & Hc' & Hn' & Hperm & Hord').
  destruct (raise_kept elt_lt elt_le m (pushed h v) (nb_elem h) h'
              ltac:(cbn; lia) Hr Hids1) as (_ & Hids' & Hlive').
  assert (Hlive : forall n, live h' n <-> n = (Some v, nb_elem h) \/ live h n).
  { intros n. rewrite Hlive', Hlive1. reflexivity. }
  exists h'.
  split; [rewrite push_unfold, (bind_Ok _ _ _ Hr) by assumption;
          reflexivity|].
  split; [exact Hwf'|]. split; [exact Hord'|]. split; [exact Hids'|].
  split; [rewrite Hn'; reflexivity|].
  split; [apply resolves_live, Hlive; auto|].
  split; [|exact Hlive].
  intros id a Hres. apply resolves_live; [exact Hids'|].
  apply Hlive. right. apply resolves_live; assumption.
Qed.


(** X6: on a well-formed, ordered heap that is not empty, holds at most
    [2^31] elements and whose handles lead to their nodes, [pop] succeeds
    and returns the address at the root, whose key is minimal; the heap is
    ordered again, the handle of the popped node leads to no node any more,
    and every other handle leads to the node it led to. *)
Theorem pop_keeps_handles (m : Mem) (h : Heap_Id) :
  wf m h -> ordered elt_le m h -> ids_ok h ->
  0 < nb_elem h -> 2 * nb_elem h <= UINT_MOD ->
  exists h' a id0,
    elements h !! 0%nat = Some (Some a, id0) /\
    pop elt_lt elt_le m h = Ok (h', a) /\
    wf m h' /\ ordered elt_le m h' /\ ids_ok h' /\
    nb_elem h' = nb_elem h - 1 /\
    (forall b, b ∈ ptrs h -> key_le elt_le m a b) /\
    (forall id b, resolves h' id b <-> resolves h id b /\ id <> id0).
Proof.
  intros Hwf Hord Hids Hpos Hsmall.
  pose proof (wf_cap _ _ Hwf) as Hcap. pose proof (wf_nb _ _ Hwf) as Hnb.
  destruct (pop_ok elt_lt elt_le m Htotal Htrans Hstrict h Hwf Hord Hpos Hsmall)
    as (h' & a & Hp & Hwf' & Hord' & Hc' & Hn' & Hperm & Hmin).
  destruct (wf_nodes _ _ Hwf 0 ltac:(lia)) as (a0 & e & id0 & Ha0 & _ & _).
  change (Z.to_nat 0) with 0%nat in Ha0.
  pose proof Hp as Hp'. unfold pop in Hp'.
  apply bind_Ok_inv in Hp' as (u & _ & Hp').
  apply bind_Ok_inv in Hp' as (h1 & Hs & Hp').
  apply bind_Ok_inv in Hp' as (pn & Hpn & Hp').
  apply bind_Ok_inv in Hp' as (h3 & Hl & Hp').
  apply bind_Ok_inv in Hp' as (u' & _ & Hp').
  rewrite (u32_small (nb_elem h - 1)) in Hs by lia.
  destruct (swap_kept h 0 (nb_elem h - 1) h1 ltac:(lia) ltac:(lia) Hs Hids)
    as (Hn1 & Hids1 & Hlive1).
  rewrite Hn1, (u32_small (nb_elem h - 1)) in Hpn, Hl by lia.
  apply rd_Ok_inv in Hpn as [_ Hpn].
  assert (Hpn' : pn = (Some a0, id0)).
  { pose proof Hs as Hs'.
    apply swap_inv in Hs' as (na & nb & _ & _ & Hna & Hnb' & _ & _ & ->).
    cbn in Hpn. rewrite list_lookup_insert_eq in Hpn
      by (rewrite length_insert; apply lookup_lt_Some in Hnb'; lia).
    change (Z.to_nat 0) with 0%nat in Hna. congruence. }
  subst pn. cbn [fst] in Hp'. injection Hp' as -> ->.
  set (h2 := set_nb_elem h1 (nb_elem h - 1)) in *.
  assert (Hids2 : ids_ok h2).
  { intros k n Hk Hn. cbn in Hk, Hn. apply Hids1; [lia | exact Hn]. }
  destruct (lower_kept elt_lt elt_le m h2 0 h' ltac:(lia)
              ltac:(rewrite UINT_MOD_eq; lia) ltac:(cbn; lia) Hl Hids2)
    as (_ & Hids' & Hlive').
  exists h', a, id0.
  split; [exact Ha0|]. split; [exact Hp|]. split; [exact Hwf'|].
  split; [exact Hord'|]. split; [exact Hids'|]. split; [exact Hn'|].
  split; [exact Hmin|].
  intros id b. rewrite (resolves_live h' id b Hids'), (resolves_live h id b Hids).
  rewrite Hlive', <- Hlive1. split.
  - intros (k & Hk & Hn). cbn in Hk, Hn. split.
    + exists k. split; [lia | exact Hn].
    + intros ->. destruct (Hids1 k _ ltac:(lia) Hn) as [_ Ht1].
      destruct (Hids1 (nb_elem h - 1) _ ltac:(lia) Hpn) as [_ Ht2].
      cbn in Ht1, Ht2. rewrite Ht1 in Ht2. injection Ht2 as Ht2. lia.
  - intros [(k & Hk & Hn) Hne]. exists k. cbn. split; [|exact Hn].
    destruct (decide (k = nb_elem h - 1)) as [->|]; [|lia].
    rewrite Hpn in Hn. congruence.
Qed.

Lemma le_at_trans (m : Mem (Element := Element)) (h : Heap_Id) (i j k : Z) :
  le_at elt_le m h i j -> le_at elt_le m h j k -> le_at elt_le m h i k.
Proof.
  intros (x & y & Hx & Hy & Hxy) (y' & z & Hy' & Hz & Hyz).
  exists x, z. split; [exact Hx|]. split; [exact Hz|].
  apply (Htrans _ y); [exact Hxy | congruence].
Qed.

Lemma ordered_lower_inv (m : Mem (Element := Element)) (h : Heap_Id) (q : Z) :
  ordered elt_le m h -> lower_inv elt_le m h q.
Proof.
  intros Hord. split.
  - intros k Hk _. apply Hord, Hk.
  - intros k Hk Hkq Hq. apply (le_at_trans m h _ q).
    + apply Hord. zlia.
    + rewrite <- Hkq. apply Hord, Hk.
Qed.

Lemma push_all_handles (m : Mem (Element := Element)) (vs : list Z) :
  forall h : Heap_Id,
  wf m h -> ordered elt_le m h -> ids_ok h ->
  (forall n, live h n -> n.2 < nb_elem h) ->
  nb_elem h + Z.of_nat (length vs) <= capacity h ->
  (forall v, v ∈ vs -> is_Some (m v)) ->
  exists h',
    push_all elt_lt elt_le m h vs = Ok h' /\ wf m h' /\
    ordered elt_le m h' /\ ids_ok h' /\
    (forall k v, vs !! k = Some v ->
                 resolves h' (nb_elem h + Z.of_nat k) v) /\
    (forall id a, resolves h id a -> resolves h' id a).
Proof.
  induction vs as [|v vs IH]; intros h Hwf Hord Hids Hdense Hroom Hvalid.
  - exists h. split; [reflexivity|]. split; [exact Hwf|].
    split; [exact Hord|]. split; [exact Hids|].
    split; [intros k v Hk; discriminate | auto].
  - cbn [length] in Hroom.
    destruct (push_handles m h v Hwf Hord Hids) as
      (h1 & Hp & Hwf1 & Hord1 & Hids1 & Hn1 & Hres1 & Hold1 & Hlive1).
    { intros n Hn. apply Hdense in Hn. lia. }
    { lia. }
    { apply Hvalid. left. }
    assert (Hc1 : capacity h1 = capacity h).
    { apply push_inv in Hp. tauto. }
    destruct (IH h1 Hwf1 Hord1 Hids1) as
      (h' & Hps & Hwf' & Hord' & Hids' & Hres' & Hold').
    { intros n Hn. apply Hlive1 in Hn as [->|Hn]; [cbn; lia|].
      apply Hdense in Hn. lia. }
    { lia. }
    { intros w Hw. apply Hvalid. right. exact Hw. }
    exists h'. cbn [push_all]. rewrite (bind_Ok _ _ _ Hp). cbn [fst].
    split; [exact Hps|]. split; [exact Hwf'|]. split; [exact Hord'|].
    split; [exact Hids'|]. split.
    + intros [|k] w Hk.
      * injection Hk as <-. rewrite Z.add_0_r. apply Hold', Hres1.
      * replace (nb_elem h + Z.of_nat (S k))
          with (nb_elem h1 + Z.of_nat k) by lia.
        apply Hres', Hk.
    + intros id a Hres. apply Hold', Hold1, Hres.
Qed.

(** X7: in a heap built by pushes only (of valid addresses, no more than
    the capacity), the handle [k] that the [k]-th push returned leads to the
    node of the address pushed then, whatever the pushes that followed moved,
    and the heap is ordered. *)
Theorem handles_of_pushes_resolve (m : Mem (Element := Element)) (cap : Z)
  (vs : list Z) :
  Z.of_nat (length vs) <= cap < UINT_MOD ->
  (forall v, v ∈ vs -> is_Some (m v)) ->
  exists h,
    push_all elt_lt elt_le m (Heap_Id_new cap) vs = Ok h /\
    ordered elt_le m h /\
    forall k v, vs !! k = Some v -> resolves h (Z.of_nat k) v.
Proof.
  intros Hcap Hvalid.
  destruct (wf_new elt_le m cap ltac:(lia)) as (Hwf0 & Hord0 & _).
  destruct (push_all_handles m vs (Heap_Id_new cap) Hwf0 Hord0)
    as (h & Hps & _ & Hord & _ & Hres & _).
  - intros k n Hk. cbn in Hk. lia.
  - intros n (k & Hk & _). cbn in Hk. lia.
  - cbn. lia.
  - exact Hvalid.
  - exists h. split; [exact Hps|]. split; [exact Hord|].
    intros k v Hk. apply (Hres k v Hk).
Qed.

(** X8: the key of one element of a well-formed, ordered heap is changed
    (to a smaller or to a larger key; [m] is the memory before the change
    and [m'] the memory after it).  When the handle leads to the node of that
    element, and no other node holds its address, [reposition] of the handle
    succeeds and the heap is ordered again, with the same addresses and with
    every handle leading where it led. *)
Theorem reposition_restores_order (m m' : Mem (Element := Element))
  (h : Heap_Id) (id a : Z) :
  wf m h -> ordered elt_le m h -> ids_ok h -> resolves h id a ->
  (forall n, live h n -> n.1 = Some a -> n.2 = id) ->
  (forall b, b <> a -> m' b = m b) -> is_Some (m' a) ->
  2 * nb_elem h < UINT_MOD ->
  exists h',
    reposition elt_lt elt_le m' h id = Ok h' /\
    wf m' h' /\ ordered elt_le m' h' /\ ids_ok h' /\
    nb_elem h' = nb_elem h /\ ptrs h' ≡ₚ ptrs h /\
    (forall id b, resolves h' id b <-> resolves h id b).
Proof.
  intros Hwf Hord Hids Hres Honce Hm' [x' Hx'] Hsmall.
  pose proof (wf_cap _ _ Hwf) as Hcap. pose proof (wf_nb _ _ Hwf) as Hnb.
  pose proof Hres as (Hid & p & Htp & Hp & Hnp).
  assert (Hwf' : wf m' h).
  { destruct Hwf as [H1 H2 H3 H4 H5 H6]. split; try assumption.
    intros k Hk. destruct (H6 k Hk) as (b & e & idb & Hn & Hb & Hidb).
    destruct (decide (b = a)) as [->|Hne].
    - exists a, x', idb. auto.
    - exists b, e, idb. rewrite Hm' by exact Hne. auto. }
  assert (Hkey : forall k, 0 <= k < nb_elem h -> k <> p ->
                           key_at m' h k = key_at m h k).
  { intros k Hk Hkp.
    destruct (wf_nodes _ _ Hwf k Hk) as (b & e & idb & Hn & Hb & Hidb).
    unfold key_at. rewrite Hn. cbn. apply Hm'. intros ->.
    assert (idb = id) as -> by (apply (Honce (Some a, idb)); [exists k|]; auto).
    destruct (Hids k _ Hk Hn) as [_ Ht]. cbn in Ht. congruence. }
  destruct (wf_key m h p Hwf Hp) as [x Hx].
  assert (Hxp' : key_at m' h p = Some x').
  { unfold key_at. rewrite Hnp. cbn. exact Hx'. }
  (* the state after [raise] *)
  assert (Hraise : exists h1,
    raise elt_lt elt_le m' h p = Ok h1 /\ wf m' h1 /\
    capacity h1 = capacity h /\ nb_elem h1 = nb_elem h /\
    ptrs h1 ≡ₚ ptrs h /\
    (forall q, id_to_pos h1 !! Z.to_nat id = Some (Some q) ->
               lower_inv elt_le m' h1 q)).
  { destruct (elt_le x' x) eqn:Hdec.
    - (* the key went down *)
      assert (Hinv : raise_inv elt_le m' h p).
      { split.
        - intros k Hk Hkp.
          destruct (Hord k Hk) as (x1 & y1 & Hx1 & Hy1 & Hle).
          rewrite <- Hkey in Hy1 by lia.
          destruct (decide ((k - 1) / 2 = p)) as [Hf|Hf].
          + rewrite Hf in *. apply (le_at_intro _ _ _ _ _ x' y1 Hxp' Hy1).
            apply (Htrans _ x); [exact Hdec | congruence].
          + rewrite <- Hkey in Hx1 by zlia.
            apply (le_at_intro _ _ _ _ _ x1 y1 Hx1 Hy1 Hle).
        - intros k Hk Hkf Hp0.
          destruct (Hord k Hk) as (x1 & y1 & Hx1 & Hy1 & Hle).
          destruct (Hord p ltac:(lia)) as (z & x2 & Hz & Hx2 & Hle2).
          rewrite Hkf in Hx1.
          rewrite <- Hkey in Hy1 by zlia. rewrite <- Hkey in Hz by zlia.
          apply (le_at_intro _ _ _ _ _ z y1 Hz Hy1).
          apply (Htrans _ x); congruence. }
      destruct (raise_ok elt_lt elt_le m' Htotal Htrans Hstrict h p Hwf' Hp Hinv)
        as (h1 & Hr & Hwf1 & Hc1 & Hn1 & Hperm1 & Hord1).
      exists h1. repeat (split; [assumption|]).
      intros q _. apply ordered_lower_inv, Hord1.
    - (* the key went up *)
      assert (Hup : elt_le x x' = true).
      { destruct (Htotal x x') as [H|H]; [exact H | congruence]. }
      assert (Hr : raise elt_lt elt_le m' h p = Ok h).
      { destruct (Z.eqb_spec p 0) as [Hp0|Hp0].
        - apply (raise_stays elt_lt elt_le m' h p x' x' Hwf' Hp Hxp').
          + destruct (Z.eqb_spec p 0); [subst p; exact Hxp' | lia].
          + rewrite Hstrict, (elt_le_refl elt_le Htotal). reflexivity.
        - destruct (Hord p ltac:(lia)) as (z & x2 & Hz & Hx2 & Hle2).
          rewrite <- Hkey in Hz by zlia.
          apply (raise_stays elt_lt elt_le m' h p x' z Hwf' Hp Hxp').
          + destruct (Z.eqb_spec p 0); [lia | exact Hz].
          + rewrite Hstrict.
            replace (elt_le z x') with true; [reflexivity|].
            symmetry. apply (Htrans _ x); [congruence | exact Hup]. }
      exists h. split; [exact Hr|]. split; [exact Hwf'|].
      split; [reflexivity|]. split; [reflexivity|]. split; [reflexivity|].
      intros q Hq. assert (q = p) as -> by congruence. split.
      + intros k Hk Hkf.
        destruct (Hord k Hk) as (x1 & y1 & Hx1 & Hy1 & Hle).
        rewrite <- Hkey in Hx1 by zlia.
        destruct (decide (k = p)) as [->|Hkp].
        * apply (le_at_intro _ _ _ _ _ x1 x' Hx1 Hxp').
          apply (Htrans _ x); [congruence | exact Hup].
        * rewrite <- Hkey in Hy1 by lia.
          apply (le_at_intro _ _ _ _ _ x1 y1 Hx1 Hy1 Hle).
      + intros k Hk Hkf Hp0.
        destruct (Hord k Hk) as (x1 & y1 & Hx1 & Hy1 & Hle).
        destruct (Hord p ltac:(lia)) as (z & x2 & Hz & Hx2 & Hle2).
        rewrite Hkf in Hx1.
        rewrite <- Hkey in Hy1 by zlia. rewrite <- Hkey in Hz by zlia.
        apply (le_at_intro _ _ _ _ _ z y1 Hz Hy1).
        apply (Htrans _ x); congruence. }
  destruct Hraise as (h1 & Hr & Hwf1 & Hc1 & Hn1 & Hperm1 & Hinv1).
  destruct (raise_kept elt_lt elt_le m' h p h1 Hp Hr Hids)
    as (_ & Hids1 & Hlive1).
  assert (Hres1 : resolves h1 id a).
  { apply resolves_live; [exact Hids1|]. apply Hlive1.
    apply resolves_live; assumption. }
  destruct Hres1 as (_ & q & Htq & Hq & Hnq).
  destruct (lower_ok elt_lt elt_le m' Htotal Htrans Hstrict h1 q Hwf1)
    as (h2 & Hl & Hwf2 & Hc2 & Hn2 & Hperm2 & Hord2).
  { lia. } { lia. } { lia. } { exact (Hinv1 q Htq). }
  destruct (lower_kept elt_lt elt_le m' h1 q h2 ltac:(lia) ltac:(lia)
              ltac:(lia) Hl Hids1) as (_ & Hids2 & Hlive2).
  exists h2. split.
  { unfold reposition.
    rewrite (bind_rd _ _ _ _ Hid Htp). rewrite Ok_bind. cbv beta iota.
    rewrite (bind_Ok _ _ _ Hr).
    rewrite (bind_rd _ _ _ _ Hid Htq). rewrite Ok_bind. cbv beta iota.
    exact Hl. }
  split; [exact Hwf2|]. split; [exact Hord2|]. split; [exact Hids2|].
  split; [lia|]. split; [rewrite Hperm2; exact Hperm1|].
  intros id' b.
  rewrite (resolves_live h2 id' b Hids2), (resolves_live h id' b Hids).
  rewrite Hlive2, Hlive1. reflexivity.
Qed.

End HandleFacts.


Lemma two_heap_ok (m : Mem (Element := Z)) (x y : Z) :
  m 0 = Some x -> m 1 = Some y -> x <= y ->
  wf m two_heap /\ ordered Z.leb m two_heap /\ ids_ok two_heap.
Proof.
  intros Hx Hy Hxy.
  assert (Hcases : forall k, 0 <= k < 2 -> k = 0 \/ k = 1) by lia.
  split; [|split].
  - split; cbn; try (rewrite ?UINT_MOD_eq; lia); try reflexivity.
    intros k Hk. destruct (Hcases k Hk) as [->| ->].
    + exists 0, x, 0. cbn. auto with lia.
    + exists 1, y, 1. cbn. auto with lia.
  - intros k Hk. cbn in Hk. assert (k = 1) as -> by lia.
    change ((1 - 1) / 2) with 0. exists x, y.
    split; [exact Hx|]. split; [exact Hy|]. apply Z.leb_le, Hxy.
  - intros k n Hk Hn. cbn in Hk.
    destruct (Hcases k Hk) as [->| ->]; cbn in Hn; injection Hn as <-;
      cbn; auto with lia.
Qed.

Lemma pop_keeps_handles_witness :
  exists h' a id0,
    elements two_heap !! 0%nat = Some (Some a, id0) /\
    popZ (mem_list [1; 5]) two_heap = Ok (h', a) /\
    wf (mem_list [1; 5]) h' /\ ordered Z.leb (mem_list [1; 5]) h' /\
    ids_ok h' /\
    nb_elem h' = nb_elem two_heap - 1 /\
    (forall b, b ∈ ptrs two_heap -> key_le Z.leb (mem_list [1; 5]) a b) /\
    (forall id b, resolves h' id b <-> resolves two_heap id b /\ id <> id0).
Proof.
  destruct (two_heap_ok (mem_list [1; 5]) 1 5 eq_refl eq_refl ltac:(lia))
    as (Hwf & Hord & Hids).
  apply (pop_keeps_handles Z.ltb Z.leb Zle_total Zle_trans Zlt_le
           (mem_list [1; 5]) two_heap Hwf Hord Hids).
  - cbn. lia.
  - cbn. rewrite UINT_MOD_eq. lia.
Defined.

Lemma handles_of_pushes_resolve_witness :
  exists h,
    push_all Z.ltb Z.leb (mem_list [7; 1; 5]) (Heap_Id_new 3) [0; 1; 2]
      = Ok h /\
    ordered Z.leb (mem_list [7; 1; 5]) h /\
    forall k v, [0; 1; 2] !! k = Some v -> resolves h (Z.of_nat k) v.
Proof.
  apply (handles_of_pushes_resolve Z.ltb Z.leb Zle_total Zle_trans Zlt_le
           (mem_list [7; 1; 5]) 3 [0; 1; 2]).
  - cbn. rewrite UINT_MOD_eq. lia.
  - intros v Hv.
    repeat (apply elem_of_cons in Hv as [->|Hv]; [eexists; reflexivity|]).
    inversion Hv.
Defined.

Lemma reposition_restores_order_witness :
  exists h',
    repositionZ (mem_list [1; 0]) two_heap 1 = Ok h' /\
    wf (mem_list [1; 0]) h' /\ ordered Z.leb (mem_list [1; 0]) h' /\
    ids_ok h' /\
    nb_elem h' = nb_elem two_heap /\ ptrs h' ≡ₚ ptrs two_heap /\
    (forall id b, resolves h' id b <-> resolves two_heap id b).
Proof.
  destruct (two_heap_ok (mem_list [1; 5]) 1 5 eq_refl eq_refl ltac:(lia))
    as (Hwf & Hord & Hids).
  apply (reposition_restores_order Z.ltb Z.leb Zle_total Zle_trans Zlt_le
           (mem_list [1; 5]) (mem_list [1; 0]) two_heap 1 1 Hwf Hord Hids).
  - split; [lia|]. exists 1. cbn. auto with lia.
  - intros n (k & Hk & Hn) Ha. cbn in Hk.
    assert (k = 0 \/ k = 1) as [->| ->] by lia; cbn in Hn;
      injection Hn as <-; [discriminate | reflexivity].
  - intros b Hb. unfold mem_list.
    destruct (b <? 0) eqn:Hneg; [reflexivity|].
    apply Z.ltb_ge in Hneg.
    destruct (Z.to_nat b) as [|[|n]] eqn:Hn; [reflexivity | lia | reflexivity].
  - eexists. reflexivity.
  - cbn. rewrite UINT_MOD_eq. lia.
Defined.

(** ** The indexed heap: a handle handed out twice *)

Lemma swap_live (h : Heap_Id) (a b : Z) (h' : Heap_Id) :
  0 <= a < nb_elem h -> 0 <= b < nb_elem h -> swap h a b = Ok h' ->
  nb_elem h' = nb_elem h /\ (forall n, live h' n <-> live h n).
Proof.
  intros Ha Hb Hs.
  apply swap_inv in Hs as (na & nb & _ & _ & Hna & Hnb & Hia & Hib & ->).
  assert (Hlook : forall k, 0 <= k ->
    <[Z.to_nat b := na]> (<[Z.to_nat a := nb]> (elements h)) !! Z.to_nat k
    = elements h !! Z.to_nat (transpose a b k)).
  { intros k Hk. apply lookup_swapped; auto; lia. }
  split; [reflexivity|].
  intros n. split; intros (k & Hk & Hn); cbn in Hk, Hn |- *.
  - rewrite Hlook in Hn by lia. exists (transpose a b k).
    split; [apply transpose_range; assumption | exact Hn].
  - exists (transpose a b k). cbn.
    split; [apply transpose_range; assumption|].
    pose proof (transpose_range a b k (nb_elem h) Ha Hb Hk).
    rewrite Hlook by lia. rewrite transpose_invol. exact Hn.
Qed.

Lemma resolves_fun (h : Heap_Id) (id a b : Z) :
  resolves h id a -> resolves h id b -> a = b.
Proof.
  intros (_ & k & Hk & _ & Ha) (_ & k' & Hk' & _ & Hb).
  assert (k' = k) as -> by congruence. congruence.
Qed.

Section Clash.

Context {Element : Type}.
Variable elt_lt elt_le : Element -> Element -> bool.
Hypothesis Htotal : forall x y, elt_le x y = true \/ elt_le y x = true.
Hypothesis Htrans : forall x y z,
  elt_le x y = true -> elt_le y z = true -> elt_le x z = true.
Hypothesis Hstrict : forall x y, elt_lt x y = negb (elt_le y x).
Variable m : Mem (Element := Element).

Lemma raise_loop_live (fuel : nat) : forall (h : Heap_Id) (pos : Z) (h' : Heap_Id),
  0 <= pos < nb_elem h ->
  raise_loop elt_lt fuel m h pos (if pos =? 0 then 0 else (pos - 1) / 2)
    = Ok h' ->
  nb_elem h' = nb_elem h /\ (forall n, live h' n <-> live h n).
Proof.
  induction fuel as [|fuel IH]; intros h pos h' Hpos H; [discriminate|].
  cbn [raise_loop] in H.
  set (f := if pos =? 0 then 0 else (pos - 1) / 2) in *.
  assert (Hf : 0 <= f < nb_elem h)
    by (subst f; destruct (Z.eqb_spec pos 0); zlia).
  apply bind_Ok_inv in H as ([|] & _ & H).
  - apply bind_Ok_inv in H as (h1 & Hs & H).
    apply bind_Ok_inv in H as (f' & Hf' & H).
    destruct (swap_live h pos f h1 Hpos Hf Hs) as (Hn1 & Hl1).
    apply get_pos_father_inv in Hf' as [_ ->]; [|lia].
    destruct (IH h1 f h' ltac:(lia) H) as (Hn' & Hl').
    split; [lia|]. intros n. rewrite Hl', Hl1. reflexivity.
  - injection H as <-. split; reflexivity.
Qed.

Lemma raise_live (h : Heap_Id) (pos : Z) (h' : Heap_Id) :
  0 <= pos < nb_elem h -> raise elt_lt elt_le m h pos = Ok h' ->
  nb_elem h' = nb_elem h /\ (forall n, live h' n <-> live h n).
Proof.
  unfold raise. intros Hpos H.
  apply bind_Ok_inv in H as (u & _ & H).
  apply bind_Ok_inv in H as (f & Hf & H).
  apply bind_Ok_inv in H as (h1 & Hl & H).
  apply bind_Ok_inv in H as (u' & _ & H). injection H as <-.
  apply get_pos_father_inv in Hf as [_ ->]; [|lia].
  exact (raise_loop_live _ h pos h1 Hpos Hl).
Qed.

Lemma pushed_live (h : Heap_Id) (v : Z) :
  wf m h -> nb_elem h < capacity h ->
  forall n, live (pushed h v) n <-> n = (Some v, nb_elem h) \/ live h n.
Proof.
  intros Hwf Hroom n.
  pose proof (wf_nb _ _ Hwf) as Hnb.
  pose proof (pushed_new m h v Hwf Hroom) as Hnew.
  split.
  - intros (k & Hk & Hn). cbn [nb_elem pushed set_nb_elem] in Hk.
    destruct (decide (k = nb_elem h)) as [->|Hne].
    + left. congruence.
    + right. exists k. rewrite pushed_old in Hn by lia. auto with lia.
  - intros [->|(k & Hk & Hn)].
    + exists (nb_elem h). cbn [nb_elem pushed set_nb_elem].
      split; [lia | exact Hnew].
    + exists k. cbn [nb_elem pushed set_nb_elem].
      split; [lia|]. rewrite pushed_old by lia. exact Hn.
Qed.

(** X24: [push] hands out the handle [nb_elem] without looking whether a
    node of the heap still has this id.  On a well-formed, ordered heap that
    holds the address [a] under the id [nb_elem], [push] of another valid
    address [v] succeeds and returns that same id; afterwards the heap holds
    both [a] and [v] under it, and the handle cannot lead to both. *)
Theorem push_reuses_live_handle (h : Heap_Id) (v a : Z) :
  wf m h -> ordered elt_le m h ->
  nb_elem h < capacity h -> is_Some (m v) ->
  live h (Some a, nb_elem h) -> a <> v ->
  exists h',
    push elt_lt elt_le m h v = Ok (h', nb_elem h) /\
    nb_elem h' = nb_elem h + 1 /\
    live h' (Some a, nb_elem h) /\ live h' (Some v, nb_elem h) /\
    ~ (resolves h' (nb_elem h) a /\ resolves h' (nb_elem h) v) /\
    ~ ids_ok h'.
Proof.
  intros Hwf Hord Hroom Hv Ha Hav.
  pose proof (wf_nb _ _ Hwf) as Hnb.
  pose proof (wf_pushed m h v Hwf Hroom Hv) as Hwf1.
  pose proof (pushed_raise_inv elt_le m h v Hwf Hord) as Hinv1.
  destruct (raise_ok elt_lt elt_le m Htotal Htrans Hstrict
              (pushed h v) (nb_elem h) Hwf1 ltac:(cbn; lia) Hinv1)
    as (h' & Hr & Hwf' & Hc' & Hn' & Hperm & Hord').
  destruct (raise_live (pushed h v) (nb_elem h) h' ltac:(cbn; lia) Hr)
    as (_ & Hlive').
  pose proof (pushed_live h v Hwf Hroom) as Hlive1.
  assert (Hla : live h' (Some a, nb_elem h)) by (apply Hlive', Hlive1; auto).
  assert (Hlv : live h' (Some v, nb_elem h)) by (apply Hlive', Hlive1; auto).
  assert (Hboth : ~ (resolves h' (nb_elem h) a /\ resolves h' (nb_elem h) v)).
  { intros [Hra Hrv]. apply Hav. exact (resolves_fun _ _ _ _ Hra Hrv). }
  exists h'.
  split; [rewrite push_unfold, (bind_Ok _ _ _ Hr) by assumption;
          reflexivity|].
  split; [rewrite Hn'; reflexivity|].
  split; [exact Hla|]. split; [exact Hlv|]. split; [exact Hboth|].
  intros Hids. apply Hboth. split; apply resolves_live; assumption.
Qed.

End Clash.

Lemma clash_heap_run :
  (r0 ← pushZ (mem_list [1; 5; 7; 9]) (Heap_Id_new 3) 0;
   r1 ← pushZ (mem_list [1; 5; 7; 9]) r0.1 1;
   r2 ← pushZ (mem_list [1; 5; 7; 9]) r1.1 2;
   popZ (mem_list [1; 5; 7; 9]) r2.1) = Ok (clash_heap, 0).
Proof. vm_compute. reflexivity. Qed.

Lemma clash_heap_ok (m : Mem (Element := Z)) (x y : Z) :
  m 1 = Some x -> m 2 = Some y -> x <= y ->
  wf m clash_heap /\ ordered Z.leb m clash_heap.
Proof.
  intros Hx Hy Hxy.
  assert (Hcases : forall k, 0 <= k < 2 -> k = 0 \/ k = 1) by lia.
  split.
  - split; cbn; try (rewrite ?UINT_MOD_eq; lia); try reflexivity.
    intros k Hk. destruct (Hcases k Hk) as [->| ->].
    + exists 1, x, 1. cbn. auto with lia.
    + exists 2, y, 2. cbn. auto with lia.
  - intros k Hk. cbn in Hk. assert (k = 1) as -> by lia.
    change ((1 - 1) / 2) with 0. exists x, y.
    split; [exact Hx|]. split; [exact Hy|]. apply Z.leb_le, Hxy.
Qed.

Lemma push_reuses_live_handle_witness :
  exists h',
    pushZ (mem_list [1; 5; 7; 9]) clash_heap 3 = Ok (h', nb_elem clash_heap) /\
    nb_elem h' = nb_elem clash_heap + 1 /\
    live h' (Some 2, nb_elem clash_heap) /\
    live h' (Some 3, nb_elem clash_heap) /\
    ~ (resolves h' (nb_elem clash_heap) 2 /\
       resolves h' (nb_elem clash_heap) 3) /\
    ~ ids_ok h'.
Proof.
  destruct (clash_heap_ok (mem_list [1; 5; 7; 9]) 5 7) as (Hwf & Hord);
    [reflexivity | reflexivity | lia |].
  apply (push_reuses_live_handle Z.ltb Z.leb Zle_total Zle_trans Zlt_le
           (mem_list [1; 5; 7; 9]) clash_heap 3 2 Hwf Hord).
  - cbn. lia.
  - eexists. reflexivity.
  - exists 1. cbn. split; [lia | reflexivity].
  - lia.
Defined.

(** ** The heap of [heap.hpp] *)

Section PlainFacts.

Import PlainHeap.

Context {Element : Type}.
Variable elt_lt elt_le : Element -> Element -> bool.
Variable m : Mem (Element := Element).

Lemma plain_wf_key (h : Heap) (k : Z) :
  wf m h -> 0 <= k < nb_elem h -> exists e, key_at m h k = Some e.
Proof.
  intros Hwf Hk. destruct (wf_cells _ _ Hwf k Hk) as (a & e & Hn & Ha).
  exists e. unfold key_at. rewrite Hn. cbn. exact Ha.
Qed.

Lemma plain_cmp_pos_spec (op : Element -> Element -> bool) (h : Heap)
  (i j : Z) (x y : Element) :
  wf m h -> 0 <= i < nb_elem h -> 0 <= j < nb_elem h ->
  key_at m h i = Some x -> key_at m h j = Some y ->
  cmp_pos op m h i j = Ok (op x y).
Proof.
  intros Hwf Hi Hj Hx Hy.
  pose proof (wf_cap _ _ Hwf) as Hcap. pose proof (wf_nb _ _ Hwf) as Hnb.
  destruct (wf_cells _ _ Hwf i Hi) as (a & e & Hn & Ha).
  destruct (wf_cells _ _ Hwf j Hj) as (a' & e' & Hn' & Ha').
  unfold key_at in Hx, Hy. rewrite Hn in Hx. rewrite Hn' in Hy.
  cbn in Hx, Hy.
  unfold cmp_pos, rd_ptr. rewrite (u32_small (capacity h - 1)) by lia.
  rewrite !bind_in_range by lia.
  rewrite (rd_ok _ _ _ (proj1 Hi) Hn). rewrite !Ok_bind. cbv beta iota.
  cbn [deref]. rewrite Hx. rewrite Ok_bind.
  rewrite (rd_ok _ _ _ (proj1 Hj) Hn'). rewrite !Ok_bind. cbv beta iota.
  cbn [deref]. rewrite Hy. reflexivity.
Qed.

(** One iteration of the loop of [is_valid] answers [false] exactly when a
    son of [i] is below [i]. *)
Lemma plain_is_valid_body_spec (h : Heap) (i : Z) :
  wf m h -> 2 * nb_elem h < UINT_MOD -> 0 <= i < nb_elem h ->
  exists r, is_valid_body elt_le m h i = Ok r /\
    ((r = Next /\
      forall j, j = 2 * i + 1 \/ j = 2 * i + 2 -> j < nb_elem h ->
                le_at elt_le m h i j) \/
     (r = Return false /\
      exists j, (j = 2 * i + 1 \/ j = 2 * i + 2) /\ j < nb_elem h /\
                ~ le_at elt_le m h i j)).
Proof.
  intros Hwf Hsmall Hi.
  pose proof (wf_cap _ _ Hwf) as Hcap. pose proof (wf_nb _ _ Hwf) as Hnb.
  destruct (plain_wf_key h i Hwf Hi) as [x Hx].
  assert (Hcmp : forall j, 0 <= j < nb_elem h ->
    exists y, key_at m h j = Some y /\ le elt_le m h i j = Ok (elt_le x y) /\
              (elt_le x y = true <-> le_at elt_le m h i j)).
  { intros j Hj. destruct (plain_wf_key h j Hwf Hj) as [y Hy].
    exists y. split; [exact Hy|]. split.
    - apply plain_cmp_pos_spec; assumption.
    - split.
      + intros Hle. exists x, y. auto.
      + intros (x' & y' & Hx' & Hy' & Hle). congruence. }
  unfold is_valid_body, get_pos_right_son, get_pos_left_son.
  rewrite (u32_small (capacity h - 1)) by lia.
  rewrite !bind_in_range by lia. rewrite ?Ok_bind.
  rewrite (u32_small (2 * i + 2)), (u32_small (2 * i + 1)) by lia.
  destruct (Z.ltb_spec (2 * i + 2) (nb_elem h)) as [Hr|Hr].
  - destruct (Hcmp (2 * i + 2) ltac:(lia)) as (y & Hy & Hle & Hiff).
    rewrite Hle, ?Ok_bind. destruct (elt_le x y) eqn:Hxy; cbn [negb];
      rewrite ?Ok_bind; cbv beta iota.
    + destruct (Z.ltb_spec (2 * i + 1) (nb_elem h)) as [Hl|Hl]; [|lia].
      destruct (Hcmp (2 * i + 1) ltac:(lia)) as (z & Hz & Hle' & Hiff').
      rewrite Hle', ?Ok_bind. destruct (elt_le x z) eqn:Hxz; cbn [negb].
      * eexists. split; [reflexivity|]. left. split; [reflexivity|].
        intros j [-> | ->] _; [apply Hiff' | apply Hiff]; reflexivity.
      * eexists. split; [reflexivity|]. right. split; [reflexivity|].
        exists (2 * i + 1). split; [auto|]. split; [lia|].
        intros H. apply Hiff' in H. discriminate.
    + eexists. split; [reflexivity|]. right.
      split; [reflexivity|].
      exists (2 * i + 2). split; [auto|]. split; [lia|].
      intros H. apply Hiff in H. discriminate.
  - rewrite ?Ok_bind; cbv beta iota.
    destruct (Z.ltb_spec (2 * i + 1) (nb_elem h)) as [Hl|Hl].
    + destruct (Hcmp (2 * i + 1) ltac:(lia)) as (z & Hz & Hle' & Hiff').
      rewrite Hle', ?Ok_bind. destruct (elt_le x z) eqn:Hxz; cbn [negb].
      * eexists. split; [reflexivity|]. left. split; [reflexivity|].
        intros j [-> | ->] Hj; [apply Hiff'; reflexivity | lia].
      * eexists. split; [reflexivity|]. right. split; [reflexivity|].
        exists (2 * i + 1). split; [auto|]. split; [lia|].
        intros H. apply Hiff' in H. discriminate.
    + eexists. split; [reflexivity|]. left. split; [reflexivity|].
      intros j [-> | ->] Hj; lia.
Qed.

Lemma plain_is_valid_scan (h : Heap) (l : list Z) :
  wf m h -> 2 * nb_elem h < UINT_MOD ->
  (forall i, i ∈ l -> 0 <= i < nb_elem h) ->
  exists r, for_each l (is_valid_body elt_le m h) = Ok r /\
    ((r = Next /\
      forall i, i ∈ l ->
        forall j, j = 2 * i + 1 \/ j = 2 * i + 2 -> j < nb_elem h ->
                  le_at elt_le m h i j) \/
     (r = Return false /\
      exists i j, i ∈ l /\ (j = 2 * i + 1 \/ j = 2 * i + 2) /\
                  j < nb_elem h /\ ~ le_at elt_le m h i j)).
Proof.
  intros Hwf Hsmall. induction l as [|i l IH]; intros Hl.
  - exists Next. split; [reflexivity|]. left. split; [reflexivity|].
    intros i Hi. inversion Hi.
  - destruct (plain_is_valid_body_spec h i Hwf Hsmall)
      as (r & Hr & [[-> Hok]|[-> (j & Hj & Hjn & Hbad)]]).
    { apply Hl. left. }
    + destruct IH as (r' & Hr' & [[-> Hok']|[-> (i' & j & Hi' & Hj)]]).
      { intros k Hk. apply Hl. right. exact Hk. }
      * exists Next. cbn [for_each]. rewrite Hr, Ok_bind.
        split; [exact Hr'|]. left. split; [reflexivity|].
        intros k Hk. apply elem_of_cons in Hk as [->|Hk]; auto.
      * exists (Return false). cbn [for_each]. rewrite Hr, Ok_bind.
        split; [exact Hr'|]. right. split; [reflexivity|].
        exists i', j. split; [right; exact Hi' | exact Hj].
    + exists (Return false). cbn [for_each]. rewrite Hr, Ok_bind.
      split; [reflexivity|]. right. split; [reflexivity|].
      exists i, j. split; [left|]. auto.
Qed.

Lemma plain_is_valid_spec (h : Heap) :
  wf m h -> 2 * nb_elem h < UINT_MOD ->
  exists b, is_valid elt_le m h = Ok b /\ (b = true <-> ordered elt_le m h).
Proof.
  intros Hwf Hsmall. pose proof (wf_nb _ _ Hwf) as Hnb.
  destruct (plain_is_valid_scan h (seqZ 0 (nb_elem h)) Hwf Hsmall)
    as (r & Hr & [[-> Hok]|[-> (i & j & Hi & Hj & Hjn & Hbad)]]).
  { intros i Hi. apply elem_of_seqZ in Hi. lia. }
  - exists true. unfold is_valid, then_. rewrite Hr, Ok_bind.
    split; [reflexivity|]. split; [|reflexivity]. intros _ k Hk.
    apply (Hok ((k - 1) / 2)); [apply elem_of_seqZ; zlia | zlia | lia].
  - exists false. unfold is_valid, then_. rewrite Hr, Ok_bind.
    split; [reflexivity|]. split; [discriminate|]. intros Hord.
    exfalso. apply Hbad. apply elem_of_seqZ in Hi.
    replace i with ((j - 1) / 2) by zlia. apply Hord. lia.
Qed.

Lemma plain_assert_valid_ok (h : Heap) :
  wf m h -> 2 * nb_elem h < UINT_MOD -> ordered elt_le m h ->
  assert_valid elt_le m h = Ok tt.
Proof.
  intros Hwf Hsmall Hord.
  destruct (plain_is_valid_spec h Hwf Hsmall) as (b & Hb & Hiff).
  unfold assert_valid. rewrite Hb, Ok_bind.
  rewrite (proj2 Hiff Hord). reflexivity.
Qed.

Lemma plain_assert_valid_abort (h : Heap) :
  wf m h -> 2 * nb_elem h < UINT_MOD -> ~ ordered elt_le m h ->
  assert_valid elt_le m h = Abort.
Proof.
  intros Hwf Hsmall Hord.
  destruct (plain_is_valid_spec h Hwf Hsmall) as (b & Hb & Hiff).
  unfold assert_valid. rewrite Hb, Ok_bind.
  destruct b; [|reflexivity]. exfalso. apply Hord, Hiff. reflexivity.
Qed.

End PlainFacts.

(** ** The heap of [heap.hpp] and the indexed heap make the same moves *)

Lemma omap_pointwise {A B C} (f : A -> option C) (g : B -> option C)
  (l : list A) : forall l' : list B,
  length l = length l' ->
  (forall i x y, l !! i = Some x -> l' !! i = Some y -> f x = g y) ->
  omap f l = omap g l'.
Proof.
  induction l as [|x l IH]; intros [|y l'] Hlen Hpt; try discriminate.
  - reflexivity.
  - cbn. rewrite (Hpt 0%nat x y eq_refl eq_refl).
    rewrite (IH l'); [reflexivity | cbn in Hlen; lia |].
    intros i x' y' Hx' Hy'. exact (Hpt (S i) x' y' Hx' Hy').
Qed.

Section Erasure.

Import PlainHeap.

Context {Element : Type}.
Variable elt_lt elt_le : Element -> Element -> bool.
Variable m : Mem (Element := Element).

Lemma erases_father (hp : Heap) (hi : Heap_Id) (i : Z) :
  erases hp hi -> get_pos_father hp i = HeapId.get_pos_father hi i.
Proof.
  intros (Hc & _). unfold get_pos_father, HeapId.get_pos_father.
  rewrite Hc. reflexivity.
Qed.

Lemma erases_left_son (hp : Heap) (hi : Heap_Id) (i : Z) :
  erases hp hi -> get_pos_left_son hp i = HeapId.get_pos_left_son hi i.
Proof.
  intros (Hc & _). unfold get_pos_left_son, HeapId.get_pos_left_son.
  rewrite Hc. reflexivity.
Qed.

Lemma erases_right_son (hp : Heap) (hi : Heap_Id) (i : Z) :
  erases hp hi -> get_pos_right_son hp i = HeapId.get_pos_right_son hi i.
Proof.
  intros (Hc & _). unfold get_pos_right_son, HeapId.get_pos_right_son.
  rewrite Hc. reflexivity.
Qed.

Lemma erases_cmp (op : Element -> Element -> bool) (hp : Heap)
  (hi : Heap_Id) (i j : Z) (c : bool) :
  erases hp hi -> 0 <= i < nb_elem hp -> 0 <= j < nb_elem hp ->
  HeapId.cmp_pos op m hi i j = Ok c -> cmp_pos op m hp i j = Ok c.
Proof.
  intros (Hc & Hn & Hlen & Hcells) Hi Hj H. unfold HeapId.cmp_pos in H.
  apply bind_Ok_inv in H as (u1 & Hr1 & H). apply in_range_inv in Hr1.
  apply bind_Ok_inv in H as (u2 & Hr2 & H). apply in_range_inv in Hr2.
  apply bind_Ok_inv in H as (n1 & Hn1 & H). apply rd_Ok_inv in Hn1 as [_ Hn1].
  apply bind_Ok_inv in H as (e1 & He1 & H).
  apply bind_Ok_inv in H as (n2 & Hn2 & H). apply rd_Ok_inv in Hn2 as [_ Hn2].
  apply bind_Ok_inv in H as (e2 & He2 & H).
  unfold cmp_pos, rd_ptr. rewrite Hc.
  rewrite !bind_in_range by lia.
  rewrite (rd_ok _ _ _ (proj1 Hi) (Hcells i n1 Hi Hn1)).
  rewrite !Ok_bind. cbv beta iota. rewrite He1, Ok_bind.
  rewrite (rd_ok _ _ _ (proj1 Hj) (Hcells j n2 Hj Hn2)).
  rewrite !Ok_bind. cbv beta iota. rewrite He2, Ok_bind. exact H.
Qed.

Lemma erases_swap (hp : Heap) (hi : Heap_Id) (a b : Z) (hi' : Heap_Id) :
  erases hp hi -> 0 <= a < nb_elem hp -> 0 <= b < nb_elem hp ->
  HeapId.swap hi a b = Ok hi' ->
  exists hp', swap hp a b = Ok hp' /\ erases hp' hi'.
Proof.
  intros (Hc & Hn & Hlen & Hcells) Ha Hb H.
  apply swap_inv in H as (na & nb & Hra & Hrb & Hna & Hnb & _ & _ & ->).
  pose proof (Hcells a na Ha Hna) as Hpa.
  pose proof (Hcells b nb Hb Hnb) as Hpb.
  pose proof (lookup_lt_Some _ _ _ Hpa) as Hla.
  pose proof (lookup_lt_Some _ _ _ Hpb) as Hlb.
  eexists. split.
  - unfold swap, rd_ptr. rewrite Hc. rewrite !bind_in_range by lia.
    rewrite (rd_ok _ _ _ (proj1 Ha) Hpa). rewrite !Ok_bind. cbv beta iota.
    rewrite (rd_ok _ _ _ (proj1 Hb) Hpb). rewrite !Ok_bind. cbv beta iota.
    rewrite bind_wr by lia. rewrite bind_wr by (rewrite length_insert; lia).
    reflexivity.
  - split; [exact Hc|]. split; [exact Hn|]. cbn. split.
    + rewrite !length_insert. exact Hlen.
    + intros k n Hk Hkn.
      rewrite (lookup_swapped _ a b k na nb) in Hkn by (auto; lia).
      rewrite (lookup_swapped _ a b k (Some na.1) (Some nb.1)) by (auto; lia).
      apply Hcells; [|exact Hkn].
      apply transpose_range; assumption.
Qed.

Lemma erases_raise_loop (fuel : nat) :
  forall (hp : Heap) (hi : Heap_Id) (pos : Z) (hi' : Heap_Id),
  erases hp hi -> 0 <= pos < nb_elem hp ->
  HeapId.raise_loop elt_lt fuel m hi pos
    (if pos =? 0 then 0 else (pos - 1) / 2) = Ok hi' ->
  exists hp',
    raise_loop elt_lt fuel m hp pos (if pos =? 0 then 0 else (pos - 1) / 2)
      = Ok hp' /\
    erases hp' hi'.
Proof.
  induction fuel as [|fuel IH]; intros hp hi pos hi' Her Hpos H;
    [discriminate|].
  cbn [HeapId.raise_loop] in H. cbn [raise_loop].
  set (f := if pos =? 0 then 0 else (pos - 1) / 2) in *.
  assert (Hf : 0 <= f < nb_elem hp)
    by (subst f; destruct (Z.eqb_spec pos 0); zlia).
  apply bind_Ok_inv in H as (c & Hcnd & H).
  assert (Hcnd' : (if 0 <=? f then lt elt_lt m hp pos f else Ok false) = Ok c).
  { destruct (0 <=? f); [|exact Hcnd].
    apply (erases_cmp _ hp hi); assumption. }
  rewrite Hcnd', Ok_bind. destruct c.
  - apply bind_Ok_inv in H as (h1 & Hs & H).
    apply bind_Ok_inv in H as (f' & Hf' & H).
    destruct (erases_swap hp hi pos f h1 Her Hpos Hf Hs) as (hp1 & Hsp & Her1).
    rewrite Hsp, Ok_bind. rewrite (erases_father hp1 h1 f Her1), Hf', Ok_bind.
    apply get_pos_father_inv in Hf' as [_ ->]; [|lia].
    apply (IH hp1 h1 f hi' Her1); [|exact H].
    destruct Her1 as (_ & Hn1 & _). apply swap_frame in Hs as (_ & Hn & _).
    destruct Her as (_ & Hn0 & _). lia.
  - injection H as <-. exists hp. auto.
Qed.

Lemma erases_lower_loop (fuel : nat) :
  forall (hp : Heap) (hi : Heap_Id) (pos : Z) (hi' : Heap_Id),
  erases hp hi -> 0 <= pos -> 2 * nb_elem hp < UINT_MOD ->
  HeapId.lower_loop elt_lt fuel m hi pos (2 * pos + 1) (2 * pos + 2)
    = Ok hi' ->
  exists hp',
    lower_loop elt_lt fuel m hp pos (2 * pos + 1) (2 * pos + 2) = Ok hp' /\
    erases hp' hi'.
Proof.
  induction fuel as [|fuel IH]; intros hp hi pos hi' Her Hpos Hsmall H;
    [discriminate|].
  pose proof Her as (Hc0 & Hn0 & _).
  cbn [HeapId.lower_loop] in H. cbn [lower_loop]. rewrite <- Hn0 in H.
  apply bind_Ok_inv in H as (c1 & Hc1 & H).
  assert (Hc1' : (if 2 * pos + 1 <? nb_elem hp
                  then lt elt_lt m hp (2 * pos + 1) pos else Ok false)
                 = Ok c1).
  { destruct (Z.ltb_spec (2 * pos + 1) (nb_elem hp)); [|exact Hc1].
    apply (erases_cmp _ hp hi); [assumption | lia | lia | exact Hc1]. }
  rewrite Hc1', Ok_bind.
  apply bind_Ok_inv in H as (c & Hc & H).
  assert (Hc' : (if c1 then Ok true
                 else if 2 * pos + 2 <? nb_elem hp
                      then lt elt_lt m hp (2 * pos + 2) pos else Ok false)
                = Ok c).
  { destruct c1; [exact Hc|].
    destruct (Z.ltb_spec (2 * pos + 2) (nb_elem hp)); [|exact Hc].
    apply (erases_cmp _ hp hi); [assumption | lia | lia | exact Hc]. }
  rewrite Hc', Ok_bind. destruct c.
  - assert (Hl : 2 * pos + 1 < nb_elem hp).
    { destruct (Z.ltb_spec (2 * pos + 1) (nb_elem hp)); [assumption|].
      injection Hc1 as <-.
      destruct (Z.ltb_spec (2 * pos + 2) (nb_elem hp)); [lia | discriminate]. }
    apply bind_Ok_inv in H as (c2 & Hc2 & H).
    assert (Hc2' : (if 2 * pos + 2 <? nb_elem hp
                    then lt elt_lt m hp (2 * pos + 2) (2 * pos + 1)
                    else Ok false) = Ok c2).
    { destruct (Z.ltb_spec (2 * pos + 2) (nb_elem hp)); [|exact Hc2].
      apply (erases_cmp _ hp hi); [assumption | lia | lia | exact Hc2]. }
    rewrite Hc2', Ok_bind. cbv beta iota zeta in H |- *.
    set (p' := if c2 then 2 * pos + 2 else 2 * pos + 1) in *.
    assert (Hp' : pos < p' < nb_elem hp).
    { subst p'. destruct c2; [|lia].
      destruct (Z.ltb_spec (2 * pos + 2) (nb_elem hp)); [lia | discriminate]. }
    apply bind_Ok_inv in H as (h1 & Hs & H).
    apply bind_Ok_inv in H as (l' & Hl' & H).
    apply bind_Ok_inv in H as (r' & Hr' & H).
    destruct (erases_swap hp hi pos p' h1 Her ltac:(lia) ltac:(lia) Hs)
      as (hp1 & Hsp & Her1).
    rewrite Hsp, Ok_bind.
    rewrite (erases_left_son hp1 h1 p' Her1), Hl', Ok_bind.
    rewrite (erases_right_son hp1 h1 p' Her1), Hr', Ok_bind.
    apply get_pos_left_son_inv in Hl'. apply get_pos_right_son_inv in Hr'.
    rewrite u32_small in Hl', Hr' by lia. subst l' r'.
    assert (Hn1 : nb_elem hp1 = nb_elem hp).
    { destruct Her1 as (_ & Hn1 & _). apply swap_frame in Hs as (_ & Hn & _).
      lia. }
    apply (IH hp1 h1 p' hi' Her1); [lia | lia | exact H].
  - injection H as <-. exists hp. auto.
Qed.

(** *** What erasure keeps *)

Lemma erases_key (hp : Heap) (hi : Heap_Id) (k : Z) :
  erases hp hi -> HeapId.wf m hi -> 0 <= k < nb_elem hp ->
  key_at m hp k = HeapId.key_at m hi k.
Proof.
  intros (Hc & Hn & Hlen & Hcells) Hwf Hk.
  destruct (HeapId.wf_nodes _ _ Hwf k ltac:(lia)) as (a & e & id & Hnd & _).
  unfold key_at, HeapId.key_at. rewrite Hnd, (Hcells k _ Hk Hnd). reflexivity.
Qed.

Lemma erases_wf (hp : Heap) (hi : Heap_Id) :
  erases hp hi -> HeapId.wf m hi -> wf m hp.
Proof.
  intros (Hc & Hn & Hlen & Hcells) [H1 H2 H3 H4 H5 H6]. split.
  - rewrite Hc. exact H1.
  - rewrite Hc, Hn. exact H2.
  - rewrite Hc, Hlen. exact H3.
  - intros k Hk. destruct (H6 k ltac:(lia)) as (a & e & id & Hnd & Ha & _).
    exists a, e. split; [exact (Hcells k _ Hk Hnd) | exact Ha].
Qed.

Lemma erases_ordered (hp : Heap) (hi : Heap_Id) :
  erases hp hi -> HeapId.wf m hi ->
  ordered elt_le m hp <-> HeapId.ordered elt_le m hi.
Proof.
  intros Her Hwf. pose proof Her as (Hc & Hn & _).
  unfold ordered, HeapId.ordered, le_at, HeapId.le_at. rewrite Hn.
  split; intros H k Hk; specialize (H k Hk);
    rewrite !(erases_key hp hi) in * by (assumption || zlia); exact H.
Qed.

Lemma erases_ptrs (hp : Heap) (hi : Heap_Id) :
  erases hp hi -> ptrs hp = HeapId.ptrs hi.
Proof.
  intros (Hc & Hn & Hlen & Hcells). unfold ptrs, HeapId.ptrs. rewrite Hn.
  apply omap_pointwise.
  - rewrite !length_take, Hlen. reflexivity.
  - intros i x y Hx Hy.
    apply lookup_take_Some in Hx as [Hx Hi].
    apply lookup_take_Some in Hy as [Hy _].
    pose proof (Hcells (Z.of_nat i) y ltac:(lia)) as H.
    rewrite Nat2Z.id in H. rewrite (H Hy) in Hx. injection Hx as <-.
    reflexivity.
Qed.

Lemma with_ids_ok (h : Heap) :
  wf m h -> HeapId.wf m (with_ids h) /\ erases h (with_ids h).
Proof.
  intros [H1 H2 H3 H4]. split.
  - split; cbn; rewrite ?length_imap, ?length_replicate; try lia;
      try reflexivity.
    intros k Hk. destruct (H4 k Hk) as (a & e & Hcell & Ha).
    exists a, e, k. rewrite list_lookup_imap, Hcell. cbn.
    rewrite Z2Nat.id by lia. auto with lia.
  - split; [reflexivity|]. split; [reflexivity|]. cbn. split.
    + rewrite length_imap. reflexivity.
    + intros k n Hk Hn. destruct (H4 k Hk) as (a & e & Hcell & Ha).
      rewrite list_lookup_imap, Hcell in Hn. injection Hn as <-.
      exact Hcell.
Qed.

End Erasure.

(** ** The heap of [heap.hpp]: push and pop *)

Section PlainContract.

Import PlainHeap.

Context {Element : Type}.
Variable elt_lt elt_le : Element -> Element -> bool.
Variable m : Mem (Element := Element).
Hypothesis Htotal : forall x y, elt_le x y = true \/ elt_le y x = true.
Hypothesis Htrans : forall x y z,
  elt_le x y = true -> elt_le y z = true -> elt_le x z = true.
Hypothesis Hstrict : forall x y, elt_lt x y = negb (elt_le y x).

Lemma plain_push_sim (hp : Heap) (hi : Heap_Id) (v : Z) :
  erases hp hi -> HeapId.wf m hi -> HeapId.ordered elt_le m hi ->
  nb_elem hp < capacity hp -> is_Some (m v) ->
  2 * (nb_elem hp + 1) < UINT_MOD ->
  exists hi' hp',
    HeapId.push elt_lt elt_le m hi v = Ok (hi', nb_elem hp) /\
    push elt_lt elt_le m hp v = Ok hp' /\ erases hp' hi' /\
    HeapId.wf m hi' /\ HeapId.ordered elt_le m hi' /\
    HeapId.ptrs hi' ≡ₚ v :: HeapId.ptrs hi.
Proof.
  intros Her Hwfi Hordi Hroom Hv Hsmall.
  pose proof Her as (Hci & Hni & Hleni & Hcells).
  pose proof (erases_wf m hp hi Her Hwfi) as Hwf.
  assert (Hord : ordered elt_le m hp)
    by (apply (erases_ordered elt_le m hp hi Her Hwfi), Hordi).
  pose proof (wf_cap _ _ Hwf) as Hcap. pose proof (wf_nb _ _ Hwf) as Hnb.
  pose proof (wf_elements _ _ Hwf) as Hlen.
  destruct (push_ok elt_lt elt_le m Htotal Htrans Hstrict hi v Hwfi Hordi)
    as (hi' & id & Hp & Hwf' & Hord' & Hc' & Hn' & Hperm);
    [lia | exact Hv |].
  rewrite push_unfold in Hp by (assumption || lia).
  apply bind_Ok_inv in Hp as (h2 & Hr & Hp). injection Hp as -> <-.
  assert (Hpush : HeapId.push elt_lt elt_le m hi v = Ok (hi', nb_elem hp)).
  { rewrite push_unfold, Hr, Hni by (assumption || lia). reflexivity. }
  unfold HeapId.raise in Hr. rewrite <- Hni in Hr.
  apply bind_Ok_inv in Hr as (u & _ & Hr).
  apply bind_Ok_inv in Hr as (f & Hf & Hr).
  apply bind_Ok_inv in Hr as (h1 & Hloop & Hr).
  apply bind_Ok_inv in Hr as (u' & _ & Hr). injection Hr as ->.
  set (h1p := set_nb_elem
                (set_elements hp
                   (<[Z.to_nat (nb_elem hp) := Some (Some v)]> (elements hp)))
                (nb_elem hp + 1)).
  assert (Her1 : erases h1p (pushed hi v)).
  { split; [exact Hci|]. split; [cbn; lia|]. cbn. split.
    - rewrite !length_insert. exact Hleni.
    - intros k n Hk Hkn. rewrite <- Hni in Hkn.
      destruct (decide (k = nb_elem hp)) as [->|Hne].
      + rewrite list_lookup_insert_eq in Hkn by lia.
        injection Hkn as <-. apply list_lookup_insert_eq. lia.
      + rewrite list_lookup_insert_ne in Hkn by lia.
        rewrite list_lookup_insert_ne by lia.
        apply Hcells; [lia | exact Hkn]. }
  pose proof Hf as Hf'.
  apply get_pos_father_inv in Hf' as [_ ->]; [|lia].
  destruct (erases_raise_loop elt_lt m _ h1p (pushed hi v) (nb_elem hp) hi'
              Her1 ltac:(cbn; lia) Hloop) as (hp' & Hloop' & Her').
  pose proof (erases_wf m hp' hi' Her' Hwf') as Hwfp'.
  assert (Hordp' : ordered elt_le m hp')
    by (apply (erases_ordered elt_le m hp' hi' Her' Hwf'), Hord').
  pose proof Her' as (Hcp' & Hnp' & _).
  exists hi', hp'. split; [exact Hpush|]. split.
  - unfold push.
    rewrite (bind_Ok _ _ tt) by (apply plain_assert_valid_ok; auto; lia).
    rewrite (bind_Ok _ _ tt) by (apply assert_true, Z.ltb_lt; lia).
    rewrite bind_wr by lia.
    rewrite (u32_small (nb_elem hp + 1)) by lia.
    cbn [nb_elem set_nb_elem]. fold h1p.
    replace (nb_elem hp + 1 - 1) with (nb_elem hp) by lia.
    rewrite (u32_small (nb_elem hp)) by lia.
    unfold raise.
    rewrite bind_in_range by (cbn; rewrite u32_small; lia).
    rewrite (erases_father h1p (pushed hi v) _ Her1), Hf, Ok_bind.
    rewrite Hloop', Ok_bind.
    rewrite (bind_Ok _ _ tt) by (apply plain_assert_valid_ok; auto; lia).
    rewrite Ok_bind.
    rewrite (bind_Ok _ _ tt) by (apply plain_assert_valid_ok; auto; lia).
    reflexivity.
  - auto.
Qed.

Lemma plain_pop_sim (hp : Heap) (hi : Heap_Id) :
  erases hp hi -> HeapId.wf m hi -> HeapId.ordered elt_le m hi ->
  0 < nb_elem hp -> 2 * nb_elem hp < UINT_MOD ->
  exists hi' hp' a,
    HeapId.pop elt_lt elt_le m hi = Ok (hi', a) /\
    pop elt_lt elt_le m hp = Ok (hp', a) /\ erases hp' hi' /\
    HeapId.wf m hi' /\ HeapId.ordered elt_le m hi' /\
    HeapId.nb_elem hi' = HeapId.nb_elem hi - 1 /\
    HeapId.ptrs hi ≡ₚ a :: HeapId.ptrs hi' /\
    (forall b, b ∈ HeapId.ptrs hi -> key_le elt_le m a b).
Proof.
  intros Her Hwfi Hordi Hpos Hsmall.
  pose proof Her as (Hci & Hni & Hleni & Hcells).
  pose proof (erases_wf m hp hi Her Hwfi) as Hwf.
  assert (Hord : ordered elt_le m hp)
    by (apply (erases_ordered elt_le m hp hi Her Hwfi), Hordi).
  pose proof (wf_cap _ _ Hwf) as Hcap. pose proof (wf_nb _ _ Hwf) as Hnb.
  pose proof (wf_elements _ _ Hwf) as Hlen.
  destruct (pop_ok elt_lt elt_le m Htotal Htrans Hstrict hi Hwfi Hordi)
    as (hi' & a & Hp & Hwf' & Hord' & Hc' & Hn' & Hperm & Hmin);
    [lia | lia |].
  pose proof Hp as Hpop. unfold HeapId.pop in Hp. rewrite <- Hni in Hp.
  apply bind_Ok_inv in Hp as (u & _ & Hp).
  apply bind_Ok_inv in Hp as (h1 & Hs & Hp).
  apply bind_Ok_inv in Hp as (pn & Hpn & Hp).
  apply bind_Ok_inv in Hp as (h3 & Hl & Hp).
  apply bind_Ok_inv in Hp as (u' & _ & Hp).
  rewrite (u32_small (nb_elem hp - 1)) in Hs by lia.
  apply swap_inv in Hs as (na & nb & _ & _ & Hna & Hnb' & _ & _ & ->).
  cbn [HeapId.nb_elem HeapId.elements] in Hpn, Hl.
  rewrite <- Hni in Hpn, Hl.
  rewrite (u32_small (nb_elem hp - 1)) in Hpn, Hl by lia.
  apply rd_Ok_inv in Hpn as [_ Hpn].
  rewrite list_lookup_insert_eq in Hpn
    by (rewrite length_insert; apply lookup_lt_Some in Hnb'; lia).
  injection Hpn as <-.
  destruct na.1 as [a0|] eqn:Hna1; [|discriminate].
  injection Hp as -> ->.
  pose proof (Hcells 0 na ltac:(lia) Hna) as Hc0. rewrite Hna1 in Hc0.
  pose proof (Hcells (nb_elem hp - 1) nb ltac:(lia) Hnb') as Hcl.
  set (h1p := set_nb_elem
                (set_elements hp
                   (<[Z.to_nat (nb_elem hp - 1) := Some None]>
                      (<[Z.to_nat 0 := Some nb.1]> (elements hp))))
                (nb_elem hp - 1)).
  match type of Hl with
  | HeapId.lower _ _ _ ?x _ = _ => set (h2 := x) in *
  end.
  assert (Her1 : erases h1p h2).
  { split; [exact Hci|]. split; [reflexivity|]. cbn. split.
    - rewrite !length_insert. exact Hleni.
    - intros k n Hk Hkn.
      rewrite list_lookup_insert_ne in Hkn by lia.
      rewrite list_lookup_insert_ne by lia.
      destruct (decide (k = 0)) as [->|Hne].
      + rewrite list_lookup_insert_eq in Hkn
          by (apply lookup_lt_Some in Hna; lia).
        injection Hkn as <-. apply list_lookup_insert_eq. lia.
      + rewrite list_lookup_insert_ne in Hkn by lia.
        rewrite list_lookup_insert_ne by lia.
        apply Hcells; [lia | exact Hkn]. }
  unfold HeapId.lower in Hl.
  apply bind_Ok_inv in Hl as (u1 & _ & Hl).
  apply bind_Ok_inv in Hl as (l & Hls & Hl).
  apply bind_Ok_inv in Hl as (r & Hrs & Hl).
  apply bind_Ok_inv in Hl as (h4 & Hloop & Hl).
  apply bind_Ok_inv in Hl as (u2 & _ & Hl). injection Hl as ->.
  pose proof Hls as Hls'. pose proof Hrs as Hrs'.
  apply get_pos_left_son_inv in Hls'. apply get_pos_right_son_inv in Hrs'.
  rewrite u32_small in Hls', Hrs' by (rewrite UINT_MOD_eq; lia).
  rewrite Hls', Hrs' in Hloop.
  destruct (erases_lower_loop elt_lt m _ h1p h2 0 hi' Her1 ltac:(lia)
              ltac:(cbn; lia) Hloop) as (hp' & Hloop' & Her').
  pose proof (erases_wf m hp' hi' Her' Hwf') as Hwfp'.
  assert (Hordp' : ordered elt_le m hp')
    by (apply (erases_ordered elt_le m hp' hi' Her' Hwf'), Hord').
  pose proof Her' as (Hcp' & Hnp' & _).
  exists hi', hp', a. split; [exact Hpop|]. split.
  - unfold pop, rd_ptr.
    rewrite (bind_Ok _ _ tt) by (apply plain_assert_valid_ok; auto; lia).
    rewrite (rd_ok _ 0 _ ltac:(lia) Hc0). rewrite !Ok_bind. cbv beta iota.
    rewrite (u32_small (nb_elem hp - 1)) by lia.
    rewrite (rd_ok _ (nb_elem hp - 1) _ ltac:(lia) Hcl).
    rewrite !Ok_bind. cbv beta iota.
    rewrite bind_wr by lia.
    rewrite bind_wr by (rewrite length_insert; lia).
    fold h1p. unfold lower.
    rewrite bind_in_range by (cbn; rewrite u32_small; lia).
    rewrite (erases_left_son h1p h2 0 Her1), Hls, Ok_bind.
    rewrite (erases_right_son h1p h2 0 Her1), Hrs, Ok_bind.
    change (HeapId.nb_elem h2) with (nb_elem h1p) in Hloop'.
    rewrite Hls', Hrs', Hloop', Ok_bind.
    rewrite (bind_Ok _ _ tt) by (apply plain_assert_valid_ok; auto; lia).
    rewrite Ok_bind.
    rewrite (bind_Ok _ _ tt) by (apply plain_assert_valid_ok; auto; lia).
    reflexivity.
  - auto 10.
Qed.

Lemma plain_push_ok (h : Heap) (v : Z) :
  wf m h -> ordered elt_le m h -> nb_elem h < capacity h ->
  is_Some (m v) -> 2 * (nb_elem h + 1) < UINT_MOD ->
  exists h',
    push elt_lt elt_le m h v = Ok h' /\
    wf m h' /\ ordered elt_le m h' /\ capacity h' = capacity h /\
    nb_elem h' = nb_elem h + 1 /\ ptrs h' ≡ₚ v :: ptrs h.
Proof.
  intros Hwf Hord Hroom Hv Hsmall.
  destruct (with_ids_ok m h Hwf) as [Hwfi Her].
  assert (Hordi : HeapId.ordered elt_le m (with_ids h))
    by (apply (erases_ordered elt_le m h _ Her Hwfi), Hord).
  destruct (plain_push_sim h _ v Her Hwfi Hordi Hroom Hv Hsmall)
    as (hi' & h' & Hpi & Hp & Her' & Hwf' & Hord' & Hperm).
  apply push_inv in Hpi as (_ & _ & _ & Hc' & _ & Hn' & _).
  cbn [fst] in Hc', Hn'. destruct Her' as (Hcp' & Hnp' & Her'').
  assert (Her' : erases h' hi') by (split; [|split]; assumption).
  exists h'. split; [exact Hp|].
  split; [exact (erases_wf m h' hi' Her' Hwf')|].
  split; [apply (erases_ordered elt_le m h' hi' Her' Hwf'), Hord'|].
  pose proof (wf_cap _ _ Hwf). pose proof (wf_nb _ _ Hwf).
  split; [cbn in Hc'; lia|].
  split; [cbn in Hn'; rewrite u32_small in Hn' by lia; lia|].
  rewrite (erases_ptrs h' hi' Her'), (erases_ptrs h _ Her). exact Hperm.
Qed.

Lemma plain_pop_ok (h : Heap) :
  wf m h -> ordered elt_le m h -> 0 < nb_elem h ->
  2 * nb_elem h < UINT_MOD ->
  exists h' a,
    pop elt_lt elt_le m h = Ok (h', a) /\
    wf m h' /\ ordered elt_le m h' /\ capacity h' = capacity h /\
    nb_elem h' = nb_elem h - 1 /\ ptrs h ≡ₚ a :: ptrs h' /\
    (forall b, b ∈ ptrs h -> key_le elt_le m a b).
Proof.
  intros Hwf Hord Hpos Hsmall.
  destruct (with_ids_ok m h Hwf) as [Hwfi Her].
  assert (Hordi : HeapId.ordered elt_le m (with_ids h))
    by (apply (erases_ordered elt_le m h _ Her Hwfi), Hord).
  destruct (plain_pop_sim h _ Her Hwfi Hordi Hpos Hsmall)
    as (hi' & h' & a & Hpi & Hp & Her' & Hwf' & Hord' & Hn' & Hperm & Hmin).
  apply pop_inv in Hpi as (_ & Hc' & _).
  cbn [fst] in Hc'. pose proof Her' as (Hcp' & Hnp' & _).
  exists h', a. split; [exact Hp|].
  split; [exact (erases_wf m h' hi' Her' Hwf')|].
  split; [apply (erases_ordered elt_le m h' hi' Her' Hwf'), Hord'|].
  split; [cbn in Hc'; lia|]. split; [cbn in Hn'; lia|].
  rewrite (erases_ptrs h' hi' Her'), (erases_ptrs h _ Her).
  split; [exact Hperm | exact Hmin].
Qed.

Lemma plain_push_all_ok (vs : list Z) : forall h : Heap,
  wf m h -> ordered elt_le m h ->
  nb_elem h + Z.of_nat (length vs) <= capacity h ->
  2 * (nb_elem h + Z.of_nat (length vs)) < UINT_MOD ->
  (forall v, v ∈ vs -> is_Some (m v)) ->
  exists h',
    push_all elt_lt elt_le m h vs = Ok h' /\
    wf m h' /\ ordered elt_le m h' /\ capacity h' = capacity h /\
    nb_elem h' = nb_elem h + Z.of_nat (length vs) /\
    ptrs h' ≡ₚ vs ++ ptrs h.
Proof.
  induction vs as [|v vs IH]; intros h Hwf Hord Hroom Hsmall Hvalid.
  - exists h. cbn. rewrite Z.add_0_r.
    split; [reflexivity|]. split; [exact Hwf|]. split; [exact Hord|].
    split; [reflexivity|]. split; reflexivity.
  - cbn [length] in Hroom, Hsmall.
    destruct (plain_push_ok h v Hwf Hord ltac:(lia))
      as (h1 & Hp & Hwf1 & Hord1 & Hc1 & Hn1 & Hperm1).
    { apply Hvalid. left. }
    { lia. }
    destruct (IH h1 Hwf1 Hord1)
      as (h' & Hps & Hwf' & Hord' & Hc' & Hn' & Hperm').
    { lia. }
    { lia. }
    { intros w Hw. apply Hvalid. right. exact Hw. }
    exists h'. cbn [push_all]. rewrite Hp, Ok_bind.
    split; [exact Hps|]. split; [exact Hwf'|]. split; [exact Hord'|].
    split; [congruence|]. split; [cbn [length]; lia|].
    rewrite Hperm', Hperm1. cbn. symmetry. apply Permutation_middle.
Qed.

Lemma plain_pop_n_ok (n : nat) : forall h : Heap,
  wf m h -> ordered elt_le m h -> nb_elem h = Z.of_nat n ->
  2 * nb_elem h < UINT_MOD ->
  exists h' out,
    pop_n elt_lt elt_le m h n = Ok (h', out) /\
    nb_elem h' = 0 /\
    out ≡ₚ ptrs h /\ StronglySorted (key_le elt_le m) out.
Proof.
  induction n as [|n IH]; intros h Hwf Hord Hn Hsmall.
  - exists h, []. split; [reflexivity|]. split; [lia|]. split; [|constructor].
    unfold ptrs. rewrite Hn. reflexivity.
  - destruct (plain_pop_ok h Hwf Hord ltac:(lia) Hsmall)
      as (h1 & a & Hp & Hwf1 & Hord1 & Hc1 & Hn1 & Hperm1 & Hmin).
    destruct (IH h1 Hwf1 Hord1 ltac:(lia) ltac:(lia))
      as (h' & out & Hpn & Hn' & Hperm & Hsorted).
    exists h', (a :: out). cbn [pop_n].
    rewrite Hp, Ok_bind. cbn [fst snd].
    rewrite Hpn, Ok_bind. cbn [fst snd].
    split; [reflexivity|]. split; [exact Hn'|].
    split; [rewrite Hperm1, Hperm; reflexivity|].
    constructor; [exact Hsorted|].
    apply Forall_forall. intros b Hb. apply Hmin.
    rewrite Hperm1, <- Hperm. right. exact Hb.
Qed.

Lemma plain_new_ok (cap : Z) :
  0 <= cap < UINT_MOD ->
  let h := mkPlain cap (replicate (Z.to_nat cap) None) 0 in
  Heap_new elt_le m cap = Ok h /\ wf m h /\ ordered elt_le m h /\
  ptrs h = [].
Proof.
  intros Hcap h. split; [reflexivity|]. split; [|split].
  - split; cbn; rewrite ?length_replicate; try lia.
  - intros k Hk. cbn in Hk. lia.
  - reflexivity.
Qed.

(** X9: on a heap whose positions below [nb_elem] hold the addresses of
    elements, with fewer than [2^31] elements, [is_valid] of [heap.hpp]
    returns normally, and it returns [true] exactly when every position is
    above its father. *)
Theorem plain_is_valid_decides_order (h : Heap) :
  wf m h -> 2 * nb_elem h < UINT_MOD ->
  exists b, is_valid elt_le m h = Ok b /\ (b = true <-> ordered elt_le m h).
Proof. apply plain_is_valid_spec. Qed.


(** X11: [pop] of [heap.hpp], on a well-formed and ordered heap that is not
    empty and holds fewer than [2^31] elements, succeeds and returns an
    address whose key is below or equal to every key of the heap; the heap
    is ordered again and holds the other addresses. *)
Theorem plain_pop_returns_minimum (h : Heap) :
  wf m h -> ordered elt_le m h -> 0 < nb_elem h ->
  2 * nb_elem h < UINT_MOD ->
  exists h' a,
    pop elt_lt elt_le m h = Ok (h', a) /\
    wf m h' /\ ordered elt_le m h' /\ capacity h' = capacity h /\
    nb_elem h' = nb_elem h - 1 /\ ptrs h ≡ₚ a :: ptrs h' /\
    (forall b, b ∈ ptrs h -> key_le elt_le m a b).
Proof. apply plain_pop_ok. Qed.

(** X12: for the heap of [heap.hpp], [n] pushes into a new heap followed by
    [n] pops succeed when [n] exceeds neither the capacity nor [2^31 - 1];
    the pops return the pushed addresses, each once, in non-decreasing order
    of their keys, and leave the heap empty. *)
Theorem plain_pushes_then_pops_sorted (cap : Z) (vs : list Z) :
  Z.of_nat (length vs) <= cap < UINT_MOD ->
  2 * Z.of_nat (length vs) < UINT_MOD ->
  (forall v, v ∈ vs -> is_Some (m v)) ->
  exists h0 h h' out,
    Heap_new elt_le m cap = Ok h0 /\
    push_all elt_lt elt_le m h0 vs = Ok h /\
    pop_n elt_lt elt_le m h (length vs) = Ok (h', out) /\
    is_empty h' = true /\
    out ≡ₚ vs /\ Sorted (key_le elt_le m) out.
Proof.
  intros Hcap Hsmall Hvalid.
  destruct (plain_new_ok cap ltac:(lia)) as (Hnew & Hwf0 & Hord0 & Hptrs0).
  destruct (plain_push_all_ok vs _ Hwf0 Hord0 ltac:(cbn; lia)
              ltac:(cbn; lia) Hvalid)
    as (h & Hps & Hwf & Hord & _ & Hn & Hperm).
  cbn in Hn. rewrite Hptrs0, app_nil_r in Hperm.
  destruct (plain_pop_n_ok (length vs) h Hwf Hord ltac:(lia) ltac:(lia))
    as (h' & out & Hpn & Hn' & Hperm' & Hsorted).
  eexists _, h, h', out. split; [exact Hnew|]. split; [exact Hps|].
  split; [exact Hpn|]. split; [unfold is_empty; rewrite Hn'; reflexivity|].
  split; [rewrite Hperm', Hperm; reflexivity|].
  apply StronglySorted_Sorted, Hsorted.
Qed.

(** X16: the heap of [heap.hpp] is the indexed heap without its ids.  When
    an indexed heap is well formed and ordered, and a plain heap has its
    capacity, its number of elements and its pointers, [push] of the same
    address succeeds on both, [pop] succeeds on both and returns the same
    address, and the resulting heaps again hold the same pointers. *)
Theorem heap_is_heap_id_without_ids (hp : Heap) (hi : Heap_Id) (v : Z) :
  erases hp hi -> HeapId.wf m hi -> HeapId.ordered elt_le m hi ->
  2 * (nb_elem hp + 1) < UINT_MOD ->
  (nb_elem hp < capacity hp -> is_Some (m v) ->
   exists hi' hp',
     HeapId.push elt_lt elt_le m hi v = Ok (hi', nb_elem hp) /\
     push elt_lt elt_le m hp v = Ok hp' /\ erases hp' hi') /\
  (0 < nb_elem hp ->
   exists hi' hp' a,
     HeapId.pop elt_lt elt_le m hi = Ok (hi', a) /\
     pop elt_lt elt_le m hp = Ok (hp', a) /\ erases hp' hi').
Proof.
  intros Her Hwfi Hordi Hsmall. split.
  - intros Hroom Hv.
    destruct (plain_push_sim hp hi v Her Hwfi Hordi Hroom Hv Hsmall)
      as (hi' & hp' & H1 & H2 & H3 & _).
    exists hi', hp'. auto.
  - intros Hpos.
    destruct (plain_pop_sim hp hi Her Hwfi Hordi Hpos ltac:(lia))
      as (hi' & hp' & a & H1 & H2 & H3 & _).
    exists hi', hp', a. auto.
Qed.

End PlainContract.

Section PlainEdges.

Import PlainHeap.

Context {Element : Type}.
Variable elt_lt elt_le : Element -> Element -> bool.
Variable m : Mem (Element := Element).

(** X13: the check is live in [heap.hpp]: on a well-formed heap of fewer
    than [2^31] elements in which some position is below its father, [push]
    and [pop] stop on the failed assertion [assert(is_valid())] before they
    change anything. *)
Theorem plain_unordered_heap_aborts (h : Heap) (v : Z) :
  wf m h -> 2 * nb_elem h < UINT_MOD -> ~ ordered elt_le m h ->
  push elt_lt elt_le m h v = Abort /\ pop elt_lt elt_le m h = Abort.
Proof.
  intros Hwf Hsmall Hord.
  pose proof (plain_assert_valid_abort elt_le m h Hwf Hsmall Hord) as Ha.
  unfold push, pop. rewrite Ha. split; reflexivity.
Qed.

(** X14: [push] on a well-formed, ordered heap that already holds
    [capacity] elements stops on the failed assertion
    [assert(nb_elem < capacity)]. *)
Theorem plain_push_full_aborts (h : Heap) (v : Z) :
  wf m h -> 2 * nb_elem h < UINT_MOD -> ordered elt_le m h ->
  capacity h <= nb_elem h ->
  push elt_lt elt_le m h v = Abort.
Proof.
  intros Hwf Hsmall Hord Hfull. unfold push.
  rewrite (bind_Ok _ _ tt) by (apply plain_assert_valid_ok; assumption).
  destruct (Z.ltb_spec (nb_elem h) (capacity h)); [lia | reflexivity].
Qed.

(** X15: no assertion of [heap.hpp] guards [pop] against an empty heap:
    when [nb_elem] is 0 and the first cell holds no address (it is
    indeterminate in a new heap and null once the heap has been emptied, and
    there is no first cell when the capacity is 0), [is_valid] passes and
    [pop] dereferences that cell: the behaviour is undefined. *)
Theorem plain_pop_empty_undefined (h : Heap) :
  nb_elem h = 0 ->
  (forall a, elements h !! 0%nat <> Some (Some (Some a))) ->
  pop elt_lt elt_le m h = Undef.
Proof.
  intros Hn Hcell. unfold pop, assert_valid, is_valid. rewrite Hn. cbn.
  unfold rd_ptr, rd. change (Z.to_nat 0) with 0%nat.
  destruct (0 <? Z.of_nat (length (elements h))); [|reflexivity]. cbn.
  destruct (elements h !! 0%nat) as [[[a|]|]|] eqn:H0; try reflexivity.
  exfalso. exact (Hcell a eq_refl).
Qed.

End PlainEdges.

(** *** The heap of [heap.hpp] on integers *)

Lemma plain_two_ok (m : Mem (Element := Z)) (x y : Z) :
  m 0 = Some x -> m 1 = Some y ->
  PlainHeap.wf m PlainHeap.plain_two /\
  (PlainHeap.ordered Z.leb m PlainHeap.plain_two <-> x <= y).
Proof.
  intros Hx Hy. split; [split|split].
  - cbn. rewrite UINT_MOD_eq. lia.
  - cbn. lia.
  - reflexivity.
  - intros k Hk. cbn in Hk.
    assert (k = 0 \/ k = 1) as [->| ->] by lia.
    + exists 0, x. auto.
    + exists 1, y. auto.
  - intros Hord. destruct (Hord 1) as (x' & y' & Hx' & Hy' & Hle);
      [cbn; lia|].
    change ((1 - 1) / 2) with 0 in Hx'.
    assert (x' = x) as -> by (change (m 0 = Some x') in Hx'; congruence).
    assert (y' = y) as -> by (change (m 1 = Some y') in Hy'; congruence).
    apply Z.leb_le, Hle.
  - intros Hxy k Hk. cbn in Hk. assert (k = 1) as -> by lia.
    change ((1 - 1) / 2) with 0. exists x, y.
    split; [exact Hx|]. split; [exact Hy|]. apply Z.leb_le, Hxy.
Qed.

Lemma plain_is_valid_decides_order_witness :
  exists b,
    PlainHeap.is_valid Z.leb (mem_list [1; 5]) PlainHeap.plain_two = Ok b /\
    (b = true <->
     PlainHeap.ordered Z.leb (mem_list [1; 5]) PlainHeap.plain_two).
Proof.
  apply (plain_is_valid_decides_order Z.leb (mem_list [1; 5])).
  - apply (plain_two_ok (mem_list [1; 5]) 1 5); reflexivity.
  - cbn. rewrite UINT_MOD_eq. lia.
Defined.


Lemma plain_pop_returns_minimum_witness :
  exists h' a,
    PlainHeap.pop Z.ltb Z.leb (mem_list [1; 5]) PlainHeap.plain_two
      = Ok (h', a) /\
    PlainHeap.wf (mem_list [1; 5]) h' /\
    PlainHeap.ordered Z.leb (mem_list [1; 5]) h' /\
    PlainHeap.capacity h' = PlainHeap.capacity PlainHeap.plain_two /\
    PlainHeap.nb_elem h' = PlainHeap.nb_elem PlainHeap.plain_two - 1 /\
    PlainHeap.ptrs PlainHeap.plain_two ≡ₚ a :: PlainHeap.ptrs h' /\
    (forall b, b ∈ PlainHeap.ptrs PlainHeap.plain_two ->
               key_le Z.leb (mem_list [1; 5]) a b).
Proof.
  destruct (plain_two_ok (mem_list [1; 5]) 1 5 eq_refl eq_refl)
    as [Hwf Hord].
  apply (plain_pop_returns_minimum Z.ltb Z.leb (mem_list [1; 5])
           Zle_total Zle_trans Zlt_le _ Hwf).
  - apply Hord. lia.
  - cbn. lia.
  - cbn. rewrite UINT_MOD_eq. lia.
Defined.

Lemma plain_pushes_then_pops_sorted_witness :
  exists h0 h h' out,
    PlainHeap.Heap_new Z.leb (mem_list [7; 1; 5]) 3 = Ok h0 /\
    PlainHeap.push_all Z.ltb Z.leb (mem_list [7; 1; 5]) h0 [0; 1; 2]
      = Ok h /\
    PlainHeap.pop_n Z.ltb Z.leb (mem_list [7; 1; 5]) h 3 = Ok (h', out) /\
    PlainHeap.is_empty h' = true /\
    out ≡ₚ [0; 1; 2] /\
    Sorted (key_le Z.leb (mem_list [7; 1; 5])) out.
Proof.
  apply (plain_pushes_then_pops_sorted Z.ltb Z.leb (mem_list [7; 1; 5])
           Zle_total Zle_trans Zlt_le 3 [0; 1; 2]).
  - cbn. rewrite UINT_MOD_eq. lia.
  - cbn. rewrite UINT_MOD_eq. lia.
  - intros v Hv.
    repeat (apply elem_of_cons in Hv as [->|Hv]; [eexists; reflexivity|]).
    inversion Hv.
Defined.

Lemma plain_unordered_heap_aborts_witness :
  PlainHeap.push Z.ltb Z.leb (mem_list [5; 1]) PlainHeap.plain_two 0 = Abort /\
  PlainHeap.pop Z.ltb Z.leb (mem_list [5; 1]) PlainHeap.plain_two = Abort.
Proof.
  destruct (plain_two_ok (mem_list [5; 1]) 5 1 eq_refl eq_refl)
    as [Hwf Hord].
  apply (plain_unordered_heap_aborts Z.ltb Z.leb (mem_list [5; 1]) _ 0 Hwf).
  - cbn. rewrite UINT_MOD_eq. lia.
  - intros H. apply Hord in H. lia.
Defined.

Lemma plain_push_full_aborts_witness :
  PlainHeap.push Z.ltb Z.leb (mem_list [1; 5])
    (PlainHeap.mkPlain 1 [Some (Some 0)] 1) 1 = Abort.
Proof.
  apply plain_push_full_aborts.
  - split; cbn; try (rewrite ?UINT_MOD_eq; lia).
    intros k Hk. assert (k = 0) as -> by lia. exists 0, 1. auto.
  - cbn. rewrite UINT_MOD_eq. lia.
  - intros k Hk. cbn in Hk. lia.
  - cbn. lia.
Defined.

Lemma plain_pop_empty_undefined_witness :
  PlainHeap.pop Z.ltb Z.leb (mem_list [1; 5])
    (PlainHeap.mkPlain 2 (replicate (Z.to_nat 2) None) 0) = Undef.
Proof.
  apply plain_pop_empty_undefined.
  - reflexivity.
  - intros a. discriminate.
Defined.

Lemma heap_is_heap_id_without_ids_witness :
  (PlainHeap.nb_elem PlainHeap.plain_two
     < PlainHeap.capacity PlainHeap.plain_two ->
   is_Some (mem_list [1; 5] 0) ->
   exists hi' hp',
     pushZ (mem_list [1; 5]) two_heap 0
       = Ok (hi', PlainHeap.nb_elem PlainHeap.plain_two) /\
     PlainHeap.push Z.ltb Z.leb (mem_list [1; 5]) PlainHeap.plain_two 0
       = Ok hp' /\
     PlainHeap.erases hp' hi') /\
  (0 < PlainHeap.nb_elem PlainHeap.plain_two ->
   exists hi' hp' a,
     popZ (mem_list [1; 5]) two_heap = Ok (hi', a) /\
     PlainHeap.pop Z.ltb Z.leb (mem_list [1; 5]) PlainHeap.plain_two
       = Ok (hp', a) /\
     PlainHeap.erases hp' hi').
Proof.
  destruct (two_heap_ok (mem_list [1; 5]) 1 5 eq_refl eq_refl ltac:(lia))
    as (Hwf & Hord & _).
  apply (heap_is_heap_id_without_ids Z.ltb Z.leb (mem_list [1; 5])
           Zle_total Zle_trans Zlt_le PlainHeap.plain_two two_heap 0).
  - split; [reflexivity|]. split; [reflexivity|]. split; [reflexivity|].
    intros k n Hk Hn. cbn in Hk.
    assert (k = 0 \/ k = 1) as [->| ->] by lia; cbn in Hn;
      injection Hn as <-; reflexivity.
  - exact Hwf.
  - exact Hord.
  - cbn. rewrite UINT_MOD_eq. lia.
Defined.

(** ** Termination *)

Lemma halts_Ok {A} (a : A) : halts (Ok a).
Proof. discriminate. Qed.

Lemma halts_bind {A B} (x : outcome A) (k : A -> outcome B) :
  halts x -> (forall a, x = Ok a -> halts (k a)) -> halts (x ≫= k).
Proof.
  intros Hx Hk. destruct x as [a| | |]; try discriminate.
  - apply Hk. reflexivity.
  - contradiction.
Qed.

Lemma halts_assert (b : bool) : halts (assert b).
Proof. destruct b; discriminate. Qed.

Lemma halts_in_range (value min max : Z) :
  halts (ASSERT_IN_RANGE value min max).
Proof.
  unfold ASSERT_IN_RANGE. apply halts_bind; [apply halts_assert|].
  intros _ _. apply halts_assert.
Qed.

Lemma halts_rd {A} (a : list A) (i : Z) : halts (rd a i).
Proof.
  unfold rd. destruct (_ && _); [|discriminate].
  destruct (a !! Z.to_nat i); discriminate.
Qed.

Lemma halts_wr {A} (a : list A) (i : Z) (x : A) : halts (wr a i x).
Proof. unfold wr. destruct (_ && _); discriminate. Qed.

Lemma halts_rd_dist (d : list (option Vertex_Distance)) (v : Z) :
  halts (rd_dist d v).
Proof.
  unfold rd_dist. apply halts_bind; [apply halts_rd|].
  intros [vd|] _; discriminate.
Qed.

Create HintDb halts.

#[local] Hint Resolve halts_Ok halts_assert halts_in_range halts_rd halts_wr
  halts_rd_dist : halts.

(** The next statement of a sequence. *)
Ltac halts_step :=
  apply halts_bind; [auto with halts | intros ? ?].

Section HeapHalts.

Context {Element : Type}.
Variable elt_lt elt_le : Element -> Element -> bool.
Variable m : Mem (Element := Element).

Lemma halts_deref (p : ptr) : halts (deref m p).
Proof. unfold deref. destruct p as [a|]; [destruct (m a)|]; discriminate. Qed.

Lemma halts_cmp_pos (op : Element -> Element -> bool) (h : Heap_Id)
  (i j : Z) : halts (cmp_pos op m h i j).
Proof.
  unfold cmp_pos. do 3 halts_step.
  apply halts_bind; [apply halts_deref | intros ? ?]. halts_step.
  apply halts_bind; [apply halts_deref | intros ? ?]. apply halts_Ok.
Qed.

Lemma halts_swap (h : Heap_Id) (a b : Z) : halts (swap h a b).
Proof. unfold swap. do 8 halts_step. apply halts_Ok. Qed.

Lemma halts_get_pos_father (h : Heap_Id) (i : Z) :
  halts (get_pos_father h i).
Proof. unfold get_pos_father. do 2 halts_step. apply halts_Ok. Qed.

Lemma halts_get_pos_left_son (h : Heap_Id) (i : Z) :
  halts (get_pos_left_son h i).
Proof. unfold get_pos_left_son. halts_step. apply halts_Ok. Qed.

Lemma halts_get_pos_right_son (h : Heap_Id) (i : Z) :
  halts (get_pos_right_son h i).
Proof. unfold get_pos_right_son. halts_step. apply halts_Ok. Qed.

Lemma halts_assert_valid (h : Heap_Id) : halts (assert_valid elt_le m h).
Proof. rewrite assert_valid_ok. apply halts_Ok. Qed.

(** A comparison of a position with itself answers [op e e]. *)
Lemma cmp_pos_same (op : Element -> Element -> bool) (h : Heap_Id)
  (i : Z) (c : bool) :
  cmp_pos op m h i i = Ok c -> exists e, c = op e e.
Proof.
  unfold cmp_pos. intros H.
  apply bind_Ok_inv in H as (u1 & _ & H).
  apply bind_Ok_inv in H as (u2 & _ & H).
  apply bind_Ok_inv in H as (n1 & Hn1 & H).
  apply bind_Ok_inv in H as (e1 & He1 & H).
  apply bind_Ok_inv in H as (n2 & Hn2 & H).
  apply bind_Ok_inv in H as (e2 & He2 & H).
  assert (n2 = n1) as -> by congruence.
  assert (e2 = e1) as -> by congruence.
  exists e1. congruence.
Qed.

Hypothesis elt_lt_irrefl : forall x, elt_lt x x = false.

Lemma halts_raise_loop (fuel : nat) : forall (h : Heap_Id) (pos : Z),
  0 <= pos -> (Z.to_nat pos < fuel)%nat ->
  halts (raise_loop elt_lt fuel m h pos
           (if pos =? 0 then 0 else (pos - 1) / 2)).
Proof.
  induction fuel as [|fuel IH]; intros h pos Hpos Hfuel; [lia|].
  cbn [raise_loop].
  apply halts_bind.
  { destruct (0 <=? _); [apply halts_cmp_pos | apply halts_Ok]. }
  intros [|] Hc; [|apply halts_Ok].
  destruct (Z.eqb_spec pos 0) as [->|Hne].
  { cbn in Hc. apply cmp_pos_same in Hc as [e He].
    rewrite elt_lt_irrefl in He. discriminate. }
  apply halts_bind; [apply halts_swap|]. intros h1 _.
  apply halts_bind; [apply halts_get_pos_father|]. intros f' Hf'.
  apply get_pos_father_inv in Hf' as [_ ->]; [|zlia].
  apply IH; zlia.
Qed.

Lemma halts_raise (h : Heap_Id) (pos : Z) :
  halts (raise elt_lt elt_le m h pos).
Proof.
  unfold raise. apply halts_bind; [apply halts_in_range|]. intros u Hu.
  apply in_range_inv in Hu.
  apply halts_bind; [apply halts_get_pos_father|]. intros f Hf.
  apply get_pos_father_inv in Hf as [_ ->]; [|lia].
  apply halts_bind; [apply halts_raise_loop; lia|]. intros h' _.
  apply halts_bind; [apply halts_assert_valid|]. intros _ _. apply halts_Ok.
Qed.

Lemma halts_lower_loop (fuel : nat) : forall (h : Heap_Id) (pos l r : Z),
  0 <= pos -> 2 * nb_elem h < UINT_MOD ->
  (l = 2 * pos + 1 /\ r = 2 * pos + 2) \/ (nb_elem h <= l /\ nb_elem h <= r) ->
  (Z.to_nat (nb_elem h - pos) < fuel)%nat ->
  halts (lower_loop elt_lt fuel m h pos l r).
Proof.
  induction fuel as [|fuel IH]; intros h pos l r Hpos Hsmall Hshape Hfuel;
    [lia|].
  cbn [lower_loop].
  apply halts_bind.
  { destruct (l <? nb_elem h); [apply halts_cmp_pos | apply halts_Ok]. }
  intros c1 Hc1. apply halts_bind.
  { destruct c1; [apply halts_Ok|].
    destruct (r <? nb_elem h); [apply halts_cmp_pos | apply halts_Ok]. }
  intros [|] Hc; [|apply halts_Ok].
  assert (Hl : l = 2 * pos + 1 /\ r = 2 * pos + 2 /\ l < nb_elem h).
  { destruct (Z.ltb_spec l (nb_elem h)) as [Hl|Hl].
    - destruct Hshape as [[-> ->]|[? ?]]; [auto | lia].
    - injection Hc1 as <-.
      destruct (Z.ltb_spec r (nb_elem h)) as [Hr|Hr]; [|discriminate].
      destruct Hshape as [[-> ->]|[? ?]]; lia. }
  destruct Hl as (-> & -> & Hl).
  apply halts_bind.
  { destruct (2 * pos + 2 <? nb_elem h);
      [apply halts_cmp_pos | apply halts_Ok]. }
  intros c2 Hc2. cbv beta iota zeta.
  set (p' := if c2 then 2 * pos + 2 else 2 * pos + 1) in *.
  assert (Hp' : pos < p' < nb_elem h).
  { subst p'. destruct c2; [|lia].
    destruct (Z.ltb_spec (2 * pos + 2) (nb_elem h)); [lia | discriminate]. }
  apply halts_bind; [apply halts_swap|]. intros h1 Hs.
  apply swap_frame in Hs as (_ & Hn1 & _).
  apply halts_bind; [apply halts_get_pos_left_son|]. intros l' Hl'.
  apply halts_bind; [apply halts_get_pos_right_son|]. intros r' Hr'.
  apply get_pos_left_son_inv in Hl'. apply get_pos_right_son_inv in Hr'.
  rewrite u32_small in Hl', Hr' by lia. subst l' r'.
  apply IH; [lia | lia | auto | lia].
Qed.

Lemma halts_lower (h : Heap_Id) (pos : Z) :
  0 <= nb_elem h <= capacity h -> 2 * capacity h < UINT_MOD ->
  halts (lower elt_lt elt_le m h pos).
Proof.
  intros Hnb Hcap.
  unfold lower. apply halts_bind; [apply halts_in_range|]. intros u Hu.
  apply in_range_inv in Hu.
  apply halts_bind; [apply halts_get_pos_left_son|]. intros l Hl.
  apply halts_bind; [apply halts_get_pos_right_son|]. intros r Hr.
  apply get_pos_left_son_inv in Hl. apply get_pos_right_son_inv in Hr.
  apply halts_bind.
  { apply halts_lower_loop; [lia | lia | | lia].
    destruct (decide (capacity h = 0)) as [Hz|Hz].
    - right. subst l r. unfold u32. rewrite UINT_MOD_eq. zlia.
    - left. rewrite (u32_small (capacity h - 1)) in Hu by lia.
      rewrite u32_small in Hl, Hr by lia. auto. }
  intros h' _.
  apply halts_bind; [apply halts_assert_valid|]. intros _ _. apply halts_Ok.
Qed.

Lemma halts_push (h : Heap_Id) (v : Z) : halts (push elt_lt elt_le m h v).
Proof.
  unfold push. apply halts_bind; [apply halts_assert_valid|]. intros _ _.
  do 4 halts_step.
  apply halts_bind; [apply halts_raise|]. intros h2 _.
  apply halts_bind; [apply halts_assert_valid|]. intros _ _. apply halts_Ok.
Qed.

Lemma halts_pop (h : Heap_Id) :
  0 <= nb_elem h <= capacity h -> 0 < capacity h ->
  2 * capacity h < UINT_MOD ->
  halts (pop elt_lt elt_le m h).
Proof.
  intros Hnb Hpos Hcap.
  unfold pop. apply halts_bind; [apply halts_assert_valid|]. intros _ _.
  apply halts_bind; [apply halts_swap|]. intros h1 Hs.
  pose proof Hs as Hs'. apply swap_frame in Hs' as (Hc1 & Hn1 & _).
  apply swap_inv in Hs as (na & nb & _ & Hb & _).
  halts_step.
  apply halts_bind.
  { apply halts_lower; cbn; rewrite ?Hc1, ?Hn1; [|lia].
    destruct (decide (nb_elem h = 0)) as [Hz|Hz].
    - rewrite Hz, (u32_small (capacity h - 1)) in Hb by lia.
      change (u32 (0 - 1)) with 4294967295 in Hb.
      rewrite UINT_MOD_eq in Hcap. lia.
    - rewrite u32_small by lia. lia. }
  intros h3 _.
  apply halts_bind; [apply halts_assert_valid|]. intros _ _.
  destruct a.1; discriminate.
Qed.

Lemma halts_reposition (h : Heap_Id) (id : Z) :
  0 <= nb_elem h <= capacity h -> 2 * capacity h < UINT_MOD ->
  halts (reposition elt_lt elt_le m h id).
Proof.
  intros Hnb Hcap. unfold reposition. halts_step.
  apply halts_bind; [destruct a; discriminate|]. intros p _.
  apply halts_bind; [apply halts_raise|]. intros h1 Hr.
  apply raise_frame in Hr as (Hc1 & Hn1 & _).
  halts_step.
  apply halts_bind; [destruct a0; discriminate|]. intros q _.
  apply halts_lower; rewrite ?Hc1, ?Hn1; assumption.
Qed.

(** X17: when [<] is irreflexive, the loops of the indexed heap end.
    [push] never runs for ever, and neither do [pop] and [reposition] on a
    heap of positive capacity below [2^31] that holds no more elements than
    its capacity: each ends normally, on a failed assertion or in undefined
    behaviour. *)
Theorem heap_id_operations_terminate (h : Heap_Id) (v id : Z) :
  0 <= nb_elem h <= capacity h -> 0 < capacity h ->
  2 * capacity h < UINT_MOD ->
  push elt_lt elt_le m h v <> Diverge /\
  pop elt_lt elt_le m h <> Diverge /\
  reposition elt_lt elt_le m h id <> Diverge.
Proof.
  intros Hnb Hpos Hcap. split; [|split].
  - apply halts_push.
  - apply halts_pop; assumption.
  - apply halts_reposition; assumption.
Qed.

End HeapHalts.

Lemma heap_id_operations_terminate_witness :
  pushZ (mem_list [1; 5]) two_heap 0 <> Diverge /\
  popZ (mem_list [1; 5]) two_heap <> Diverge /\
  repositionZ (mem_list [1; 5]) two_heap 1 <> Diverge.
Proof.
  apply (heap_id_operations_terminate Z.ltb Z.leb (mem_list [1; 5])
           Z.ltb_irrefl two_heap 0 1).
  - cbn. lia.
  - cbn. lia.
  - cbn. rewrite UINT_MOD_eq. lia.
Defined.

(** *** The main loop of [print_dijkstra] *)

Lemma count_undefined_insert (ids : list Z) : forall (k : nat) (x y : Z),
  ids !! k = Some x ->
  count_undefined (<[k := y]> ids)
  = count_undefined ids
    - (if decide (x = id_undefined) then 1 else 0)
    + (if decide (y = id_undefined) then 1 else 0).
Proof.
  unfold count_undefined.
  induction ids as [|z ids IH]; intros [|k] x y Hk; try discriminate.
  - injection Hk as ->.
    change (<[0%nat := y]> (x :: ids)) with (y :: ids).
    rewrite !filter_cons.
    repeat case_decide; cbv beta in *; cbn [length]; lia.
  - change (<[S k := y]> (z :: ids)) with (z :: <[k := y]> ids).
    rewrite !filter_cons. specialize (IH k x y Hk).
    repeat case_decide; cbv beta in *; cbn [length]; lia.
Qed.

Lemma count_undefined_replicate (n : nat) :
  count_undefined (replicate n id_undefined) = Z.of_nat n.
Proof.
  unfold count_undefined. induction n as [|n IH]; [reflexivity|].
  cbn [replicate]. rewrite filter_cons. case_decide; [|congruence].
  cbn [length]. lia.
Qed.

Lemma count_undefined_nonneg (ids : list Z) : 0 <= count_undefined ids.
Proof. unfold count_undefined. lia. Qed.

Lemma vd_lt_irrefl (x : Vertex_Distance) : vd_lt x x = false.
Proof. apply Z.ltb_irrefl. Qed.

Section MainLoop.

Variable g : Graph.
Hypothesis Hsmall : 2 * nbr_vertices g < UINT_MOD.

Abbreviation reachable := (reach vd_lt vd_le (nbr_vertices g)).

Lemma relax_write_inv (s s' : state) (vd : Vertex_Distance) (e : Edge) :
  relax_write s vd e = Ok s' ->
  heap s' = heap s /\ vertices_ids s' = vertices_ids s.
Proof.
  unfold relax_write. intros H. inv_ok H. injection H as <-. auto.
Qed.

Lemma relax_progress (s s' : state) (vd : Vertex_Distance) (e : Edge) :
  0 <= nbr_vertices g -> reachable (heap s) -> relax s vd e = Ok s' ->
  reachable (heap s') /\ pending s' <= pending s.
Proof.
  intros Hn Hreach H. unfold relax in H.
  destruct (reach_inv vd_lt vd_le (nbr_vertices g) (heap s) ltac:(lia) Hreach)
    as (Hc & Hf & Hnb & Hl).
  apply bind_Ok_inv in H as (id & Hid & H).
  apply rd_Ok_inv in Hid as [He Hid].
  destruct (Z.eqb_spec id id_undefined) as [->|Hne].
  - apply bind_Ok_inv in H as (d & _ & H).
    apply bind_Ok_inv in H as (r & Hp & H).
    apply bind_Ok_inv in H as (ids & Hids & H).
    apply wr_Ok_inv in Hids as [_ ->]. injection H as <-.
    split; [exact (reach_push _ _ _ _ _ _ _ Hreach Hp)|].
    apply push_inv in Hp as (Hroom & _ & Hi & _ & _ & Hn' & _).
    rewrite Hf, lookup_seqZ in Hi. destruct Hi as [Hi _].
    rewrite u32_small in Hn' by lia.
    unfold pending. cbn [heap vertices_ids].
    rewrite (count_undefined_insert _ _ _ _ Hid), Hn'.
    assert (to_int r.2 <> id_undefined).
    { unfold to_int, id_undefined. rewrite (u32_small r.2) by lia.
      rewrite UINT_MOD_eq in *. case_match; lia. }
    repeat case_decide; try congruence; lia.
  - apply bind_Ok_inv in H as (old & _ & H).
    destruct (_ <? _).
    + apply bind_Ok_inv in H as (s1 & Hs1 & H).
      apply relax_write_inv in Hs1 as [Hh1 Hi1].
      apply bind_Ok_inv in H as (id' & _ & H).
      apply bind_Ok_inv in H as (h & Hr & H). injection H as <-.
      rewrite Hh1 in Hr.
      split; [exact (reach_reposition _ _ _ _ _ _ _ Hreach Hr)|].
      apply reposition_frame in Hr as (_ & Hn' & _).
      unfold pending. cbn [heap vertices_ids]. rewrite Hn', Hi1. lia.
    + injection H as <-. split; [exact Hreach | lia].
Qed.

Lemma relax_all_progress (vd : Vertex_Distance) (es : list Edge) :
  forall s s' : state,
  0 <= nbr_vertices g -> reachable (heap s) -> relax_all s vd es = Ok s' ->
  reachable (heap s') /\ pending s' <= pending s.
Proof.
  induction es as [|e es IH]; intros s s' Hn Hreach H; cbn [relax_all] in H.
  - injection H as <-. split; [exact Hreach | lia].
  - apply bind_Ok_inv in H as (s1 & Hs1 & H).
    destruct (relax_progress s s1 vd e Hn Hreach Hs1) as [Hr1 Hp1].
    destruct (IH s1 s' Hn Hr1 H) as [Hr' Hp']. split; [exact Hr' | lia].
Qed.

Lemma step_progress (s s' : state) :
  0 <= nbr_vertices g -> reachable (heap s) -> step g s = Ok s' ->
  reachable (heap s') /\ pending s' < pending s.
Proof.
  intros Hn Hreach H. unfold step in H.
  destruct (reach_inv vd_lt vd_le (nbr_vertices g) (heap s) ltac:(lia) Hreach)
    as (Hc & Hf & Hnb & Hl).
  apply bind_Ok_inv in H as (r & Hp & H).
  apply bind_Ok_inv in H as (vd & _ & H).
  apply bind_Ok_inv in H as (es & _ & H).
  apply bind_Ok_inv in H as (s1 & Hs1 & H).
  apply bind_Ok_inv in H as (ids & Hids & H).
  apply wr_Ok_inv in Hids as [Hi ->]. injection H as <-.
  pose proof (reach_pop _ _ _ _ _ _ Hreach Hp) as Hreach1.
  apply relax_all_progress in Hs1 as [Hr1 Hp1]; [|exact Hn|exact Hreach1].
  split; [exact Hr1|].
  apply pop_inv in Hp as (Hb & _ & _ & Hn' & _).
  assert (Hpos : 0 < nb_elem (heap s)).
  { destruct (decide (nb_elem (heap s) = 0)) as [Hz|]; [|lia].
    rewrite Hz in Hb. change (u32 (0 - 1)) with 4294967295 in Hb.
    rewrite UINT_MOD_eq in Hsmall. lia. }
  rewrite u32_small in Hn' by lia.
  unfold pending in *. cbn [heap vertices_ids] in *.
  destruct (lookup_lt_is_Some_2 (vertices_ids s1) (Z.to_nat (i vd)))
    as [x Hx]; [lia|].
  rewrite (count_undefined_insert _ _ _ _ Hx).
  unfold id_treated. repeat case_decide; unfold id_undefined in *; lia.
Qed.

Lemma halts_relax (s : state) (vd : Vertex_Distance) (e : Edge) :
  0 <= nbr_vertices g -> reachable (heap s) -> halts (relax s vd e).
Proof.
  intros Hn Hreach.
  destruct (reach_inv vd_lt vd_le (nbr_vertices g) (heap s) ltac:(lia) Hreach)
    as (Hc & Hf & Hnb & Hl).
  unfold relax. halts_step. destruct (_ =? _).
  - halts_step. apply halts_bind; [apply halts_push, vd_lt_irrefl|].
    intros r _. halts_step. apply halts_Ok.
  - halts_step. destruct (_ <? _); [|apply halts_Ok].
    apply halts_bind.
    { unfold relax_write. do 4 halts_step. apply halts_Ok. }
    intros s1 Hs1. apply relax_write_inv in Hs1 as [Hh1 _].
    halts_step.
    apply halts_bind; [|intros; apply halts_Ok].
    apply halts_reposition; rewrite ?Hh1; [apply vd_lt_irrefl | lia | lia].
Qed.

Lemma halts_relax_all (vd : Vertex_Distance) (es : list Edge) :
  forall s : state,
  0 <= nbr_vertices g -> reachable (heap s) -> halts (relax_all s vd es).
Proof.
  induction es as [|e es IH]; intros s Hn Hreach; cbn [relax_all].
  - apply halts_Ok.
  - apply halts_bind; [apply halts_relax; assumption|]. intros s1 Hs1.
    apply IH; [exact Hn|].
    exact (proj1 (relax_progress s s1 vd e Hn Hreach Hs1)).
Qed.

Lemma halts_step (s : state) :
  0 < nbr_vertices g -> reachable (heap s) -> halts (step g s).
Proof.
  intros Hn Hreach.
  destruct (reach_inv vd_lt vd_le (nbr_vertices g) (heap s) ltac:(lia) Hreach)
    as (Hc & Hf & Hnb & Hl).
  unfold step. apply halts_bind.
  { apply halts_pop; lia. }
  intros r Hp. do 2 halts_step.
  apply halts_bind.
  { apply halts_relax_all; [lia|]. cbn [heap].
    exact (reach_pop _ _ _ _ _ _ Hreach Hp). }
  intros s1 _. halts_step. apply halts_Ok.
Qed.

Lemma halts_main_loop (fuel : nat) : forall s : state,
  0 < nbr_vertices g -> reachable (heap s) ->
  pending s <= Z.of_nat fuel ->
  halts (main_loop fuel g s).
Proof.
  induction fuel as [|fuel IH]; intros s Hn Hreach Hfuel.
  - cbn [main_loop]. unfold is_empty.
    destruct (Z.eqb_spec (nb_elem (heap s)) 0) as [Hz|Hz]; [apply halts_Ok|].
    destruct (reach_inv vd_lt vd_le (nbr_vertices g) (heap s) ltac:(lia) Hreach)
      as (_ & _ & Hnb & _).
    pose proof (count_undefined_nonneg (vertices_ids s)).
    unfold pending in Hfuel. lia.
  - cbn [main_loop]. destruct (is_empty (heap s)); [apply halts_Ok|].
    apply halts_bind; [apply halts_step; assumption|]. intros s' Hs'.
    destruct (step_progress s s' ltac:(lia) Hreach Hs') as [Hr' Hp'].
    apply IH; [exact Hn | exact Hr' | lia].
Qed.

End MainLoop.

(** X18: on a graph of fewer than [2^31] vertices the computation of the
    distances ends: normally, on a failed assertion or in undefined
    behaviour.  Every iteration of the main loop takes one vertex off the
    heap, and a vertex is pushed only when its entry of [vertices_ids] is
    [id_undefined], which it never is again: there are at most
    [nbr_vertices] iterations, and the loops of the heap end as well. *)
Theorem compute_terminates (g : Graph) (src : Z) :
  2 * nbr_vertices g < UINT_MOD -> compute g src <> Diverge.
Proof.
  intros Hsmall. change (halts (compute g src)). unfold compute.
  apply halts_bind.
  { unfold init. halts_step.
    apply halts_bind; [apply halts_push, vd_lt_irrefl|]. intros r _.
    halts_step. apply halts_Ok. }
  intros s Hs. unfold init in Hs.
  apply bind_Ok_inv in Hs as (d & Hd & Hs).
  apply wr_Ok_inv in Hd as [Hsrc _]. rewrite length_replicate in Hsrc.
  apply bind_Ok_inv in Hs as (r & Hp & Hs).
  apply bind_Ok_inv in Hs as (ids & Hids & Hs).
  apply wr_Ok_inv in Hids as [_ ->]. injection Hs as <-.
  assert (Hn : 0 < nbr_vertices g) by lia.
  pose proof (reach_push vd_lt vd_le _ _ _ _ _
                (reach_new vd_lt vd_le (nbr_vertices g)) Hp) as Hreach.
  apply halts_main_loop; cbn [heap]; [exact Hsmall | exact Hn | exact Hreach |].
  apply push_inv in Hp as (_ & _ & Hi & _ & _ & Hn' & _).
  cbn in Hi, Hn'. rewrite lookup_seqZ in Hi. destruct Hi as [Hi _].
  unfold pending. cbn [heap vertices_ids]. rewrite Hn'.
  rewrite (count_undefined_insert _ _ id_undefined)
    by (apply lookup_replicate_2; lia).
  rewrite count_undefined_replicate, Hi.
  change (u32 (0 + 1)) with 1.
  change (to_int (0 + Z.of_nat (Z.to_nat 0))) with 0.
  repeat case_decide; unfold id_undefined in *; lia.
Qed.

Lemma compute_terminates_witness : compute spec_graph 0 <> Diverge.
Proof. apply compute_terminates. cbn. rewrite UINT_MOD_eq. lia. Defined.

(** ** [Vertex_Distance::update] and the relaxation *)

(** X19: [Vertex_Distance::update], which [print_dijkstra] does not call,
    is what the lines 119 to 121 do by hand: its assertion is the condition
    of line 119, and when the condition holds the two member writes leave in
    [vertices_dist] the record that [update] would have made of the old one;
    when it does not hold, [update] stops on the failed assertion. *)
Theorem update_is_the_relaxation (s : state) (vd old : Vertex_Distance)
  (e : Edge) :
  rd_dist (vertices_dist s) e.1 = Ok old ->
  (if distance vd + e.2 <? distance old
   then exists new,
          update old (distance vd + e.2) (i vd) = Ok new /\
          relax_write s vd e
          = Ok (mkState (heap s) (vertices_ids s)
                  (<[Z.to_nat e.1 := Some new]> (vertices_dist s)))
   else update old (distance vd + e.2) (i vd) = Abort).
Proof.
  intros Hold. unfold update.
  destruct (distance vd + e.2 <? distance old); [|reflexivity].
  eexists. split; [reflexivity|].
  pose proof Hold as Hold'. apply rd_dist_Ok_inv in Hold' as [He Hlook].
  pose proof (lookup_lt_Some _ _ _ Hlook) as Hlen.
  unfold relax_write. rewrite Hold, Ok_bind.
  rewrite bind_wr by lia.
  unfold rd_dist at 1.
  rewrite (rd_ok _ e.1 (Some (mkVD (i old) (distance vd + e.2) (from old))) He)
    by (apply list_lookup_insert_eq; lia).
  rewrite !Ok_bind. cbv beta iota.
  rewrite bind_wr by (rewrite length_insert; lia).
  rewrite list_insert_insert_eq. reflexivity.
Qed.

Lemma update_is_the_relaxation_witness :
  exists new,
    update (mkVD 1 9 0) (distance (mkVD 0 0 0) + (1, 4).2) (i (mkVD 0 0 0))
      = Ok new /\
    relax_write
      (mkState (Heap_Id_new 2) [0; 0] [Some (mkVD 0 0 0); Some (mkVD 1 9 0)])
      (mkVD 0 0 0) (1, 4)
    = Ok (mkState (Heap_Id_new 2) [0; 0]
            (<[Z.to_nat (1, 4).1 := Some new]>
               [Some (mkVD 0 0 0); Some (mkVD 1 9 0)])).
Proof.
  exact (update_is_the_relaxation
           (mkState (Heap_Id_new 2) [0; 0]
              [Some (mkVD 0 0 0); Some (mkVD 1 9 0)])
           (mkVD 0 0 0) (mkVD 1 9 0) (1, 4) eq_refl).
Defined.

(** ** The indexed heap: the nodes of the array *)

Lemma cells_from_refl (h : Heap_Id) : cells_from h h.
Proof. intros k n Hn. eauto. Qed.

Lemma cells_from_trans (h1 h2 h3 : Heap_Id) :
  cells_from h1 h2 -> cells_from h2 h3 -> cells_from h1 h3.
Proof.
  intros H12 H23 k n Hn. destruct (H23 k n Hn) as [k' Hk']. eauto.
Qed.

Lemma swap_cells (h : Heap_Id) (a b : Z) (h' : Heap_Id) :
  swap h a b = Ok h' -> cells_from h h'.
Proof.
  intros H. apply swap_inv in H as (na & nb & _ & _ & Hna & Hnb & _ & _ & ->).
  intros k n Hn. cbn in Hn.
  apply list_lookup_insert_Some in Hn as [(_ & <- & _)|[_ Hn]]; [eauto|].
  apply list_lookup_insert_Some in Hn as [(_ & <- & _)|[_ Hn]]; eauto.
Qed.

Section Cells.

Context {Element : Type}.
Variable elt_lt elt_le : Element -> Element -> bool.
Variable m : Mem (Element := Element).

Lemma raise_loop_cells (fuel : nat) :
  forall (h : Heap_Id) (pos f : Z) (h' : Heap_Id),
  raise_loop elt_lt fuel m h pos f = Ok h' -> cells_from h h'.
Proof.
  induction fuel as [|fuel IH]; intros h pos f h' H; [discriminate|].
  cbn [raise_loop] in H.
  apply bind_Ok_inv in H as ([|] & _ & H).
  - apply bind_Ok_inv in H as (h1 & Hs & H).
    apply bind_Ok_inv in H as (f' & _ & H).
    apply swap_cells in Hs. apply IH in H.
    exact (cells_from_trans _ _ _ Hs H).
  - injection H as <-. apply cells_from_refl.
Qed.

Lemma lower_loop_cells (fuel : nat) :
  forall (h : Heap_Id) (pos l r : Z) (h' : Heap_Id),
  lower_loop elt_lt fuel m h pos l r = Ok h' -> cells_from h h'.
Proof.
  induction fuel as [|fuel IH]; intros h pos l r h' H; [discriminate|].
  cbn [lower_loop] in H.
  apply bind_Ok_inv in H as (c1 & _ & H).
  apply bind_Ok_inv in H as ([|] & _ & H).
  - apply bind_Ok_inv in H as (c2 & _ & H).
    apply bind_Ok_inv in H as (h1 & Hs & H).
    apply bind_Ok_inv in H as (l' & _ & H).
    apply bind_Ok_inv in H as (r' & _ & H).
    apply swap_cells in Hs. apply IH in H.
    exact (cells_from_trans _ _ _ Hs H).
  - injection H as <-. apply cells_from_refl.
Qed.

Lemma raise_cells (h : Heap_Id) (pos : Z) (h' : Heap_Id) :
  raise elt_lt elt_le m h pos = Ok h' -> cells_from h h'.
Proof.
  unfold raise. intros H.
  apply bind_Ok_inv in H as (u & _ & H).
  apply bind_Ok_inv in H as (f & _ & H).
  apply bind_Ok_inv in H as (h1 & Hl & H).
  apply bind_Ok_inv in H as (u' & _ & H). injection H as <-.
  exact (raise_loop_cells _ _ _ _ _ Hl).
Qed.

Lemma lower_cells (h : Heap_Id) (pos : Z) (h' : Heap_Id) :
  lower elt_lt elt_le m h pos = Ok h' -> cells_from h h'.
Proof.
  unfold lower. intros H.
  apply bind_Ok_inv in H as (u & _ & H).
  apply bind_Ok_inv in H as (l & _ & H).
  apply bind_Ok_inv in H as (r & _ & H).
  apply bind_Ok_inv in H as (h1 & Hl & H).
  apply bind_Ok_inv in H as (u' & _ & H). injection H as <-.
  exact (lower_loop_cells _ _ _ _ _ _ Hl).
Qed.

Lemma push_cells (h : Heap_Id) (v : Z) (r : Heap_Id * Z) :
  push elt_lt elt_le m h v = Ok r ->
  forall k n, elements r.1 !! k = Some n ->
    n = (Some v, r.2) \/ exists k', elements h !! k' = Some n.
Proof.
  unfold push. intros H.
  apply bind_Ok_inv in H as (u & _ & H).
  apply bind_Ok_inv in H as (u1 & _ & H).
  apply bind_Ok_inv in H as (i & _ & H).
  apply bind_Ok_inv in H as (e & He & H). apply wr_Ok_inv in He as [_ ->].
  apply bind_Ok_inv in H as (t & _ & H).
  apply bind_Ok_inv in H as (h2 & Hr & H).
  apply bind_Ok_inv in H as (u2 & _ & H). injection H as <-.
  intros k n Hn. cbn [fst snd] in *.
  apply raise_cells in Hr. destruct (Hr k n Hn) as [k' Hk']. cbn in Hk'.
  apply list_lookup_insert_Some in Hk' as [(_ & <- & _)|[_ Hk']]; eauto.
Qed.

Lemma pop_cells (h : Heap_Id) (r : Heap_Id * Z) :
  pop elt_lt elt_le m h = Ok r ->
  cells_from h r.1 /\ exists k id, elements h !! k = Some (Some r.2, id).
Proof.
  unfold pop. intros H.
  apply bind_Ok_inv in H as (u & _ & H).
  apply bind_Ok_inv in H as (h1 & Hs & H).
  apply bind_Ok_inv in H as (n & Hn & H). apply rd_Ok_inv in Hn as [_ Hn].
  apply bind_Ok_inv in H as (h3 & Hl & H).
  apply bind_Ok_inv in H as (u2 & _ & H).
  destruct n as [[a|] id]; [|discriminate]. injection H as <-.
  apply swap_cells in Hs. apply lower_cells in Hl. cbn [fst snd]. split.
  - intros k n Hk. destruct (Hl k n Hk) as [k1 Hk1]. cbn in Hk1.
    exact (Hs k1 n Hk1).
  - destruct (Hs _ _ Hn) as [k' Hk']. eauto.
Qed.

Lemma reposition_cells (h : Heap_Id) (id : Z) (h' : Heap_Id) :
  reposition elt_lt elt_le m h id = Ok h' -> cells_from h h'.
Proof.
  unfold reposition. intros H.
  apply bind_Ok_inv in H as (p & _ & H).
  apply bind_Ok_inv in H as (p' & _ & H).
  apply bind_Ok_inv in H as (h1 & Hr & H).
  apply bind_Ok_inv in H as (q & _ & H).
  apply bind_Ok_inv in H as (q' & _ & H).
  apply raise_cells in Hr. apply lower_cells in H.
  exact (cells_from_trans _ _ _ Hr H).
Qed.

End Cells.

(** ** Dijkstra: the predecessors form a tree *)

Lemma recorded_insert_ne (d : list (option Vertex_Distance)) (t v : Z)
  (x vd : Vertex_Distance) :
  0 <= t -> v <> t ->
  recorded (<[Z.to_nat t := Some x]> d) v vd <-> recorded d v vd.
Proof.
  intros Ht Hne. unfold recorded.
  split; intros [Hv H]; (split; [exact Hv|]).
  - rewrite list_lookup_insert_ne in H by lia. exact H.
  - rewrite list_lookup_insert_ne by lia. exact H.
Qed.

Lemma recorded_insert_eq (d : list (option Vertex_Distance)) (t : Z)
  (x : Vertex_Distance) :
  0 <= t < Z.of_nat (length d) ->
  recorded (<[Z.to_nat t := Some x]> d) t x.
Proof.
  intros Ht. split; [lia|]. apply list_lookup_insert_eq. lia.
Qed.

Lemma recorded_fun (d : list (option Vertex_Distance)) (v : Z)
  (x y : Vertex_Distance) : recorded d v x -> recorded d v y -> x = y.
Proof. intros [_ Hx] [_ Hy]. congruence. Qed.

Section Tree.

Variable g : Graph.
Variable src : Z.
Hypothesis Hpos : positive_weights g.
Hypothesis Hsmall : 2 * nbr_vertices g < UINT_MOD.
Hypothesis Hsrc : 0 <= src.

Lemma positive_nonneg : nonneg_weights g.
Proof. intros u v w He. pose proof (Hpos u v w He). lia. Qed.

(** One relaxation keeps the invariants. *)
Lemma relax_tree (s s' : state) (vd : Vertex_Distance) (e : Edge) :
  table_ok g src (vertices_dist s) -> source_kept src s ->
  reach vd_lt vd_le (nbr_vertices g) (heap s) ->
  queue_ok g s -> closer_pred g src (vertices_dist s) ->
  copy_ok (vertices_dist s) vd ->
  walk g src (i vd) (distance vd) ->
  has_edge g (i vd) e.1 e.2 ->
  relax s vd e = Ok s' ->
  queue_ok g s' /\ closer_pred g src (vertices_dist s') /\
  copy_ok (vertices_dist s') vd.
Proof.
  intros Htab Hkept Hreach (Hknown & Hcells & Hlen) Hcl (ud & Hud & Hudle)
    Hwalk Hedge H.
  pose proof (Hpos _ _ _ Hedge) as Hw.
  pose proof (walk_nonneg g src _ _ positive_nonneg Hwalk) as Hdvd.
  destruct Hkept as [_ Hsrcrec].
  assert (Hsrcrec' : recorded (vertices_dist s) src (mkVD src 0 src))
    by (split; assumption).
  unfold relax in H.
  apply bind_Ok_inv in H as (id & Hid & H).
  apply rd_Ok_inv in Hid as [He Hid].
  destruct (Z.eqb_spec id id_undefined) as [->|Hne].
  - (* the vertex is met for the first time *)
    apply bind_Ok_inv in H as (d & Hd & H).
    apply wr_Ok_inv in Hd as [Hrange ->].
    apply bind_Ok_inv in H as (r & Hp & H).
    apply bind_Ok_inv in H as (ids & Hids & H).
    apply wr_Ok_inv in Hids as [Hrange' ->]. injection H as <-.
    cbn [heap vertices_ids vertices_dist].
    assert (Hfresh : forall x, ~ recorded (vertices_dist s) e.1 x).
    { intros x Hx. destruct (Hknown _ _ Hx) as (id & Hid' & Hne).
      congruence. }
    assert (Hne1 : i vd <> e.1) by (intros E; rewrite E in Hud; exact (Hfresh _ Hud)).
    assert (Hhandle : to_int r.2 <> id_undefined).
    { destruct (reach_inv vd_lt vd_le (nbr_vertices g) (heap s)
                  ltac:(lia) Hreach) as (Hc & Hf & Hnb & _).
      apply push_inv in Hp as (Hroom & _ & Hi & _).
      rewrite Hf, lookup_seqZ in Hi. destruct Hi as [Hi _].
      unfold to_int, id_undefined. rewrite (u32_small r.2) by lia.
      rewrite UINT_MOD_eq in *. case_match; lia. }
    unfold queue_ok. cbn [heap vertices_ids vertices_dist].
    split; [split; [|split]|split].
    + intros v x Hx. destruct (decide (v = e.1)) as [->|Hv].
      * exists (to_int r.2). split; [|exact Hhandle].
        apply list_lookup_insert_eq. lia.
      * apply recorded_insert_ne in Hx; [|lia|exact Hv].
        destruct (Hknown _ _ Hx) as (id & Hid' & Hne).
        exists id. split; [|exact Hne].
        rewrite list_lookup_insert_ne by (destruct Hx; lia). exact Hid'.
    + intros k a id Hk.
      destruct (push_cells _ _ _ _ _ _ Hp k _ Hk) as [Heq|[k' Hk']].
      * injection Heq as -> _. eexists. apply recorded_insert_eq. lia.
      * destruct (Hcells _ _ _ Hk') as [x Hx].
        exists x. apply recorded_insert_ne; [lia| |exact Hx].
        intros ->. exact (Hfresh _ Hx).
    + rewrite length_insert. exact Hlen.
    + intros v x Hx Hvs. destruct (decide (v = e.1)) as [->|Hv].
      * pose proof (recorded_fun _ _ _ _ Hx
                      (recorded_insert_eq _ _ _ Hrange)) as ->.
        cbn [from distance]. exists ud, e.2.
        split; [|split; [exact Hedge | lia]].
        apply recorded_insert_ne; [lia | exact Hne1 | exact Hud].
      * apply recorded_insert_ne in Hx; [|lia|exact Hv].
        destruct (Hcl _ _ Hx Hvs) as (u & w & Hu & Huv & Hle).
        exists u, w. split; [|split; [exact Huv | exact Hle]].
        apply recorded_insert_ne; [lia| |exact Hu].
        intros E. rewrite E in Hu. exact (Hfresh _ Hu).
    + exists ud. split; [|exact Hudle].
      apply recorded_insert_ne; [lia | exact Hne1 | exact Hud].
  - (* the vertex has a record *)
    apply bind_Ok_inv in H as (old & Hold & H).
    apply rd_dist_Ok_inv in Hold as [_ Hold].
    assert (Hold' : recorded (vertices_dist s) e.1 old) by (split; assumption).
    destruct (Z.ltb_spec (distance vd + e.2) (distance old)) as [Hlt|Hge];
      [|injection H as <-; split; [split|]; eauto;
        split; [assumption | exists ud; auto]].
    apply bind_Ok_inv in H as (s1 & Hs1 & H).
    apply bind_Ok_inv in H as (id' & _ & H).
    apply bind_Ok_inv in H as (h & Hr & H). injection H as <-.
    cbn [heap vertices_ids vertices_dist].
    unfold relax_write in Hs1. inv_ok Hs1.
    apply rd_dist_Ok_inv in Ha as [_ Ha].
    apply wr_Ok_inv in Ha0 as [Hrange ->].
    apply rd_dist_Ok_inv in Ha1 as [_ Ha1].
    apply wr_Ok_inv in Ha2 as [_ ->].
    injection Hs1 as <-. cbn [heap vertices_ids vertices_dist] in *.
    rewrite list_lookup_insert_eq in Ha1 by lia. injection Ha1 as <-.
    cbn [i distance from].
    assert (a = old) as -> by congruence.
    rewrite list_insert_insert_eq.
    set (new := mkVD (i old) (distance vd + e.2) (i vd)).
    assert (Hne1 : i vd <> e.1).
    { intros E. rewrite E in Hud.
      pose proof (recorded_fun _ _ _ _ Hud Hold') as ->. lia. }
    assert (Hne2 : e.1 <> src).
    { intros E. rewrite E in Hold'.
      pose proof (recorded_fun _ _ _ _ Hold' Hsrcrec') as ->.
      cbn in Hlt. lia. }
    assert (Hkeep : forall v x, recorded (vertices_dist s) v x ->
              exists x', recorded (<[Z.to_nat e.1 := Some new]> (vertices_dist s)) v x' /\
                         distance x' <= distance x).
    { intros v x Hx. destruct (decide (v = e.1)) as [->|Hv].
      - exists new. split; [apply recorded_insert_eq; lia|].
        pose proof (recorded_fun _ _ _ _ Hx Hold') as ->. cbn. lia.
      - exists x. split; [|lia].
        apply recorded_insert_ne; [lia | exact Hv | exact Hx]. }
    unfold queue_ok. cbn [heap vertices_ids vertices_dist].
    split; [split; [|split]|split].
    + intros v x Hx. destruct (decide (v = e.1)) as [->|Hv].
      * exists id. auto.
      * apply recorded_insert_ne in Hx; [|lia|exact Hv].
        exact (Hknown _ _ Hx).
    + intros k b idb Hk.
      apply reposition_cells in Hr. destruct (Hr _ _ Hk) as [k' Hk'].
      destruct (Hcells _ _ _ Hk') as [x Hx].
      destruct (Hkeep _ _ Hx) as (x' & Hx' & _). eauto.
    + rewrite length_insert. exact Hlen.
    + intros v x Hx Hvs. destruct (decide (v = e.1)) as [->|Hv].
      * pose proof (recorded_fun _ _ _ _ Hx
                      (recorded_insert_eq _ _ new Hrange)) as ->.
        cbn [from distance new]. exists ud, e.2.
        split; [|split; [exact Hedge | lia]].
        apply recorded_insert_ne; [lia | exact Hne1 | exact Hud].
      * apply recorded_insert_ne in Hx; [|lia|exact Hv].
        destruct (Hcl _ _ Hx Hvs) as (u & w & Hu & Huv & Hle).
        destruct (Hkeep _ _ Hu) as (u' & Hu' & Hle').
        exists u', w. split; [exact Hu'|]. split; [exact Huv | lia].
    + exists ud. split; [|exact Hudle].
      apply recorded_insert_ne; [lia | exact Hne1 | exact Hud].
Qed.

Hypothesis Hn : 0 <= nbr_vertices g.

(** The invariants, for this graph and this source. *)
Local Abbreviation inv := (tree_inv g src).

Lemma relax_all_tree (vd : Vertex_Distance) (es : list Edge) :
  forall s s' : state,
  inv s -> copy_ok (vertices_dist s) vd ->
  walk g src (i vd) (distance vd) ->
  (forall e, e ∈ es -> has_edge g (i vd) e.1 e.2) ->
  relax_all s vd es = Ok s' ->
  inv s'.
Proof.
  induction es as [|e es IH];
    intros s s' (Htab & Hkept & Hreach & Hq & Hcl) Hcopy Hwalk Hes H;
    cbn [relax_all] in H.
  - injection H as <-.
    exact (conj Htab (conj Hkept (conj Hreach (conj Hq Hcl)))).
  - apply bind_Ok_inv in H as (s1 & Hs1 & H).
    assert (He : has_edge g (i vd) e.1 e.2) by (apply Hes; left).
    destruct (relax_tree s s1 vd e Htab Hkept Hreach Hq Hcl Hcopy Hwalk He
                Hs1) as (Hq1 & Hcl1 & Hcopy1).
    apply (IH s1 s'); [|exact Hcopy1|exact Hwalk| |exact H].
    + split; [exact (relax_table_ok g src s s1 vd e Htab Hwalk He Hs1)|].
      split; [exact (relax_source_kept g src s s1 vd e positive_nonneg Hsrc
                       Hwalk He Hkept Hs1)|].
      split; [exact (proj1 (relax_progress g Hsmall s s1 vd e Hn Hreach
                              Hs1))|].
      split; assumption.
    + intros e' He'. apply Hes. right. exact He'.
Qed.

Lemma step_tree (s s' : state) :
  inv s -> step g s = Ok s' -> inv s'.
Proof.
  intros (Htab & Hkept & Hreach & (Hknown & Hcells & Hlen) & Hcl) H.
  pose proof (step_table_ok g src s s' Htab H) as Htab'.
  pose proof (step_source_kept g src s s' positive_nonneg Hsrc Htab Hkept H)
    as Hkept'.
  pose proof (proj1 (step_progress g Hsmall s s' Hn Hreach H)) as Hreach'.
  unfold step in H.
  apply bind_Ok_inv in H as (r & Hp & H).
  apply bind_Ok_inv in H as (vd & Hvd & H).
  apply bind_Ok_inv in H as (es & Hes & H).
  apply bind_Ok_inv in H as (s1 & Hs1 & H).
  apply bind_Ok_inv in H as (ids & Hids & H).
  apply wr_Ok_inv in Hids as [Hi ->]. injection H as <-.
  apply rd_dist_Ok_inv in Hvd as [Hr Hvd].
  apply rd_Ok_inv in Hes as [_ Hes].
  destruct (Htab r.2 vd Hr Hvd) as (Hivd & Hw & _).
  destruct (pop_cells _ _ _ _ _ Hp) as [Hfrom _].
  assert (Hinv1 : inv s1).
  { apply (relax_all_tree vd es
             (mkState r.1 (vertices_ids s) (vertices_dist s)) s1).
    - split; [exact Htab|]. split; [exact Hkept|].
      split; [exact (reach_pop _ _ _ _ _ _ Hreach Hp)|].
      split; [|exact Hcl]. split; [exact Hknown|]. split; [|exact Hlen].
      intros k a id Hk. cbn [heap] in Hk.
      destruct (Hfrom _ _ Hk) as [k' Hk']. exact (Hcells _ _ _ Hk').
    - exists vd. cbn [vertices_dist]. rewrite Hivd.
      split; [split; assumption | lia].
    - rewrite Hivd. exact Hw.
    - intros [t w] He. split; [lia|]. exists es. auto.
    - exact Hs1. }
  destruct Hinv1 as (_ & _ & _ & (Hknown1 & Hcells1 & Hlen1) & Hcl1).
  split; [exact Htab'|]. split; [exact Hkept'|]. split; [exact Hreach'|].
  split; [|exact Hcl1]. split; [|split; assumption].
  cbn [vertices_ids vertices_dist]. intros v x Hx.
  destruct (Hknown1 _ _ Hx) as (id & Hid & Hne).
  destruct (decide (v = i vd)) as [->|Hv].
  - exists id_treated. split; [apply list_lookup_insert_eq; lia|].
    discriminate.
  - exists id. split; [|exact Hne].
    rewrite list_lookup_insert_ne by (destruct Hx; lia). exact Hid.
Qed.

Lemma main_loop_tree (fuel : nat) : forall s s' : state,
  inv s -> main_loop fuel g s = Ok s' -> inv s'.
Proof.
  induction fuel as [|fuel IH]; intros s s' Hinv H; cbn [main_loop] in H;
    (destruct (is_empty (heap s)); [injection H as <-; exact Hinv|]).
  - discriminate.
  - apply bind_Ok_inv in H as (s1 & Hs1 & H).
    apply (IH s1 s'); [|exact H]. exact (step_tree s s1 Hinv Hs1).
Qed.

Lemma init_tree (s : state) : init g src = Ok s -> inv s.
Proof.
  intros H. destruct (init_table_ok g src s H) as [Htab Hrec].
  pose proof (init_source_kept g src s H) as Hkept.
  split; [exact Htab|]. split; [exact Hkept|].
  unfold init in H.
  apply bind_Ok_inv in H as (d & Hd & H).
  apply wr_Ok_inv in Hd as [Hrange ->].
  apply bind_Ok_inv in H as (r & Hp & H).
  apply bind_Ok_inv in H as (ids & Hids & H).
  apply wr_Ok_inv in Hids as [_ ->]. injection H as <-.
  cbn [heap vertices_ids vertices_dist] in *.
  assert (Honly : forall v x,
    recorded (<[Z.to_nat src := Some (mkVD src 0 src)]>
                (replicate (Z.to_nat (nbr_vertices g)) None)) v x ->
    v = src).
  { intros v x [Hv Hx]. destruct (decide (v = src)) as [|Hne]; [assumption|].
    rewrite list_lookup_insert_ne in Hx by lia.
    apply lookup_replicate in Hx as [? _]. discriminate. }
  split; [exact (reach_push _ _ _ _ _ _ _ (reach_new _ _ _) Hp)|].
  split; [split; [|split]|].
  - intros v x Hx. cbn [vertices_ids]. rewrite (Honly _ _ Hx).
    destruct Hkept as [Hid _]. exact Hid.
  - intros k a id Hk. cbn [heap] in Hk.
    destruct (push_cells _ _ _ _ _ _ Hp k _ Hk) as [Heq|[k' Hk']].
    + injection Heq as -> _. eexists.
      apply recorded_insert_eq. exact Hrange.
    + cbn in Hk'. apply lookup_replicate in Hk' as [? _]. discriminate.
  - cbn [vertices_dist]. rewrite length_insert, length_replicate.
    reflexivity.
  - intros v x Hx Hne. rewrite (Honly _ _ Hx) in Hne. contradiction.
Qed.

Lemma compute_tree (s : state) : compute g src = Ok s -> inv s.
Proof.
  intros H. unfold compute in H.
  apply bind_Ok_inv in H as (s0 & Hs0 & H).
  exact (main_loop_tree _ s0 s (init_tree s0 Hs0) H).
Qed.

End Tree.

Lemma compute_source_range (g : Graph) (src : Z) (s : state) :
  compute g src = Ok s -> 0 <= src < nbr_vertices g.
Proof.
  intros H. unfold compute, init in H.
  apply bind_Ok_inv in H as (s0 & Hs0 & _).
  apply bind_Ok_inv in Hs0 as (d & Hd & _).
  apply wr_Ok_inv in Hd as [Hrange _].
  rewrite length_replicate in Hrange. lia.
Qed.


Lemma spec_graph_positive : positive_weights spec_graph.
Proof.
  intros u v w (Hu & es & Hes & Hin).
  destruct (Z.to_nat u) as [|[|[|[|n]]]]; cbn in Hes; try discriminate;
    injection Hes as <-;
    repeat (apply elem_of_cons in Hin as [[= -> ->]|Hin]; [lia|]);
    inversion Hin.
Qed.


(** *** The path is printed *)

Lemma filter_length_le {A} (p q : A -> bool) (l : list A) :
  (forall x, p x = true -> q x = true) ->
  (length (List.filter p l) <= length (List.filter q l))%nat.
Proof.
  intros Hpq. induction l as [|x l IH]; [reflexivity|]. cbn.
  destruct (p x) eqn:Hp.
  - rewrite (Hpq x Hp). cbn. lia.
  - destruct (q x); cbn; lia.
Qed.

Lemma filter_length_lt {A} (p q : A -> bool) (l : list A) (k : nat) (x : A) :
  (forall x, p x = true -> q x = true) ->
  l !! k = Some x -> p x = false -> q x = true ->
  (length (List.filter p l) < length (List.filter q l))%nat.
Proof.
  intros Hpq. revert k. induction l as [|y l IH]; intros [|k] Hk Hp Hq;
    try discriminate.
  - injection Hk as ->. cbn. rewrite Hp, Hq. cbn.
    pose proof (filter_length_le p q l Hpq). lia.
  - cbn. specialize (IH k Hk Hp Hq). destruct (p y) eqn:Hpy.
    + rewrite (Hpq y Hpy). cbn. lia.
    + destruct (q y); cbn; lia.
Qed.

Lemma count_below_lt (d : list (option Vertex_Distance)) (v : Z)
  (ud : Vertex_Distance) (y : Z) :
  recorded d v ud -> distance ud < y ->
  (count_below d (distance ud) < count_below d y)%nat.
Proof.
  intros [_ Hud] Hlt. unfold count_below.
  apply (filter_length_lt _ _ d (Z.to_nat v) (Some ud)); [|exact Hud| |].
  - intros [r|] Hr; [|discriminate]. apply Z.ltb_lt in Hr.
    apply Z.ltb_lt. lia.
  - apply Z.ltb_irrefl.
  - apply Z.ltb_lt. exact Hlt.
Qed.

Lemma count_below_le (d : list (option Vertex_Distance)) (y : Z) :
  (count_below d y <= length d)%nat.
Proof.
  unfold count_below. induction d as [|o d IH]; [reflexivity|]. cbn.
  destruct (match o with Some r => distance r <? y | None => false end);
    cbn; lia.
Qed.

Lemma print_path_completes (g : Graph) (src : Z)
  (d : list (option Vertex_Distance)) (fuel : nat) :
  positive_weights g -> closer_pred g src d ->
  forall (cur : Z) (vd : Vertex_Distance),
  recorded d cur vd -> (count_below d (distance vd) < fuel)%nat ->
  exists out, print_path fuel d src cur = Ok out.
Proof.
  intros Hpos Hcl.
  induction fuel as [|fuel IH]; intros cur vd Hvd Hfuel; [lia|].
  cbn [print_path]. destruct (Z.eqb_spec cur src) as [->|Hne]; [eauto|].
  destruct (Hcl cur vd Hvd Hne) as (ud & w & Hud & He & Hle).
  pose proof (Hpos _ _ _ He) as Hw.
  pose proof (count_below_lt d _ ud (distance vd) Hud ltac:(lia)) as Hc.
  destruct (IH (from vd) ud Hud ltac:(lia)) as [out Hout].
  destruct Hvd as [Hcur Hvd].
  unfold rd_dist. rewrite (rd_ok _ _ _ Hcur Hvd). rewrite !Ok_bind.
  cbv beta iota. rewrite Hout, Ok_bind. eauto.
Qed.



(** ** Dijkstra: the statuses of the vertices *)

Lemma status_after_refl (id : Z) : status_after id id.
Proof. right. left. reflexivity. Qed.

Lemma status_after_trans (a b c : Z) :
  status_after a b -> status_after b c -> status_after a c.
Proof.
  unfold status_after, id_treated, id_undefined.
  intros [->|[->| ->]] [Hb|[->| ->]]; auto; try discriminate.
Qed.

Lemma statuses_after_refl (ids : list Z) : statuses_after ids ids.
Proof. intros v id _ Hid. exists id. split; [exact Hid | apply status_after_refl]. Qed.

Lemma statuses_after_trans (a b c : list Z) :
  statuses_after a b -> statuses_after b c -> statuses_after a c.
Proof.
  intros Hab Hbc v id Hv Hid.
  destruct (Hab v id Hv Hid) as (id1 & Hid1 & H1).
  destruct (Hbc v id1 Hv Hid1) as (id2 & Hid2 & H2).
  exists id2. split; [exact Hid2|].
  exact (status_after_trans _ _ _ H1 H2).
Qed.

Lemma statuses_after_insert (ids : list Z) (t new : Z) :
  0 <= t ->
  (forall id, ids !! Z.to_nat t = Some id -> status_after id new) ->
  statuses_after ids (<[Z.to_nat t := new]> ids).
Proof.
  intros Ht Hnew v id Hv Hid. destruct (decide (v = t)) as [->|Hne].
  - exists new. split; [|exact (Hnew id Hid)].
    apply list_lookup_insert_eq. exact (lookup_lt_Some _ _ _ Hid).
  - exists id. split; [|apply status_after_refl].
    rewrite list_lookup_insert_ne by lia. exact Hid.
Qed.

Lemma relax_statuses (s s' : state) (vd : Vertex_Distance) (e : Edge) :
  relax s vd e = Ok s' -> statuses_after (vertices_ids s) (vertices_ids s').
Proof.
  intros H. unfold relax in H.
  apply bind_Ok_inv in H as (id & Hid & H).
  apply rd_Ok_inv in Hid as [He Hid].
  destruct (Z.eqb_spec id id_undefined) as [->|Hne].
  - inv_ok H. apply wr_Ok_inv in Ha1 as [_ ->]. injection H as <-.
    cbn [vertices_ids]. apply statuses_after_insert; [exact He|].
    intros id Hid'. left. congruence.
  - apply bind_Ok_inv in H as (old & _ & H).
    destruct (_ <? _); [|injection H as <-; apply statuses_after_refl].
    apply bind_Ok_inv in H as (s1 & Hs1 & H).
    apply relax_write_inv in Hs1 as [_ Hi1].
    inv_ok H. injection H as <-. cbn [vertices_ids]. rewrite Hi1.
    apply statuses_after_refl.
Qed.

Lemma relax_all_statuses (vd : Vertex_Distance) (es : list Edge) :
  forall s s' : state,
  relax_all s vd es = Ok s' ->
  statuses_after (vertices_ids s) (vertices_ids s').
Proof.
  induction es as [|e es IH]; intros s s' H; cbn [relax_all] in H.
  - injection H as <-. apply statuses_after_refl.
  - apply bind_Ok_inv in H as (s1 & Hs1 & H).
    exact (statuses_after_trans _ _ _ (relax_statuses _ _ _ _ Hs1)
             (IH _ _ H)).
Qed.

Lemma step_statuses (g : Graph) (s s' : state) :
  step g s = Ok s' -> statuses_after (vertices_ids s) (vertices_ids s').
Proof.
  intros H. unfold step in H.
  apply bind_Ok_inv in H as (r & _ & H).
  apply bind_Ok_inv in H as (vd & _ & H).
  apply bind_Ok_inv in H as (es & _ & H).
  apply bind_Ok_inv in H as (s1 & Hs1 & H).
  apply bind_Ok_inv in H as (ids & Hids & H).
  apply wr_Ok_inv in Hids as [Hi ->]. injection H as <-.
  apply relax_all_statuses in Hs1. cbn [vertices_ids] in *.
  apply (statuses_after_trans _ _ _ Hs1).
  apply statuses_after_insert; [lia|]. intros id _. right. right. reflexivity.
Qed.

(** X22: the status of a vertex only goes forward.  Along any number of
    iterations of the main loop, an entry of [vertices_ids] that is not
    [id_undefined] stays as it is until it becomes [id_treated], and an
    entry that is [id_treated] stays [id_treated]: a vertex is not pushed
    again once it has been pushed. *)
Theorem statuses_only_go_forward (g : Graph) (n : nat) (s s' : state)
  (v id : Z) :
  steps n g s = Ok s' -> 0 <= v ->
  vertices_ids s !! Z.to_nat v = Some id -> id <> id_undefined ->
  exists id', vertices_ids s' !! Z.to_nat v = Some id' /\
              (id' = id \/ id' = id_treated) /\ id' <> id_undefined.
Proof.
  intros H Hv Hid Hne.
  assert (Hafter : statuses_after (vertices_ids s) (vertices_ids s')).
  { clear Hid. revert s H. induction n as [|n IH]; intros s H;
      cbn [steps] in H.
    - injection H as <-. apply statuses_after_refl.
    - apply bind_Ok_inv in H as (s1 & Hs1 & H).
      exact (statuses_after_trans _ _ _ (step_statuses g _ _ Hs1)
               (IH _ H)). }
  destruct (Hafter v id Hv Hid) as (id' & Hid' & [Hu|Hfw]); [contradiction|].
  exists id'. split; [exact Hid'|]. split; [exact Hfw|].
  destruct Hfw as [->| ->]; [exact Hne | discriminate].
Qed.

Lemma statuses_only_go_forward_witness :
  exists s s',
    init spec_graph 0 = Ok s /\ steps 2 spec_graph s = Ok s' /\
    exists id', vertices_ids s' !! Z.to_nat 0 = Some id' /\
                (id' = 0 \/ id' = id_treated) /\ id' <> id_undefined.
Proof.
  assert (H : exists s s',
            init spec_graph 0 = Ok s /\ steps 2 spec_graph s = Ok s' /\
            vertices_ids s !! Z.to_nat 0 = Some 0).
  { eexists. eexists. split; [vm_compute; reflexivity|].
    split; vm_compute; reflexivity. }
  destruct H as (s & s' & Hs & Hs' & Hid).
  exists s, s'. split; [exact Hs|]. split; [exact Hs'|].
  apply (statuses_only_go_forward spec_graph 2 s s' 0 0 Hs');
    [lia | exact Hid | discriminate].
Defined.

(** ** The heap of [heap.hpp]: termination *)

Section PlainHalts.

Import PlainHeap.

Context {Element : Type}.
Variable elt_lt elt_le : Element -> Element -> bool.
Variable m : Mem (Element := Element).

Lemma halts_rd_ptr (a : list cell) (i : Z) : halts (rd_ptr a i).
Proof.
  unfold rd_ptr. apply halts_bind; [apply halts_rd|].
  intros [p|] _; discriminate.
Qed.

Lemma plain_halts_cmp_pos (op : Element -> Element -> bool) (h : Heap)
  (i j : Z) : halts (cmp_pos op m h i j).
Proof.
  unfold cmp_pos.
  apply halts_bind; [apply halts_in_range | intros _ _].
  apply halts_bind; [apply halts_in_range | intros _ _].
  apply halts_bind; [apply halts_rd_ptr | intros p1 _].
  apply halts_bind; [apply halts_deref | intros e1 _].
  apply halts_bind; [apply halts_rd_ptr | intros p2 _].
  apply halts_bind; [apply halts_deref | intros e2 _]. apply halts_Ok.
Qed.

Lemma plain_swap_inv (h : Heap) (a b : Z) (h' : Heap) :
  swap h a b = Ok h' ->
  0 <= b <= u32 (capacity h - 1) /\
  capacity h' = capacity h /\ nb_elem h' = nb_elem h.
Proof.
  unfold swap. intros H.
  apply bind_Ok_inv in H as (u1 & _ & H).
  apply bind_Ok_inv in H as (u2 & Hb & H). apply in_range_inv in Hb.
  apply bind_Ok_inv in H as (pa & _ & H).
  apply bind_Ok_inv in H as (pb & _ & H).
  apply bind_Ok_inv in H as (e1 & _ & H).
  apply bind_Ok_inv in H as (e2 & _ & H). injection H as <-. auto.
Qed.

Lemma plain_halts_swap (h : Heap) (a b : Z) : halts (swap h a b).
Proof.
  unfold swap.
  apply halts_bind; [apply halts_in_range | intros _ _].
  apply halts_bind; [apply halts_in_range | intros _ _].
  apply halts_bind; [apply halts_rd_ptr | intros pa _].
  apply halts_bind; [apply halts_rd_ptr | intros pb _].
  apply halts_bind; [apply halts_wr | intros e1 _].
  apply halts_bind; [apply halts_wr | intros e2 _]. apply halts_Ok.
Qed.

Lemma plain_get_pos_father_inv (h : Heap) (i f : Z) :
  get_pos_father h i = Ok f -> 0 <= i ->
  f = (if i =? 0 then 0 else (i - 1) / 2).
Proof.
  unfold get_pos_father. intros H Hi.
  apply bind_Ok_inv in H as (u & Hr & H). apply in_range_inv in Hr.
  apply bind_Ok_inv in H as (u' & _ & H). injection H as <-.
  assert (Hlt : i < UINT_MOD)
    by (unfold u32 in Hr; rewrite UINT_MOD_eq in *; zlia).
  destruct (Z.eqb_spec i 0); [reflexivity|].
  rewrite (u32_small (i - 1)) by lia. apply father_by_halving. lia.
Qed.

Lemma plain_halts_get_pos_father (h : Heap) (i : Z) :
  halts (get_pos_father h i).
Proof.
  unfold get_pos_father.
  apply halts_bind; [apply halts_in_range | intros _ _].
  apply halts_bind; [apply halts_in_range | intros _ _]. apply halts_Ok.
Qed.

Lemma plain_halts_sons (h : Heap) (i : Z) :
  halts (get_pos_left_son h i) /\ halts (get_pos_right_son h i).
Proof.
  unfold get_pos_left_son, get_pos_right_son.
  split; (apply halts_bind; [apply halts_in_range | intros _ _]);
    apply halts_Ok.
Qed.

Lemma plain_sons_inv (h : Heap) (i l r : Z) :
  get_pos_left_son h i = Ok l -> get_pos_right_son h i = Ok r ->
  l = u32 (2 * i + 1) /\ r = u32 (2 * i + 2).
Proof.
  unfold get_pos_left_son, get_pos_right_son. intros Hl Hr.
  apply bind_Ok_inv in Hl as (u & _ & Hl).
  apply bind_Ok_inv in Hr as (u' & _ & Hr). split; congruence.
Qed.

Lemma plain_halts_is_valid_body (h : Heap) (i : Z) :
  halts (is_valid_body elt_le m h i).
Proof.
  unfold is_valid_body.
  apply halts_bind; [apply plain_halts_sons | intros r _].
  apply halts_bind.
  { destruct (r <? nb_elem h); [|apply halts_Ok].
    apply halts_bind; [apply plain_halts_cmp_pos | intros b _].
    apply halts_Ok. }
  intros [a|] _; [apply halts_Ok|].
  apply halts_bind; [apply plain_halts_sons | intros l _].
  destruct (l <? nb_elem h); [|apply halts_Ok].
  apply halts_bind; [apply plain_halts_cmp_pos | intros b _]. apply halts_Ok.
Qed.

Lemma plain_halts_assert_valid (h : Heap) : halts (assert_valid elt_le m h).
Proof.
  unfold assert_valid, is_valid, then_.
  apply halts_bind; [|intros b _; apply halts_assert].
  apply halts_bind; [|intros [a|] _; apply halts_Ok].
  induction (seqZ 0 (nb_elem h)) as [|i l IH]; cbn [for_each];
    [apply halts_Ok|].
  apply halts_bind; [apply plain_halts_is_valid_body|].
  intros [a|] _; [apply halts_Ok | exact IH].
Qed.

(** A comparison of a position with itself answers [op e e]. *)
Lemma plain_cmp_pos_same (op : Element -> Element -> bool) (h : Heap)
  (i : Z) (c : bool) :
  cmp_pos op m h i i = Ok c -> exists e, c = op e e.
Proof.
  unfold cmp_pos. intros H.
  apply bind_Ok_inv in H as (u1 & _ & H).
  apply bind_Ok_inv in H as (u2 & _ & H).
  apply bind_Ok_inv in H as (n1 & Hn1 & H).
  apply bind_Ok_inv in H as (e1 & He1 & H).
  apply bind_Ok_inv in H as (n2 & Hn2 & H).
  apply bind_Ok_inv in H as (e2 & He2 & H).
  assert (n2 = n1) as -> by congruence.
  assert (e2 = e1) as -> by congruence.
  exists e1. congruence.
Qed.

Hypothesis elt_lt_irrefl : forall x, elt_lt x x = false.

Lemma plain_halts_raise_loop (fuel : nat) : forall (h : Heap) (pos : Z),
  0 <= pos -> (Z.to_nat pos < fuel)%nat ->
  halts (raise_loop elt_lt fuel m h pos
           (if pos =? 0 then 0 else (pos - 1) / 2)).
Proof.
  induction fuel as [|fuel IH]; intros h pos Hpos Hfuel; [lia|].
  cbn [raise_loop].
  apply halts_bind.
  { destruct (0 <=? _); [apply plain_halts_cmp_pos | apply halts_Ok]. }
  intros [|] Hc; [|apply halts_Ok].
  destruct (Z.eqb_spec pos 0) as [->|Hne].
  { cbn in Hc. apply plain_cmp_pos_same in Hc as [e He].
    rewrite elt_lt_irrefl in He. discriminate. }
  apply halts_bind; [apply plain_halts_swap|]. intros h1 _.
  apply halts_bind; [apply plain_halts_get_pos_father|]. intros f' Hf'.
  apply plain_get_pos_father_inv in Hf' as ->; [|zlia].
  apply IH; zlia.
Qed.

Lemma plain_halts_raise (h : Heap) (pos : Z) :
  halts (raise elt_lt elt_le m h pos).
Proof.
  unfold raise. apply halts_bind; [apply halts_in_range|]. intros u Hu.
  apply in_range_inv in Hu.
  apply halts_bind; [apply plain_halts_get_pos_father|]. intros f Hf.
  apply plain_get_pos_father_inv in Hf as ->; [|lia].
  apply halts_bind; [apply plain_halts_raise_loop; lia|]. intros h' _.
  apply halts_bind; [apply plain_halts_assert_valid|]. intros _ _.
  apply halts_Ok.
Qed.

Lemma plain_halts_lower_loop (fuel : nat) : forall (h : Heap) (pos l r : Z),
  0 <= pos -> 2 * nb_elem h < UINT_MOD ->
  (l = 2 * pos + 1 /\ r = 2 * pos + 2) \/ (nb_elem h <= l /\ nb_elem h <= r) ->
  (Z.to_nat (nb_elem h - pos) < fuel)%nat ->
  halts (lower_loop elt_lt fuel m h pos l r).
Proof.
  induction fuel as [|fuel IH]; intros h pos l r Hpos Hsmall Hshape Hfuel;
    [lia|].
  cbn [lower_loop].
  apply halts_bind.
  { destruct (l <? nb_elem h); [apply plain_halts_cmp_pos | apply halts_Ok]. }
  intros c1 Hc1. apply halts_bind.
  { destruct c1; [apply halts_Ok|].
    destruct (r <? nb_elem h); [apply plain_halts_cmp_pos | apply halts_Ok]. }
  intros [|] Hc; [|apply halts_Ok].
  assert (Hl : l = 2 * pos + 1 /\ r = 2 * pos + 2 /\ l < nb_elem h).
  { destruct (Z.ltb_spec l (nb_elem h)) as [Hl|Hl].
    - destruct Hshape as [[-> ->]|[? ?]]; [auto | lia].
    - injection Hc1 as <-.
      destruct (Z.ltb_spec r (nb_elem h)) as [Hr|Hr]; [|discriminate].
      destruct Hshape as [[-> ->]|[? ?]]; lia. }
  destruct Hl as (-> & -> & Hl).
  apply halts_bind.
  { destruct (2 * pos + 2 <? nb_elem h);
      [apply plain_halts_cmp_pos | apply halts_Ok]. }
  intros c2 Hc2. cbv beta iota zeta.
  set (p' := if c2 then 2 * pos + 2 else 2 * pos + 1) in *.
  assert (Hp' : pos < p' < nb_elem h).
  { subst p'. destruct c2; [|lia].
    destruct (Z.ltb_spec (2 * pos + 2) (nb_elem h)); [lia | discriminate]. }
  apply halts_bind; [apply plain_halts_swap|]. intros h1 Hs.
  apply plain_swap_inv in Hs as (_ & _ & Hn1).
  apply halts_bind; [apply plain_halts_sons|]. intros l' Hl'.
  apply halts_bind; [apply plain_halts_sons|]. intros r' Hr'.
  destruct (plain_sons_inv _ _ _ _ Hl' Hr') as [-> ->].
  rewrite !u32_small by lia.
  apply IH; [lia | lia | auto | lia].
Qed.

Lemma plain_halts_lower (h : Heap) (pos : Z) :
  0 <= nb_elem h <= capacity h -> 2 * capacity h < UINT_MOD ->
  halts (lower elt_lt elt_le m h pos).
Proof.
  intros Hnb Hcap.
  unfold lower. apply halts_bind; [apply halts_in_range|]. intros u Hu.
  apply in_range_inv in Hu.
  apply halts_bind; [apply plain_halts_sons|]. intros l Hl.
  apply halts_bind; [apply plain_halts_sons|]. intros r Hr.
  destruct (plain_sons_inv _ _ _ _ Hl Hr) as [-> ->].
  apply halts_bind.
  { apply plain_halts_lower_loop; [lia | lia | | lia].
    destruct (decide (capacity h = 0)) as [Hz|Hz].
    - right. unfold u32. rewrite UINT_MOD_eq. zlia.
    - left. rewrite (u32_small (capacity h - 1)) in Hu by lia.
      rewrite !u32_small by lia. auto. }
  intros h' _.
  apply halts_bind; [apply plain_halts_assert_valid|]. intros _ _.
  apply halts_Ok.
Qed.

(** X23: when [<] is irreflexive, the loops of the heap of [heap.hpp] end:
    [push] never runs for ever, and neither does [pop] on a heap of capacity
    below [2^31] that holds no more elements than its capacity and at least
    one.  Each ends normally, on a failed assertion or in undefined
    behaviour. *)
Theorem plain_operations_terminate (h : Heap) (v : Z) :
  0 < nb_elem h <= capacity h -> 2 * capacity h < UINT_MOD ->
  push elt_lt elt_le m h v <> Diverge /\
  pop elt_lt elt_le m h <> Diverge.
Proof.
  intros Hnb Hcap. split.
  - change (halts (push elt_lt elt_le m h v)). unfold push.
    apply halts_bind; [apply plain_halts_assert_valid | intros _ _].
    apply halts_bind; [apply halts_assert | intros _ _].
    apply halts_bind; [apply halts_wr | intros e _].
    apply halts_bind; [apply plain_halts_raise | intros h2 _].
    apply halts_bind; [apply plain_halts_assert_valid | intros _ _].
    apply halts_Ok.
  - change (halts (pop elt_lt elt_le m h)). unfold pop.
    apply halts_bind; [apply plain_halts_assert_valid | intros _ _].
    apply halts_bind; [apply halts_rd_ptr | intros p _].
    apply halts_bind; [destruct p; discriminate | intros a _].
    apply halts_bind; [apply halts_rd_ptr | intros last _].
    apply halts_bind; [apply halts_wr | intros e1 _].
    apply halts_bind; [apply halts_wr | intros e2 _].
    apply halts_bind.
    { apply plain_halts_lower; cbn; [|lia]. rewrite u32_small by lia. lia. }
    intros h2 _.
    apply halts_bind; [apply plain_halts_assert_valid | intros _ _].
    apply halts_Ok.
Qed.

End PlainHalts.

Lemma plain_operations_terminate_witness :
  PlainHeap.push Z.ltb Z.leb (mem_list [1; 5]) PlainHeap.plain_two 0
    <> Diverge /\
  PlainHeap.pop Z.ltb Z.leb (mem_list [1; 5]) PlainHeap.plain_two <> Diverge.
Proof.
  apply (plain_operations_terminate Z.ltb Z.leb (mem_list [1; 5])
           Z.ltb_irrefl).
  - cbn. lia.
  - cbn. rewrite UINT_MOD_eq. lia.
Defined.
